(** * power_flow: nodal admittance matrix and Newton-Raphson solver

    A shallow embedding of the numerical core of the [power_flow] package
    ([ybus.py], [solver/power_balance.py], [solver/jacobian.py],
    [solver/residuals.py], [solver/update.py], [solver/convergence.py],
    [newtonraphson.py]) together with the properties of its specification.

    Conventions of the embedding.
    - Python [float] is read as a real number ([R]); [complex] is a pair of
      reals.  Every statement below is about exact arithmetic.
    - A [pd.Series] is an association list from labels to values, in index
      order; a square label-indexed [pd.DataFrame] is a list of labels with a
      dense list of rows; a [dict] is a [gmap].  A lookup by label is that of
      an index without repeated labels (pandas returns a sub-vector for a
      repeated label): statements that promise a result of a lookup assume
      the labels distinct.
    - A Python exception is a value of [exn]; a function that may raise
      returns a [result].
    - [numpy.linalg.solve] is a parameter of the solver, used through its
      contract [solves].
    - [print], logging and writing the spreadsheet are not modelled. *)

From Stdlib Require Import Reals Lra Lia.
From stdpp Require Import base option list sorting strings gmap.

Local Open Scope R_scope.

(** ** Exceptions *)

Inductive exn : Type :=
| KeyError (key : string)
| ZeroDivisionError
| AssertionError (msg : string)
| IndexError
| ValueError
| LinAlgError.

Inductive result (A : Type) : Type :=
| Ok (a : A)
| Err (e : exn).
Arguments Ok {A} a.
Arguments Err {A} e.

Global Instance result_ret : MRet result := fun A a => Ok a.
Global Instance result_bind : MBind result := fun A B k r =>
  match r with
  | Ok a => k a
  | Err e => Err e
  end.

Global Instance result_fmap : FMap result := fun A B f r =>
  match r with
  | Ok a => Ok (f a)
  | Err e => Err e
  end.

(** A comprehension whose element expression may raise. *)
Fixpoint traverse {A B} (f : A -> result B) (l : list A) : result (list B) :=
  match l with
  | [] => Ok []
  | a :: l' => b ← f a; bs ← traverse f l'; Ok (b :: bs)
  end.

(** A [for] loop whose body may raise: the first exception ends the loop. *)
Fixpoint foldM {A B} (f : A -> B -> result A) (a : A) (l : list B) : result A :=
  match l with
  | [] => Ok a
  | b :: l' => a' ← f a b; foldM f a' l'
  end.

(** [enumerate(l)] *)
Definition enumerate {A} (l : list A) : list (nat * A) := imap pair l.

(** ** Real and complex numbers *)

Global Instance R_eq_dec : EqDecision R := Req_dec_T.
Global Instance Rlt_decision (x y : R) : Decision (x < y) := Rlt_dec x y.

Record C : Type := mkC { re : R; im : R }.

Definition C0 : C := mkC 0 0.
Definition RtoC (x : R) : C := mkC x 0.
Definition Cj : C := mkC 0 1.
Definition Cadd (a b : C) : C := mkC (re a + re b) (im a + im b).
Definition Copp (a : C) : C := mkC (- re a) (- im a).
Definition Cmul (a b : C) : C :=
  mkC (re a * re b - im a * im b) (re a * im b + im a * re b).
Definition Cconj (a : C) : C := mkC (re a) (- im a).
Definition Cnorm2 (a : C) : R := re a * re a + im a * im a.
(** The quotient [a * conj b / |b|^2]; division of numpy values raises
    nothing. *)
Definition Cdiv (a b : C) : C :=
  mkC ((re a * re b + im a * im b) / Cnorm2 b)
      ((im a * re b - re a * im b) / Cnorm2 b).
Definition Cexp (z : C) : C :=
  mkC (exp (re z) * cos (im z)) (exp (re z) * sin (im z)).

Global Instance C_eq_dec : EqDecision C.
Proof. solve_decision. Defined.

(** Division of Python [complex] values: a zero divisor raises. *)
Definition py_cdiv (a b : C) : result C :=
  if decide (b = C0) then Err ZeroDivisionError else Ok (Cdiv a b).

(** [numpy.deg2rad] *)
Definition deg2rad (x : R) : R := x * (PI / 180).

(** ** Network elements (models/) *)

Record Line : Type := mkLine {
  line_de : string; line_para : string;
  line_r : R; line_x : R; line_b : R;
  line_tap : R; line_nome : string; line_status : bool }.

Record Transformer : Type := mkTransformer {
  trafo_de : string; trafo_para : string; trafo_nome : string;
  trafo_r : R; trafo_x : R; trafo_b : R;
  trafo_tap : R; trafo_fase : R; trafo_status : bool }.

Record Shunt : Type := mkShunt {
  shunt_barra : string; shunt_b : R; shunt_status : bool }.

Record Generator : Type := mkGenerator {
  gen_barra : string; gen_p : R; gen_q : R; gen_qmin : R; gen_qmax : R }.

Record Load : Type := mkLoad {
  load_barra : string; load_p : R; load_q : R }.

Record Bus : Type := mkBus {
  bus_numero : nat; bus_tipo : string; bus_nome : string;
  bus_v : R; bus_theta : R;
  bus_geradores : list Generator;
  bus_cargas : list Load;
  bus_shunts : list Shunt }.

(** ** Dense matrices and label-indexed frames *)

Definition zeros {A} (z : A) (n m : nat) : list (list A) :=
  replicate n (replicate m z).

Definition mat_get {A} (d : A) (M : list (list A)) (i j : nat) : A :=
  default d (row ← M !! i; row !! j).

(** A dense [n] by [m] array. *)
Definition shape {A} (n m : nat) (M : list (list A)) : Prop :=
  length M = n /\ Forall (fun row => length row = m) M.

(** [M[i, j] = v] *)
Definition mat_set {A} (i j : nat) (v : A) (M : list (list A)) : list (list A) :=
  alter (fun row => <[j:=v]> row) i M.

(** [M[i, j] += y]; the positions come from [barra_map], hence are in
    range. *)
Definition mat_add (i j : nat) (y : C) (M : list (list C)) : list (list C) :=
  alter (alter (fun c => Cadd c y) j) i M.

Record DataFrame (A : Type) : Type := mkDataFrame {
  df_index : list string;
  df_values : list (list A) }.
Arguments mkDataFrame {A} _ _.
Arguments df_index {A} _.
Arguments df_values {A} _.

(** ** ybus.py *)

(** [barra_map[nome]] *)
Definition dict_get (m : gmap string nat) (k : string) : result nat :=
  match m !! k with
  | Some i => Ok i
  | None => Err (KeyError k)
  end.

Definition _admitancia_linha (linha : Line) (barra_map : gmap string nat)
  : result (list (nat * nat * C)) :=
  i ← dict_get barra_map (line_de linha);
  j ← dict_get barra_map (line_para linha);
  let z := mkC (line_r linha) (line_x linha) in
  y ← py_cdiv (RtoC 1) z;
  let b := mkC 0 (line_b linha / 2) in
  Ok [ (i, i, Cadd y b);
       (j, j, Cadd y b);
       (i, j, Copp y);
       (j, i, Copp y) ].

Definition _admitancia_transformador (trafo : Transformer)
    (barra_map : gmap string nat) : result (list (nat * nat * C)) :=
  i ← dict_get barra_map (trafo_de trafo);
  j ← dict_get barra_map (trafo_para trafo);
  let z := mkC (trafo_r trafo) (trafo_x trafo) in
  y ← py_cdiv (RtoC 1) z;
  let b := mkC 0 (trafo_b trafo / 2) in
  let a := Cmul (RtoC (trafo_tap trafo))
                (Cexp (Cmul Cj (RtoC (deg2rad (trafo_fase trafo))))) in
  let Yff := Cadd (Cdiv y (Cmul a (Cconj a))) b in
  let Yft := Cdiv (Copp y) (Cconj a) in
  let Ytf := Cdiv (Copp y) a in
  let Ytt := Cadd y b in
  Ok [ (i, i, Yff);
       (i, j, Yft);
       (j, i, Ytf);
       (j, j, Ytt) ].

(** [for i, j, y in terms: ybus[i, j] += y] *)
Definition add_terms (ybus : list (list C)) (terms : list (nat * nat * C))
  : list (list C) :=
  foldl (fun M t => mat_add t.1.1 t.1.2 t.2 M) ybus terms.

(** [sorted(set(b.nome for b in barras))] *)
Definition sorted_names (barras : list Bus) : list string :=
  merge_sort String.le (elements (list_to_set (bus_nome <$> barras) : gset string)).

(** [{nome: idx for idx, nome in enumerate(barra_nomes)}] *)
Definition make_barra_map (barra_nomes : list string) : gmap string nat :=
  foldl (fun m p => <[p.2 := p.1]> m) ∅ (enumerate barra_nomes).

Definition add_shunt (barra_map : gmap string nat) (ybus : list (list C))
    (shunt : Shunt) : list (list C) :=
  if shunt_status shunt then
    match barra_map !! shunt_barra shunt with
    | Some i => mat_add i i (mkC 0 (shunt_b shunt)) ybus
    | None => ybus
    end
  else ybus.

Definition Ybus (linhas : list Line) (transformadores : list Transformer)
    (barras : list Bus) (shunts : list Shunt) : result (DataFrame C) :=
  let barra_nomes := sorted_names barras in
  let barra_map := make_barra_map barra_nomes in
  let nb := size barra_map in
  let ybus := zeros C0 nb nb in
  ybus ← foldM (fun M linha =>
            terms ← _admitancia_linha linha barra_map;
            Ok (add_terms M terms)) ybus linhas;
  ybus ← foldM (fun M trafo =>
            terms ← _admitancia_transformador trafo barra_map;
            Ok (add_terms M terms)) ybus transformadores;
  let ybus := foldl (add_shunt barra_map) ybus shunts in
  Ok (mkDataFrame barra_nomes ybus).

(** ** Series and frames (pandas) *)

Definition Series : Type := list (string * R).

Definition labels {A} (s : list (string * A)) : list string := s.*1.
Definition values {A} (s : list (string * A)) : list A := s.*2.

(** [s[k]], [s.loc[k]]: the entry labelled [k]; a missing label raises.  For
    an index without repeated labels. *)
Fixpoint series_get {A} (s : list (string * A)) (k : string) : result A :=
  match s with
  | [] => Err (KeyError k)
  | (k', v) :: s' => if decide (k' = k) then Ok v else series_get s' k
  end.

(** [s[k] = v], [s.loc[k] = v]: every entry labelled [k] is overwritten; a new
    label is appended. *)
Definition series_set (s : Series) (k : string) (v : R) : Series :=
  if decide (k ∈ labels s)
  then (fun e : string * R => if decide (e.1 = k) then (k, v) else e) <$> s
  else s ++ [(k, v)].

(** [pd.Series(v, index=index)] *)
Definition series_const (v : R) (index : list string) : Series :=
  (fun k => (k, v)) <$> index.

(** [df.map(f)] *)
Definition df_map {A B} (f : A -> B) (df : DataFrame A) : DataFrame B :=
  mkDataFrame (df_index df) (fmap (M:=list) f <$> df_values df).

(** Position of the label [k] in an index. *)
Fixpoint index_of (l : list string) (k : string) : result nat :=
  match l with
  | [] => Err (KeyError k)
  | k' :: l' => if decide (k' = k) then Ok 0%nat else S <$> index_of l' k
  end.

(** [df.loc[k, m]] *)
Definition df_loc {A} (d : A) (df : DataFrame A) (k m : string) : result A :=
  i ← index_of (df_index df) k;
  j ← index_of (df_index df) m;
  Ok (mat_get d (df_values df) i j).

(** [df.loc[ordem, ordem]]: rows and columns picked by label, in the order of
    [ordem]; a label that is not in the frame raises a [KeyError].  Its
    argument, a message that lists the missing labels, is not modelled: the
    statements leave it open. *)
Definition df_reindex {A} (d : A) (df : DataFrame A) (ordem : list string)
  : result (DataFrame A) :=
  pos ← traverse (index_of (df_index df)) ordem;
  Ok (mkDataFrame ordem
        ((fun i => (fun j => mat_get d (df_values df) i j) <$> pos) <$> pos)).

(** ** solver/power_balance.py *)

(** The body of the double loop: the term of the pair [(k, m)] is added to
    [P[k]] and [Q[k]]. *)
Definition injection_step (G B : DataFrame R) (V theta : Series) (k : string)
    (PQ : Series * Series) (m : string) : result (Series * Series) :=
  th_k ← series_get theta k;
  th_m ← series_get theta m;
  let theta_km := th_k - th_m in
  P_k ← series_get PQ.1 k;
  V_k ← series_get V k;
  V_m ← series_get V m;
  G_km ← df_loc 0 G k m;
  B_km ← df_loc 0 B k m;
  let P' := series_set PQ.1 k
    (P_k + V_k * V_m * (G_km * cos theta_km + B_km * sin theta_km)) in
  Q_k ← series_get PQ.2 k;
  let Q' := series_set PQ.2 k
    (Q_k + V_k * V_m * (G_km * sin theta_km - B_km * cos theta_km)) in
  Ok (P', Q').

Definition calc_injected_power (Ybus : DataFrame C) (V theta : Series)
  : result (Series * Series) :=
  let G := df_map re Ybus in
  let B := df_map im Ybus in
  let P := series_const 0 (labels V) in
  let Q := series_const 0 (labels V) in
  let ordem := labels V in
  G ← df_reindex 0 G ordem;
  B ← df_reindex 0 B ordem;
  if negb (bool_decide (df_index G = labels V)) then
    Err (AssertionError "Erro: índices de G e V não coincidem")
  else if negb (bool_decide (df_index B = labels V)) then
    Err (AssertionError "Erro: índices de B e V não coincidem")
  else if negb (bool_decide (labels theta = labels V)) then
    Err (AssertionError "Erro: índices de theta e V não coincidem")
  else
    foldM (fun PQ k => foldM (injection_step G B V theta k) PQ (labels V))
          (P, Q) (labels V).

(** The specified-power table: [P_esp] and [Q_esp] per bus. *)
Definition PotEsp : Type := list (string * (R * R)).

Definition msg_pot_esp (barra : string) : string :=
  "Barra '" +:+ barra +:+ "' não encontrada em pot_esp".

(** [try: ... except KeyError as exc: raise KeyError(msg) from exc] *)
Definition except_KeyError {A} (r : result A) (msg : string) : result A :=
  match r with
  | Err (KeyError _) => Err (KeyError msg)
  | _ => r
  end.

(** [for barra in swing: if barra in delta: delta[barra] = 0.0] *)
Definition zero_swing (delta : Series) (swing : list string) : Series :=
  foldl (fun d barra =>
           if decide (barra ∈ labels d) then series_set d barra 0 else d)
        delta swing.

Section Mismatch.
(** The value [pd.Series(index=..., dtype=float)] is filled with before the
    loop assigns every entry (NaN in the source). *)
Variable nan : R.

Definition calc_delta_p (P : Series) (pot_esp : PotEsp)
    (index swing : list string) : result Series :=
  let delta_P := series_const nan index in
  delta_P ← foldM (fun d barra =>
      v ← except_KeyError
            (esp ← series_get pot_esp barra;
             p ← series_get P barra;
             Ok (esp.1 - p))
            (msg_pot_esp barra);
      Ok (series_set d barra v)) delta_P index;
  Ok (zero_swing delta_P swing).

Definition calc_delta_q (Q : Series) (pot_esp : PotEsp)
    (pq swing : list string) : result Series :=
  let barras_q := swing ++ pq in
  let delta_Q := series_const nan barras_q in
  delta_Q ← foldM (fun d barra =>
      v ← except_KeyError
            (esp ← series_get pot_esp barra;
             q ← series_get Q barra;
             Ok (esp.2 - q))
            (msg_pot_esp barra);
      Ok (series_set d barra v)) delta_Q barras_q;
  Ok (zero_swing delta_Q swing).
End Mismatch.

(** ** solver/residuals.py *)

Definition stack_residuals (delta_p delta_q : Series) (idx_theta : list string)
  : result (list R) :=
  dp ← traverse (series_get delta_p) idx_theta;
  Ok (dp ++ values delta_q).

Definition split_corrections (delta : list R) (n_theta n_v : nat)
  : list R * list R :=
  (take n_theta delta, take n_v (drop n_theta delta)).

(** ** solver/update.py *)

(** [a[i]] on an array *)
Definition array_get (a : list R) (i : nat) : result R :=
  match a !! i with
  | Some x => Ok x
  | None => Err IndexError
  end.

(** [for i, nome in enumerate(names): s.loc[nome] -= d[i]] *)
Definition subtract_corrections (s : Series) (d : list R) (names : list string)
  : result Series :=
  foldM (fun s p =>
           old ← series_get s p.2;
           c ← array_get d p.1;
           Ok (series_set s p.2 (old - c)))
        s (enumerate names).

Definition apply_delta (theta V : Series) (delta : list R)
    (index swing pq : list string) : result (Series * Series) :=
  let '(delta_theta, delta_v) :=
    split_corrections delta (length index) (length (swing ++ pq)) in
  theta ← subtract_corrections theta delta_theta index;
  V ← subtract_corrections V delta_v (swing ++ pq);
  Ok (theta, V).

(** ** solver/convergence.py *)

(** [np.max(np.abs(mismatch))]; the maximum of an empty array raises. *)
Definition max_abs (mismatch : list R) : result R :=
  match mismatch with
  | [] => Err ValueError
  | x :: l => Ok (foldl (fun acc y => Rmax acc (Rabs y)) (Rabs x) l)
  end.

Definition check_convergence (mismatch : list R) (tol : R) : result bool :=
  max_mismatch ← max_abs mismatch;
  Ok (bool_decide (max_mismatch < tol)).

(** ** config.py *)

Definition BIG_NUMBER : R := 1.

(** ** solver/jacobian.py *)

(** The loop nest shared by the four builders:
    [A = zeros((len(rows), len(cols)))], then
    [for i, k in enumerate(rows): for j, m in enumerate(cols): A[i, j] = entry(k, m)]. *)
Definition fill_row (entry : string -> string -> result R) (i : nat) (k : string)
    (cols : list string) (A : list (list R)) : result (list (list R)) :=
  foldM (fun A jm =>
           v ← entry k jm.2;
           Ok (mat_set i jm.1 v A))
        A (enumerate cols).

Definition fill_rows (entry : string -> string -> result R) (cols : list string)
    (rows : list string) (A : list (list R)) : result (list (list R)) :=
  foldM (fun A ik => fill_row entry ik.1 ik.2 cols A) A (enumerate rows).

Definition fill_matrix (rows cols : list string)
    (entry : string -> string -> result R) : result (list (list R)) :=
  fill_rows entry cols rows (zeros 0 (length rows) (length cols)).

(** [np.hstack((A, B))] and [np.vstack((A, B))] on blocks of matching shape. *)
Definition hstack (A B : list (list R)) : list (list R) := zip_with app A B.
Definition vstack (A B : list (list R)) : list (list R) := A ++ B.

Section Jacobian.
Variables (V theta : Series) (G B : DataFrame R) (P Q : Series).
Variables (pq pv swing index : list string).

Definition in_swing (k m : string) : bool :=
  bool_decide (k ∈ swing) || bool_decide (m ∈ swing).

Definition entry_H (k m : string) : result R :=
  if in_swing k m then
    Ok (if decide (k = m) then BIG_NUMBER else 0)
  else if decide (k = m) then
    Q_k ← series_get Q k;
    V_k ← series_get V k;
    B_kk ← df_loc 0 B k k;
    Ok (- Q_k - V_k ^ 2 * B_kk)
  else
    th_k ← series_get theta k;
    th_m ← series_get theta m;
    let theta_km := th_k - th_m in
    V_k ← series_get V k;
    V_m ← series_get V m;
    G_km ← df_loc 0 G k m;
    B_km ← df_loc 0 B k m;
    Ok (V_k * V_m * (G_km * sin theta_km - B_km * cos theta_km)).

Definition entry_N (k m : string) : result R :=
  if in_swing k m then
    Ok 0
  else if decide (k = m) then
    P_k ← series_get P k;
    V_k ← series_get V k;
    G_kk ← df_loc 0 G k k;
    V_k' ← series_get V k;
    Ok ((P_k + V_k ^ 2 * G_kk) / V_k')
  else
    th_k ← series_get theta k;
    th_m ← series_get theta m;
    let theta_km := th_k - th_m in
    V_k ← series_get V k;
    G_km ← df_loc 0 G k m;
    B_km ← df_loc 0 B k m;
    Ok (V_k * (G_km * cos theta_km + B_km * sin theta_km)).

Definition entry_M (k m : string) : result R :=
  if in_swing k m then
    Ok 0
  else if decide (k = m) then
    P_k ← series_get P k;
    V_k ← series_get V k;
    G_kk ← df_loc 0 G k k;
    Ok (P_k - V_k ^ 2 * G_kk)
  else
    th_k ← series_get theta k;
    th_m ← series_get theta m;
    let theta_km := th_k - th_m in
    V_k ← series_get V k;
    V_m ← series_get V m;
    G_km ← df_loc 0 G k m;
    B_km ← df_loc 0 B k m;
    Ok (- V_k * V_m * (G_km * cos theta_km + B_km * sin theta_km)).

Definition entry_L (k m : string) : result R :=
  if in_swing k m then
    Ok (if decide (k = m) then BIG_NUMBER else 0)
  else if decide (k = m) then
    Q_k ← series_get Q k;
    V_k ← series_get V k;
    B_kk ← df_loc 0 B k k;
    V_k' ← series_get V k;
    Ok ((Q_k - V_k ^ 2 * B_kk) / V_k')
  else
    th_k ← series_get theta k;
    th_m ← series_get theta m;
    let theta_km := th_k - th_m in
    V_k ← series_get V k;
    G_km ← df_loc 0 G k m;
    B_km ← df_loc 0 B k m;
    Ok (V_k * (G_km * sin theta_km - B_km * cos theta_km)).

Definition _build_H : result (list (list R)) :=
  fill_matrix index index entry_H.

Definition _build_N : result (list (list R)) :=
  let colunas := swing ++ pq in
  fill_matrix index colunas entry_N.

Definition _build_M : result (list (list R)) :=
  let linhas := swing ++ pq in
  fill_matrix linhas index entry_M.

Definition _build_L : result (list (list R)) :=
  let colunas := swing ++ pq in
  fill_matrix colunas colunas entry_L.

Definition _build : result (list (list R)) :=
  H ← _build_H;
  N ← _build_N;
  M ← _build_M;
  L ← _build_L;
  let upper := hstack H N in
  let lower := hstack M L in
  Ok (vstack upper lower).
End Jacobian.

(** ** models/sistema.py *)

(** A row of [df_bus] (the columns the solver reads, and those from which
    they are computed). *)
Record BusRow : Type := mkBusRow {
  row_barra : string; row_tipo : string;
  row_V : R; row_Theta : R;
  row_Pg : R; row_Qg : R; row_Pl : R; row_Ql : R;
  row_P_esp : R; row_Q_esp : R }.

(** [sum(f(x) for x in l)] *)
Definition py_sum {A} (f : A -> R) (l : list A) : R :=
  foldl (fun acc x => acc + f x) 0 l.

Definition make_row (b : Bus) : BusRow :=
  let Pg := py_sum gen_p (bus_geradores b) in
  let Qg := py_sum gen_q (bus_geradores b) in
  let Pl := py_sum load_p (bus_cargas b) in
  let Ql := py_sum load_q (bus_cargas b) in
  mkBusRow (bus_nome b) (bus_tipo b) (bus_v b) (bus_theta b)
           Pg Qg Pl Ql (Pg - Pl) (Qg - Ql).

Record Sistema : Type := mkSistema {
  sis_barras : list Bus;
  sis_linhas : list Line;
  sis_transformadores : list Transformer;
  sis_shunts : list Shunt;
  sis_ybus : DataFrame C;
  sis_df_bus : list BusRow }.

Definition Sistema_init (barras : list Bus) (linhas : list Line)
    (transformadores : list Transformer) : result Sistema :=
  let shunts := barras ≫= bus_shunts in
  ybus ← Ybus linhas transformadores barras shunts;
  Ok (mkSistema barras linhas transformadores shunts ybus (make_row <$> barras)).

Definition pot_esp (s : Sistema) : PotEsp :=
  (fun r => (row_barra r, (row_P_esp r, row_Q_esp r))) <$> sis_df_bus s.

(** ** newtonraphson.py *)

Record NewtonRaphson : Type := mkNewtonRaphson {
  nr_V : Series;
  nr_theta : Series;
  nr_Ybus : DataFrame C;
  nr_pot_esp : PotEsp;
  nr_tol : R;
  nr_max_iter : nat;
  nr_pq : list string;
  nr_pv : list string;
  nr_swing : list string;
  nr_index : list string }.

(** [dbus.index[dbus['tipo'].str[0] == t].to_list()] *)
Definition buses_of_type (t : string) (dbus : list BusRow) : list string :=
  row_barra <$> filter (fun r => row_tipo r = t) dbus.

Definition NewtonRaphson_init (sistema : Sistema) (tol : R) (max_iter : nat)
  : NewtonRaphson :=
  let dbus := sis_df_bus sistema in
  mkNewtonRaphson
    ((fun r => (row_barra r, row_V r)) <$> dbus)
    ((fun r => (row_barra r, row_Theta r)) <$> dbus)
    (sis_ybus sistema)
    (pot_esp sistema)
    tol max_iter
    (buses_of_type "PQ" dbus)
    (buses_of_type "PV" dbus)
    (buses_of_type "SWING" dbus)
    (row_barra <$> dbus).

(** What one pass of the loop body of [solve] does: either the mismatch is
    within tolerance and [solve] returns, or the state is corrected. *)
Inductive Step : Type :=
| Converged
| Updated (V theta : Series).

Section Solve.
Variable nan : R.
(** [numpy.linalg.solve] *)
Variable linalg_solve : list (list R) -> list R -> result (list R).
Variable self : NewtonRaphson.

Definition iteration (V theta : Series) : result Step :=
  '(P, Q) ← calc_injected_power (nr_Ybus self) V theta;
  deltaP ← calc_delta_p nan P (nr_pot_esp self) (nr_index self) (nr_swing self);
  deltaQ ← calc_delta_q nan Q (nr_pot_esp self) (nr_pq self) (nr_swing self);
  let mismatch := values deltaP ++ values deltaQ in
  conv ← check_convergence mismatch (nr_tol self);
  if conv : bool then Ok Converged
  else
    J ← _build V theta (df_map re (nr_Ybus self)) (df_map im (nr_Ybus self))
               P Q (nr_pq self) (nr_swing self) (nr_index self);
    delta ← linalg_solve J (Ropp <$> mismatch);
    '(theta', V') ← apply_delta theta V delta
                      (nr_index self) (nr_swing self) (nr_pq self);
    Ok (Updated V' theta').

(** [for iteration in range(max_iter): ...], entered at pass [iter] with
    [remaining] passes left; then the code after the loop. *)
Fixpoint solve_loop (remaining iter : nat) (V theta : Series)
  : result (Series * Series * bool * nat) :=
  match remaining with
  | O => Ok (V, theta, false, nr_max_iter self)
  | S remaining' =>
      step ← iteration V theta;
      match step with
      | Converged => Ok (V, theta, true, S iter)
      | Updated V' theta' => solve_loop remaining' (S iter) V' theta'
      end
  end.

Definition solve : result (Series * Series * bool * nat) :=
  solve_loop (nr_max_iter self) 0 (nr_V self) (nr_theta self).

(** The state after [k] passes, none of which converged or raised. *)
Fixpoint run_updates (k : nat) (V theta : Series) : option (Series * Series) :=
  match k with
  | O => Some (V, theta)
  | S k' =>
      match iteration V theta with
      | Ok (Updated V' theta') => run_updates k' V' theta'
      | _ => None
      end
  end.
End Solve.

(** ** The contract of the linear solver *)

Definition dot (r x : list R) : R := foldr Rplus 0 (zip_with Rmult r x).

Definition mat_vec (J : list (list R)) (x : list R) : list R :=
  (fun row => dot row x) <$> J.

(** What [numpy.linalg.solve] promises when it returns: a vector [x] with
    [J x = b]. *)
Definition solves (linalg_solve : list (list R) -> list R -> result (list R))
  : Prop :=
  forall J b x, linalg_solve J b = Ok x ->
    length x = length J /\ mat_vec J x = b.

(** ** Reference notions for the admittance matrix *)

(** What a shunt adds: [jb] on the diagonal of its bus, when it is in service
    and its bus is known. *)
Definition shunt_terms (barra_map : gmap string nat) (shunts : list Shunt)
  : list (nat * nat * C) :=
  shunts ≫= fun shunt =>
    if shunt_status shunt then
      match barra_map !! shunt_barra shunt with
      | Some i => [(i, i, mkC 0 (shunt_b shunt))]
      | None => []
      end
    else [].

(** Every contribution [(i, j, y)] the construction adds, in the order it adds
    them. *)
Definition Ybus_terms (linhas : list Line) (transformadores : list Transformer)
    (barras : list Bus) (shunts : list Shunt) : result (list (nat * nat * C)) :=
  let barra_map := make_barra_map (sorted_names barras) in
  lt ← traverse (fun linha => _admitancia_linha linha barra_map) linhas;
  tt ← traverse (fun trafo => _admitancia_transformador trafo barra_map)
         transformadores;
  Ok (concat lt ++ concat tt ++ shunt_terms barra_map shunts).

(** The sum of the contributions that land on position [(i, j)]. *)
Definition sum_at (i j : nat) (terms : list (nat * nat * C)) (base : C) : C :=
  foldl (fun acc t => if decide (t.1 = (i, j)) then Cadd acc t.2 else acc)
        base terms.

(** An element can be stamped when both endpoints are known buses and its
    series impedance is not zero. *)
Definition line_ok (nomes : list string) (l : Line) : Prop :=
  line_de l ∈ nomes /\ line_para l ∈ nomes /\ mkC (line_r l) (line_x l) ≠ C0.

Definition trafo_ok (nomes : list string) (t : Transformer) : Prop :=
  trafo_de t ∈ nomes /\ trafo_para t ∈ nomes /\ mkC (trafo_r t) (trafo_x t) ≠ C0.

(** ** Reference notions for the transformer model

    The four contributions as the specification words them: [y = 1/(r + jx)],
    complex tap [a = tap * e^(j phi)] with [phi] the phase attribute of the
    transformer taken in radians. *)

Definition tap_spec (t : Transformer) : C :=
  Cmul (RtoC (trafo_tap t)) (Cexp (Cmul Cj (RtoC (trafo_fase t)))).

Definition y_series (r x : R) : C := Cdiv (RtoC 1) (mkC r x).

Definition trafo_terms_spec (i j : nat) (t : Transformer) : list (nat * nat * C) :=
  let y := y_series (trafo_r t) (trafo_x t) in
  let b := mkC 0 (trafo_b t / 2) in
  let a := tap_spec t in
  [ (i, i, Cadd (Cdiv y (Cmul a (Cconj a))) b);
    (i, j, Cdiv (Copp y) (Cconj a));
    (j, i, Cdiv (Copp y) a);
    (j, j, Cadd y b) ].

(** The same with the phase attribute converted from degrees first. *)
Definition degrees_to_radians (t : Transformer) : Transformer :=
  mkTransformer (trafo_de t) (trafo_para t) (trafo_nome t)
    (trafo_r t) (trafo_x t) (trafo_b t) (trafo_tap t)
    (deg2rad (trafo_fase t)) (trafo_status t).

(** ** Reference notions for the mismatch vectors *)

(** The entry both mismatch functions assign to a bus: specified minus
    computed, with the lookups guarded by the [try]. *)
Definition specified_minus (sel : R * R -> R) (S : Series) (pot_esp : PotEsp)
    (barra : string) : result R :=
  except_KeyError
    (esp ← series_get pot_esp barra;
     x ← series_get S barra;
     Ok (sel esp - x))
    (msg_pot_esp barra).

(** The first loop of both mismatch functions. *)
Definition delta_loop (sel : R * R -> R) (S : Series) (pot_esp : PotEsp)
    (names : list string) (d0 : Series) : result Series :=
  foldM (fun d barra =>
           v ← specified_minus sel S pot_esp barra;
           Ok (series_set d barra v)) d0 names.

(** The mismatch entry of the specification for bus [k]: zero on a swing bus,
    specified minus computed elsewhere. *)
Definition mismatch_entry (sel : R * R -> R) (S : Series) (pot_esp : PotEsp)
    (swing : list string) (k : string) (v : R) : Prop :=
  if decide (k ∈ swing) then v = 0
  else exists esp x,
         series_get pot_esp k = Ok esp /\ series_get S k = Ok x /\
         v = sel esp - x.

(** The mismatch vector of the specification over the buses [names]: one
    entry per listed bus, none for any other bus. *)
Definition mismatch_spec (sel : R * R -> R) (S : Series) (pot_esp : PotEsp)
    (names swing : list string) (d : Series) : Prop :=
  labels d = names /\
  (forall k, k ∈ names ->
     exists v, series_get d k = Ok v /\ mismatch_entry sel S pot_esp swing k v) /\
  (forall k, k ∉ names -> series_get d k = Err (KeyError k)).

(** The first bus of [names], in their order, that has no entry in the table
    or no entry in the injection vector [S]. *)
Definition first_lacking (names : list string) (pot_esp : PotEsp) (S : Series)
    (k : string) : Prop :=
  exists i, names !! i = Some k /\
    (k ∉ labels pot_esp \/ k ∉ labels S) /\
    forall j k', (j < i)%nat -> names !! j = Some k' ->
      k' ∈ labels pot_esp /\ k' ∈ labels S.

(** What a mismatch function with result [r] does about missing buses: a
    requested bus absent from the table makes it raise the [KeyError] of the
    first bus that lacks an entry; when the injection vector covers the
    requested buses that is the first bus absent from the table; it returns
    exactly when every requested bus has both entries. *)
Definition missing_bus_rule (names : list string) (pot_esp : PotEsp)
    (S : Series) (r : result Series) : Prop :=
  ((exists k, k ∈ names /\ k ∉ labels pot_esp) ->
   exists k, first_lacking names pot_esp S k /\
             r = Err (KeyError (msg_pot_esp k))) /\
  ((forall k, k ∈ names -> k ∈ labels S) ->
   (exists k, k ∈ names /\ k ∉ labels pot_esp) ->
   exists i k, names !! i = Some k /\ (k ∉ labels pot_esp) /\
     (forall j k', (j < i)%nat -> names !! j = Some k' ->
        k' ∈ labels pot_esp) /\
     r = Err (KeyError (msg_pot_esp k))) /\
  ((exists d, r = Ok d) <->
   forall k, k ∈ names -> k ∈ labels pot_esp /\ k ∈ labels S).

(** ** Reference notions for the Jacobian (section 4.3 of the specification) *)

(** The value of a vector at a bus (zero when the bus has no entry). *)
Definition val (s : Series) (k : string) : R :=
  match series_get s k with
  | Ok v => v
  | Err _ => 0
  end.

(** The value of a matrix at a pair of buses. *)
Definition val2 (df : DataFrame R) (k m : string) : R :=
  match df_loc 0 df k m with
  | Ok v => v
  | Err _ => 0
  end.

(** ** Reference notions for the power balance (section 4.2 of the
    specification) *)

(** The term of the pair [(k, m)] in [P[k]] and in [Q[k]]. *)
Definition P_term (G B : DataFrame R) (V theta : Series) (k m : string) : R :=
  val V k * val V m *
  (val2 G k m * cos (val theta k - val theta m) +
   val2 B k m * sin (val theta k - val theta m)).

Definition Q_term (G B : DataFrame R) (V theta : Series) (k m : string) : R :=
  val V k * val V m *
  (val2 G k m * sin (val theta k - val theta m) -
   val2 B k m * cos (val theta k - val theta m)).

(** The injections at bus [k]: the terms of all buses [m], summed from 0 in
    the order of [V]; the matrix is read by label. *)
Definition P_inj (Ybus : DataFrame C) (V theta : Series) (k : string) : R :=
  foldl (fun acc m => acc + P_term (df_map re Ybus) (df_map im Ybus) V theta k m)
        0 (labels V).

Definition Q_inj (Ybus : DataFrame C) (V theta : Series) (k : string) : R :=
  foldl (fun acc m => acc + Q_term (df_map re Ybus) (df_map im Ybus) V theta k m)
        0 (labels V).

Section JacobianRef.
Variables (V theta : Series) (G B : DataFrame R) (P Q : Series).
Variable swing : list string.

Definition theta_km (k m : string) : R := val theta k - val theta m.

(** Either bus of the pair is a swing bus. *)
Definition swing_pair (k m : string) : Prop := k ∈ swing \/ m ∈ swing.

Definition H_ref (k m : string) : R :=
  if decide (swing_pair k m) then (if decide (k = m) then BIG_NUMBER else 0)
  else if decide (k = m) then - val Q k - (val V k) ^ 2 * val2 B k k
  else val V k * val V m *
       (val2 G k m * sin (theta_km k m) - val2 B k m * cos (theta_km k m)).

Definition N_ref (k m : string) : R :=
  if decide (swing_pair k m) then 0
  else if decide (k = m) then (val P k + (val V k) ^ 2 * val2 G k k) / val V k
  else val V k *
       (val2 G k m * cos (theta_km k m) + val2 B k m * sin (theta_km k m)).

Definition M_ref (k m : string) : R :=
  if decide (swing_pair k m) then 0
  else if decide (k = m) then val P k - (val V k) ^ 2 * val2 G k k
  else - val V k * val V m *
       (val2 G k m * cos (theta_km k m) + val2 B k m * sin (theta_km k m)).

Definition L_ref (k m : string) : R :=
  if decide (swing_pair k m) then (if decide (k = m) then BIG_NUMBER else 0)
  else if decide (k = m) then (val Q k - (val V k) ^ 2 * val2 B k k) / val V k
  else val V k *
       (val2 G k m * sin (theta_km k m) - val2 B k m * cos (theta_km k m)).

(** A bus for which every lookup of the builder succeeds. *)
Definition covered (k : string) : Prop :=
  k ∈ labels V /\ k ∈ labels theta /\ k ∈ labels P /\ k ∈ labels Q /\
  k ∈ df_index G /\ k ∈ df_index B.
End JacobianRef.

(** A block [A] with rows labelled [rows] and columns labelled [cols] whose
    entries are given by [ref] on the pair of labels. *)
Definition block_of (rows cols : list string) (ref : string -> string -> R)
    (A : list (list R)) : Prop :=
  shape (length rows) (length cols) A /\
  forall i j k m, rows !! i = Some k -> cols !! j = Some m ->
    mat_get 0 A i j = ref k m.

(** The blocks of the specification for a given state and partition. *)
Definition Jacobian_blocks (V theta : Series) (G B : DataFrame R) (P Q : Series)
    (pq swing index : list string) : Prop :=
  exists H N M L,
    _build_H V theta G B Q swing index = Ok H /\
    _build_N V theta G B P pq swing index = Ok N /\
    _build_M V theta G B P pq swing index = Ok M /\
    _build_L V theta G B Q pq swing = Ok L /\
    _build V theta G B P Q pq swing index
      = Ok (vstack (hstack H N) (hstack M L)) /\
    block_of index index (H_ref V theta G B Q swing) H /\
    block_of index (swing ++ pq) (N_ref V theta G B P swing) N /\
    block_of (swing ++ pq) index (M_ref V theta G B P swing) M /\
    block_of (swing ++ pq) (swing ++ pq) (L_ref V theta G B Q swing) L /\
    shape (length index + length (swing ++ pq))
          (length index + length (swing ++ pq))
          (vstack (hstack H N) (hstack M L)).

(** ** Sample networks *)

Definition busA : Bus := mkBus 1 "SWING" "A" 1 0 [] [] [].
Definition busB : Bus := mkBus 2 "PQ" "B" 1 0 [] [] [].

(** A line and a transformer between A and B with [z = j], switched off. *)
Definition line_off : Line := mkLine "A" "B" 0 1 0 1 "" false.
Definition trafo_off : Transformer := mkTransformer "A" "B" "" 0 1 0 1 0 false.

(** A transformer between A and B with [z = j], unit tap and a phase shift of
    [PI] radians. *)
Definition trafo_pi : Transformer := mkTransformer "A" "B" "" 0 1 0 1 PI true.

(** A three-bus state: A is the swing bus, B a PV bus, C a PQ bus. *)
Definition theta_ABC : Series := [("A", 0); ("B", 0); ("C", 0)].
Definition V_ABC : Series := [("A", 1); ("B", 1); ("C", 1)].

(** Computed injections and a specified-power table over A, B, C. *)
Definition P_ABC : Series := [("A", 2); ("B", 3); ("C", 4)].
Definition Q_ABC : Series := [("A", 5); ("B", 6); ("C", 7)].
Definition pot_esp_ABC : PotEsp := [("A", (0, 0)); ("B", (1, 0)); ("C", (-1, -1))].
(** The same table without bus C. *)
Definition pot_esp_AB : PotEsp := [("A", (0, 0)); ("B", (1, 0))].

(** An admittance matrix labelled A, B (one line with [z = j]) and a state
    whose vectors list the same buses as B, A. *)
Definition Ybus_AB : DataFrame C :=
  mkDataFrame ["A"; "B"]
    [ [mkC 0 (-1); mkC 0 1];
      [mkC 0 1; mkC 0 (-1)] ].
Definition V_BA : Series := [("B", 1); ("A", 1)].
Definition theta_BA : Series := [("B", 0); ("A", 0)].

(** A two-bus case: swing bus A, load bus B drawing 1 pu over a line with
    [z = j], flat start. *)

Definition V_AB : Series := [("A", 1); ("B", 1)].
Definition theta_AB : Series := [("A", 0); ("B", 0)].
Definition zero_AB : Series := [("A", 0); ("B", 0)].
Definition pot_esp_load : PotEsp := [("A", (0, 0)); ("B", (-1, 0))].

Definition nr_AB : NewtonRaphson :=
  mkNewtonRaphson V_AB theta_AB Ybus_AB pot_esp_load
    (1 / 1000000) 1 ["B"] [] ["A"] ["A"; "B"].

Definition eye4 : list (list R) :=
  [ [1; 0; 0; 0]; [0; 1; 0; 0]; [0; 0; 1; 0]; [0; 0; 0; 1] ].

(** A linear solver that returns [guess] when it solves the system, and gives
    up otherwise. *)
Definition solve_by_check (guess : list R) (J : list (list R)) (b : list R)
  : result (list R) :=
  if decide (length guess = length J /\ mat_vec J guess = b)
  then Ok guess else Err LinAlgError.


(** A line from A to a bus Z that is not in the bus list. *)
Definition line_dangling : Line := mkLine "A" "Z" 0 1 0 1 "" true.


(** The two-bus case with nothing specified at either bus: the flat start
    balances it. *)
Definition pot_esp_zero : PotEsp := [("A", (0, 0)); ("B", (0, 0))].

Definition nr_AB_balanced : NewtonRaphson :=
  mkNewtonRaphson V_AB theta_AB Ybus_AB pot_esp_zero
    (1 / 1000000) 3 ["B"] [] ["A"] ["A"; "B"].

(** The two-bus case with B a voltage-controlled bus. *)
Definition nr_AB_pv : NewtonRaphson :=
  mkNewtonRaphson V_AB theta_AB Ybus_AB pot_esp_load
    (1 / 1000000) 1 [] ["B"] ["A"] ["A"; "B"].

Definition eye3 : list (list R) := [ [1; 0; 0]; [0; 1; 0]; [0; 0; 1] ].


(** ** models/bus.py: the net specified powers of a bus *)

Definition p_esp (b : Bus) : R :=
  let pg_total := py_sum gen_p (bus_geradores b) in
  let pl_total := py_sum load_p (bus_cargas b) in
  pg_total - pl_total.

Definition q_esp (b : Bus) : R :=
  let qg_total := py_sum gen_q (bus_geradores b) in
  let ql_total := py_sum load_q (bus_cargas b) in
  qg_total - ql_total.

(** Bus B with a generator of 3 + 1j pu and a load of 1 + 2j pu. *)
Definition busB_gen : Bus :=
  mkBus 2 "PV" "B" 1 0 [mkGenerator "B" 3 1 0 0] [mkLoad "B" 1 2] [].


(** The system of the buses A (swing) and B (voltage-controlled), without
    branches. *)
Definition sis_AB_gen : Sistema :=
  mkSistema [busA; busB_gen] [] [] []
    (mkDataFrame ["A"; "B"] (zeros C0 2 2)) (make_row <$> [busA; busB_gen]).

(** * Properties *)

Global Arguments Cadd : simpl never.
Global Arguments Copp : simpl never.
Global Arguments Cmul : simpl never.
Global Arguments Cconj : simpl never.
Global Arguments Cdiv : simpl never.
Global Arguments Cexp : simpl never.
Global Arguments RtoC : simpl never.
Global Arguments y_series : simpl never.
Global Arguments deg2rad : simpl never.

(** ** The error monad *)

Lemma bind_Ok {A B} (r : result A) (k : A -> result B) (b : B) :
  r ≫= k = Ok b <-> exists a, r = Ok a /\ k a = Ok b.
Proof.
  destruct r as [a|e]; simpl; split.
  - eauto.
  - by intros (a' & [= <-] & ?).
  - done.
  - by intros (? & ? & ?).
Qed.

Lemma foldM_app {A B} (f : A -> B -> result A) (a : A) (l1 l2 : list B) :
  foldM f a (l1 ++ l2) = foldM f a l1 ≫= fun a' => foldM f a' l2.
Proof.
  revert a. induction l1 as [|b l1 IH]; intros a; simpl; [done|].
  destruct (f a b) as [a'|e]; simpl; [apply IH|done].
Qed.

Lemma traverse_Ok {A B} (f : A -> result B) (l : list A) (bs : list B) :
  traverse f l = Ok bs <-> Forall2 (fun a b => f a = Ok b) l bs.
Proof.
  revert bs. induction l as [|a l IH]; intros bs; simpl.
  - split; [intros [= <-]; constructor | by inversion 1].
  - split.
    + intros (b & Hb & (bs' & Hbs & [= <-])%bind_Ok)%bind_Ok.
      constructor; [done|by apply IH].
    + inversion 1 as [|? b ? bs' Hb Hbs]; subst.
      apply IH in Hbs. by rewrite Hb, Hbs.
Qed.

Lemma traverse_total {A B} (f : A -> result B) (l : list A) :
  Forall (fun a => exists b, f a = Ok b) l -> exists bs, traverse f l = Ok bs.
Proof.
  induction 1 as [|a l [b Hb] _ [bs Hbs]]; simpl; [by eexists|].
  rewrite Hb, Hbs. by eexists.
Qed.

Lemma traverse_Err {A B} (f : A -> result B) (l : list A) (e : exn) :
  traverse f l = Err e -> exists a, a ∈ l /\ f a = Err e.
Proof.
  induction l as [|a l IH]; simpl; [done|].
  destruct (f a) as [b|e'] eqn:Hfa; simpl.
  - destruct (traverse f l) as [bs|e'']; simpl; [done|].
    intros [= ->]. destruct IH as (a' & ? & ?); [done|].
    exists a'. split; [by right|done].
  - intros [= ->]. exists a. split; [by left|done].
Qed.

(** ** Dense matrices *)

Lemma shape_zeros {A} (z : A) (n m : nat) : shape n m (zeros z n m).
Proof.
  split; [apply length_replicate|].
  apply Forall_replicate, length_replicate.
Qed.

Lemma mat_get_zeros {A} (z : A) (n m i j : nat) : mat_get z (zeros z n m) i j = z.
Proof.
  unfold mat_get, zeros.
  destruct (replicate n (replicate m z) !! i) as [row|] eqn:Hrow; simpl; [|done].
  apply lookup_replicate in Hrow as [-> _].
  destruct (replicate m z !! j) as [c|] eqn:Hc; simpl; [|done].
  by apply lookup_replicate in Hc as [-> _].
Qed.

Lemma shape_alter {A} (f : list A -> list A) (n m i : nat) (M : list (list A)) :
  (forall row, length (f row) = length row) ->
  shape n m M -> shape n m (alter f i M).
Proof.
  intros Hf [Hn Hm]. split; [by rewrite length_alter|].
  apply Forall_forall. intros row Hrow.
  apply list_elem_of_lookup in Hrow as [i' Hi'].
  rewrite list_lookup_alter in Hi'.
  destruct (decide (i = i')) as [->|].
  - destruct (M !! i') as [row'|] eqn:Hrow'; simplify_eq/=.
    rewrite Hf. rewrite Forall_forall in Hm.
    apply Hm. by eapply list_elem_of_lookup_2.
  - rewrite Forall_forall in Hm. apply Hm. by eapply list_elem_of_lookup_2.
Qed.

Lemma shape_mat_add (n m i j : nat) (y : C) (M : list (list C)) :
  shape n m M -> shape n m (mat_add i j y M).
Proof. apply shape_alter. intros row. apply length_alter. Qed.

Lemma shape_mat_set {A} (n m i j : nat) (v : A) (M : list (list A)) :
  shape n m M -> shape n m (mat_set i j v M).
Proof. apply shape_alter. intros row. apply length_insert. Qed.

Lemma shape_lookup {A} (n m i j : nat) (M : list (list A)) :
  shape n m M -> (i < n)%nat -> (j < m)%nat ->
  exists row c, M !! i = Some row /\ row !! j = Some c.
Proof.
  intros [Hn Hm] Hi Hj.
  destruct (lookup_lt_is_Some_2 M i) as [row Hrow]; [lia|].
  rewrite Forall_forall in Hm.
  assert (length row = m) as Hlen by (apply Hm; by eapply list_elem_of_lookup_2).
  destruct (lookup_lt_is_Some_2 row j) as [c Hc]; [lia|].
  eauto.
Qed.

Lemma mat_get_mat_add_ne (i j i' j' : nat) (y : C) (M : list (list C)) :
  (i, j) ≠ (i', j') ->
  mat_get C0 (mat_add i j y M) i' j' = mat_get C0 M i' j'.
Proof.
  intros Hne. unfold mat_get, mat_add.
  rewrite list_lookup_alter.
  destruct (decide (i = i')) as [->|]; [|done].
  destruct (M !! i') as [row|]; simpl; [|done].
  rewrite list_lookup_alter_ne; [done|congruence].
Qed.

Lemma mat_get_mat_add_eq (n m i j : nat) (y : C) (M : list (list C)) :
  shape n m M -> (i < n)%nat -> (j < m)%nat ->
  mat_get C0 (mat_add i j y M) i j = Cadd (mat_get C0 M i j) y.
Proof.
  intros HM Hi Hj.
  destruct (shape_lookup n m i j M) as (row & c & Hrow & Hc); [done..|].
  unfold mat_get, mat_add.
  rewrite list_lookup_alter_eq, Hrow. simpl.
  by rewrite list_lookup_alter_eq, Hc.
Qed.

Lemma mat_get_mat_set_ne {A} (d : A) (i j i' j' : nat) (v : A) (M : list (list A)) :
  (i, j) ≠ (i', j') ->
  mat_get d (mat_set i j v M) i' j' = mat_get d M i' j'.
Proof.
  intros Hne. unfold mat_get, mat_set.
  rewrite list_lookup_alter.
  destruct (decide (i = i')) as [->|]; [|done].
  destruct (M !! i') as [row|]; simpl; [|done].
  rewrite list_lookup_insert_ne; [done|congruence].
Qed.

Lemma mat_get_mat_set_eq {A} (d : A) (n m i j : nat) (v : A) (M : list (list A)) :
  shape n m M -> (i < n)%nat -> (j < m)%nat ->
  mat_get d (mat_set i j v M) i j = v.
Proof.
  intros HM Hi Hj.
  destruct (shape_lookup n m i j M) as (row & c & Hrow & Hc); [done..|].
  unfold mat_get, mat_set.
  rewrite list_lookup_alter_eq, Hrow. simpl.
  rewrite list_lookup_insert_eq; [done|].
  by eapply lookup_lt_Some.
Qed.

(** ** ybus.py: labels and the bus-name dictionary *)

Lemma sorted_names_elem_of (barras : list Bus) (k : string) :
  k ∈ sorted_names barras <-> exists b, b ∈ barras /\ bus_nome b = k.
Proof.
  unfold sorted_names. rewrite merge_sort_Permutation.
  rewrite elem_of_elements, elem_of_list_to_set, list_elem_of_fmap.
  split; intros (b & ? & ?); exists b; by split.
Qed.

Lemma sorted_names_NoDup (barras : list Bus) : NoDup (sorted_names barras).
Proof.
  unfold sorted_names. rewrite merge_sort_Permutation. apply NoDup_elements.
Qed.

Lemma sorted_names_Sorted (barras : list Bus) :
  Sorted String.le (sorted_names barras).
Proof. apply (Sorted_merge_sort String.le). Qed.

Lemma make_barra_map_snoc (l : list string) (k : string) :
  make_barra_map (l ++ [k]) = <[k := length l]> (make_barra_map l).
Proof.
  unfold make_barra_map, enumerate.
  rewrite imap_app, foldl_app. simpl. by rewrite Nat.add_0_r.
Qed.

Lemma make_barra_map_lookup (l : list string) (k : string) (i : nat) :
  NoDup l -> make_barra_map l !! k = Some i <-> l !! i = Some k.
Proof.
  induction l as [|x l IH] using rev_ind; intros Hnd.
  - unfold make_barra_map. simpl. by rewrite lookup_empty.
  - apply NoDup_app in Hnd as (Hnd & Hx & _).
    rewrite make_barra_map_snoc, lookup_snoc_Some.
    destruct (decide (x = k)) as [->|Hne].
    + rewrite lookup_insert_eq. split.
      * intros [= <-]. by right.
      * intros [[_ Hi]|[-> _]]; [|done].
        exfalso. eapply Hx; [by eapply list_elem_of_lookup_2|]. by left.
    + rewrite lookup_insert_ne by done. rewrite IH by done. split.
      * intros Hi. left. split; [by eapply lookup_lt_Some|done].
      * by intros [[_ Hi]|[_ ?]].
Qed.

Lemma make_barra_map_size (l : list string) :
  NoDup l -> size (make_barra_map l) = length l.
Proof.
  induction l as [|x l IH] using rev_ind; intros Hnd.
  - done.
  - apply NoDup_app in Hnd as (Hnd & Hx & _).
    rewrite make_barra_map_snoc, length_app. simpl.
    rewrite map_size_insert_None.
    + rewrite IH by done. lia.
    + destruct (make_barra_map l !! x) as [i|] eqn:Hi; [|done].
      apply make_barra_map_lookup in Hi; [|done].
      exfalso. eapply Hx; [by eapply list_elem_of_lookup_2|]. by left.
Qed.

Lemma make_barra_map_None (l : list string) (k : string) :
  NoDup l -> make_barra_map l !! k = None <-> k ∉ l.
Proof.
  intros Hnd. split.
  - intros Hnone [i Hi]%list_elem_of_lookup.
    apply make_barra_map_lookup in Hi; [|done]. congruence.
  - intros Hk. destruct (make_barra_map l !! k) as [i|] eqn:Hi; [|done].
    apply make_barra_map_lookup in Hi; [|done].
    exfalso. apply Hk. by eapply list_elem_of_lookup_2.
Qed.

(** ** ybus.py: accumulation of contributions *)

Lemma shape_add_terms (n m : nat) (terms : list (nat * nat * C)) (M : list (list C)) :
  shape n m M -> shape n m (add_terms M terms).
Proof.
  revert M. induction terms as [|t terms IH]; intros M HM; [done|].
  apply IH. by apply shape_mat_add.
Qed.

Lemma add_terms_app (M : list (list C)) (t1 t2 : list (nat * nat * C)) :
  add_terms M (t1 ++ t2) = add_terms (add_terms M t1) t2.
Proof. apply foldl_app. Qed.

Lemma mat_get_add_terms (n m i j : nat) (terms : list (nat * nat * C))
    (M : list (list C)) :
  shape n m M -> (i < n)%nat -> (j < m)%nat ->
  mat_get C0 (add_terms M terms) i j = sum_at i j terms (mat_get C0 M i j).
Proof.
  intros HM Hi Hj. revert M HM.
  induction terms as [|[[i' j'] y] terms IH]; intros M HM; [done|].
  unfold add_terms, sum_at. simpl.
  fold (add_terms (mat_add i' j' y M) terms).
  rewrite IH by (by apply shape_mat_add). unfold sum_at. f_equal.
  destruct (decide ((i', j') = (i, j))) as [[= -> ->]|Hne].
  - by eapply mat_get_mat_add_eq.
  - by apply mat_get_mat_add_ne.
Qed.

Lemma sum_at_untouched (i j : nat) (terms : list (nat * nat * C)) (base : C) :
  (forall y, (i, j, y) ∉ terms) -> sum_at i j terms base = base.
Proof.
  revert base. induction terms as [|[[i' j'] y] terms IH]; intros base Hno; [done|].
  unfold sum_at. simpl. destruct (decide ((i', j') = (i, j))) as [[= -> ->]|Hne].
  - exfalso. apply (Hno y). by left.
  - apply IH. intros y' Hy'. apply (Hno y'). by right.
Qed.

Lemma foldM_add_terms {A} (f : A -> result (list (nat * nat * C)))
    (M : list (list C)) (l : list A) :
  foldM (fun M x => terms ← f x; Ok (add_terms M terms)) M l =
  ts ← traverse f l; Ok (add_terms M (concat ts)).
Proof.
  revert M. induction l as [|x l IH]; intros M; simpl; [done|].
  destruct (f x) as [terms|e]; simpl; [|done].
  rewrite IH. destruct (traverse f l) as [ts|e]; simpl; [|done].
  by rewrite add_terms_app.
Qed.

Lemma foldl_add_shunt (barra_map : gmap string nat) (M : list (list C))
    (shunts : list Shunt) :
  foldl (add_shunt barra_map) M shunts = add_terms M (shunt_terms barra_map shunts).
Proof.
  revert M. induction shunts as [|sh shunts IH]; intros M; [done|].
  simpl. rewrite IH. unfold shunt_terms at 2. simpl.
  fold (shunt_terms barra_map shunts).
  rewrite add_terms_app. f_equal. unfold add_shunt.
  destruct (shunt_status sh); [|done].
  by destruct (barra_map !! shunt_barra sh).
Qed.

(** The construction is the accumulation of its list of contributions over a
    zero matrix labelled by the sorted distinct names. *)
Lemma Ybus_unfold linhas transformadores barras shunts :
  Ybus linhas transformadores barras shunts =
  terms ← Ybus_terms linhas transformadores barras shunts;
  let nb := length (sorted_names barras) in
  Ok (mkDataFrame (sorted_names barras) (add_terms (zeros C0 nb nb) terms)).
Proof.
  unfold Ybus, Ybus_terms.
  rewrite make_barra_map_size by apply sorted_names_NoDup.
  rewrite foldM_add_terms.
  destruct (traverse _ linhas) as [lt|e]; simpl; [|done].
  rewrite foldM_add_terms.
  destruct (traverse _ transformadores) as [tt|e]; simpl; [|done].
  by rewrite foldl_add_shunt, !add_terms_app.
Qed.

Lemma dict_get_barra_map (nomes : list string) (k : string) :
  NoDup nomes -> k ∈ nomes ->
  exists i, dict_get (make_barra_map nomes) k = Ok i /\ nomes !! i = Some k.
Proof.
  intros Hnd [i Hi]%list_elem_of_lookup. exists i. split; [|done].
  unfold dict_get. apply make_barra_map_lookup in Hi; [|done]. by rewrite Hi.
Qed.

Lemma py_cdiv_Ok (a b : C) : b ≠ C0 -> py_cdiv a b = Ok (Cdiv a b).
Proof. intros Hb. unfold py_cdiv. by destruct (decide (b = C0)). Qed.

Lemma _admitancia_linha_total (nomes : list string) (l : Line) :
  NoDup nomes -> line_ok nomes l ->
  exists terms, _admitancia_linha l (make_barra_map nomes) = Ok terms.
Proof.
  intros Hnd (Hde & Hpara & Hz). unfold _admitancia_linha.
  destruct (dict_get_barra_map nomes (line_de l)) as (i & -> & _); [done..|].
  destruct (dict_get_barra_map nomes (line_para l)) as (j & -> & _); [done..|].
  simpl. rewrite py_cdiv_Ok by done. simpl. by eexists.
Qed.

Lemma _admitancia_transformador_total (nomes : list string) (t : Transformer) :
  NoDup nomes -> trafo_ok nomes t ->
  exists terms, _admitancia_transformador t (make_barra_map nomes) = Ok terms.
Proof.
  intros Hnd (Hde & Hpara & Hz). unfold _admitancia_transformador.
  destruct (dict_get_barra_map nomes (trafo_de t)) as (i & -> & _); [done..|].
  destruct (dict_get_barra_map nomes (trafo_para t)) as (j & -> & _); [done..|].
  simpl. rewrite py_cdiv_Ok by done. simpl. by eexists.
Qed.

Lemma Ybus_terms_total linhas transformadores barras shunts :
  Forall (line_ok (sorted_names barras)) linhas ->
  Forall (trafo_ok (sorted_names barras)) transformadores ->
  exists terms, Ybus_terms linhas transformadores barras shunts = Ok terms.
Proof.
  intros Hl Ht. unfold Ybus_terms.
  pose proof (sorted_names_NoDup barras) as Hnd.
  destruct (traverse_total
    (fun linha => _admitancia_linha linha (make_barra_map (sorted_names barras)))
    linhas) as [lt ->].
  { eapply Forall_impl; [exact Hl|]. intros l ?.
    by apply _admitancia_linha_total. }
  destruct (traverse_total
    (fun trafo => _admitancia_transformador trafo (make_barra_map (sorted_names barras)))
    transformadores) as [tt ->].
  { eapply Forall_impl; [exact Ht|]. intros t ?.
    by apply _admitancia_transformador_total. }
  simpl. by eexists.
Qed.

(** C10. Whatever the order of the bus list and however often a name is
    repeated in it, the labels of the admittance matrix are the bus names
    sorted lexicographically (by character code), each once; the matrix is
    square of that size; and a position on which no line, transformer or shunt
    contribution lands holds exactly zero.  The construction raises only when
    some line or transformer names an unknown bus or has zero series
    impedance. *)
Theorem Ybus_labels_sorted_distinct linhas transformadores barras shunts :
  let nomes := sorted_names barras in
  (Sorted String.le nomes /\ NoDup nomes /\
   forall k, k ∈ nomes <-> exists b, b ∈ barras /\ bus_nome b = k) /\
  match Ybus linhas transformadores barras shunts with
  | Ok Y =>
      df_index Y = nomes /\
      shape (length nomes) (length nomes) (df_values Y) /\
      exists terms,
        Ybus_terms linhas transformadores barras shunts = Ok terms /\
        forall i j, (i < length nomes)%nat -> (j < length nomes)%nat ->
          (forall y, (i, j, y) ∉ terms) ->
          mat_get C0 (df_values Y) i j = C0
  | Err _ =>
      ~ (Forall (line_ok nomes) linhas /\ Forall (trafo_ok nomes) transformadores)
  end.
Proof.
  intros nomes. split.
  { split; [apply sorted_names_Sorted|].
    split; [apply sorted_names_NoDup|apply sorted_names_elem_of]. }
  rewrite Ybus_unfold.
  destruct (Ybus_terms linhas transformadores barras shunts) as [terms|e] eqn:Hterms;
    simpl.
  - split; [done|]. split; [apply shape_add_terms, shape_zeros|].
    exists terms. split; [done|]. intros i j Hi Hj Hno.
    erewrite mat_get_add_terms by (try apply shape_zeros; done).
    rewrite mat_get_zeros. by apply sum_at_untouched.
  - intros [Hl Ht].
    destruct (Ybus_terms_total linhas transformadores barras shunts) as [? ?];
      [done..|congruence].
Qed.

(** ** ybus.py: elements that are switched off *)

Lemma sorted_names_AB : sorted_names [busA; busB] = ["A"; "B"].
Proof. by vm_compute. Qed.

Lemma barra_map_AB_A : make_barra_map ["A"; "B"] !! "A" = Some 0%nat.
Proof. by vm_compute. Qed.

Lemma barra_map_AB_B : make_barra_map ["A"; "B"] !! "B" = Some 1%nat.
Proof. by vm_compute. Qed.

Lemma Cj_nonzero : mkC 0 1 ≠ C0.
Proof. intros [= H]. lra. Qed.

(** With [z = j] and unit tap, [-y/a] for [a = e^(j phi)]. *)
Lemma Ytf_unit_tap (phi : R) :
  Cdiv (Copp (y_series 0 1)) (Cmul (RtoC 1) (Cexp (Cmul Cj (RtoC phi))))
  = mkC (sin phi) (cos phi).
Proof.
  unfold Cdiv, Copp, y_series, Cdiv, Cmul, Cexp, Cnorm2, RtoC, Cj.
  simpl. replace (0 * phi - 1 * 0) with 0 by ring. rewrite exp_0.
  replace (0 * 0 + 1 * phi) with phi by ring.
  pose proof (sin2_cos2 phi) as Hsc. unfold Rsqr in Hsc.
  set (c := cos phi) in *. set (s := sin phi) in *.
  replace ((1 * (1 * c) - 0 * (1 * s)) * (1 * (1 * c) - 0 * (1 * s)) +
           (1 * (1 * s) + 0 * (1 * c)) * (1 * (1 * s) + 0 * (1 * c)))
    with 1 by nra.
  f_equal; field.
Qed.

(** C1 fails on the code.  A line A-B with [status = False] still stamps its
    admittance: the entry [Ybus[A][B]] is [-1/j = j], whereas the matrix built
    from the in-service elements alone (none) has zero there.  A transformer
    with [status = False] is stamped likewise: [Ybus[B][A]] is [j]. *)
Theorem Ybus_off_elements_contribute :
  exists Y Yt Y',
    line_status line_off = false /\
    trafo_status trafo_off = false /\
    Ybus [line_off] [] [busA; busB] [] = Ok Y /\
    Ybus [] [trafo_off] [busA; busB] [] = Ok Yt /\
    Ybus (filter (fun l => line_status l = true) [line_off])
         (filter (fun t => trafo_status t = true) [trafo_off])
         [busA; busB] [] = Ok Y' /\
    mat_get C0 (df_values Y) 0 1 = mkC 0 1 /\
    mat_get C0 (df_values Yt) 1 0 = mkC 0 1 /\
    mat_get C0 (df_values Y') 0 1 = C0 /\
    mat_get C0 (df_values Y') 1 0 = C0.
Proof.
  do 3 eexists. split; [done|]. split; [done|].
  rewrite !Ybus_unfold. unfold Ybus_terms.
  rewrite sorted_names_AB. simpl.
  unfold _admitancia_linha, _admitancia_transformador, dict_get.
  simpl line_de. simpl line_para. simpl trafo_de. simpl trafo_para.
  rewrite barra_map_AB_A, barra_map_AB_B. simpl.
  rewrite py_cdiv_Ok by apply Cj_nonzero. simpl.
  split; [reflexivity|]. split; [reflexivity|]. split; [reflexivity|].
  split; [|split; [|done]].
  - unfold mat_get. simpl. unfold Cadd, Copp, Cdiv, Cnorm2, C0, RtoC. simpl.
    f_equal; field.
  - unfold mat_get. simpl.
    change (Cdiv (RtoC 1) (mkC 0 1)) with (y_series 0 1).
    rewrite Ytf_unit_tap. unfold deg2rad.
    replace (0 * (PI / 180)) with 0 by lra. rewrite sin_0, cos_0.
    unfold Cadd, C0. simpl. f_equal; lra.
Qed.

(** ** ybus.py: the transformer model *)

(** What the code computes: the four contributions of the specification, but
    for the phase attribute read in degrees. *)
Lemma _admitancia_transformador_degrees (t : Transformer)
    (barra_map : gmap string nat) (i j : nat) :
  barra_map !! trafo_de t = Some i ->
  barra_map !! trafo_para t = Some j ->
  mkC (trafo_r t) (trafo_x t) ≠ C0 ->
  _admitancia_transformador t barra_map
    = Ok (trafo_terms_spec i j (degrees_to_radians t)).
Proof.
  intros Hi Hj Hz. unfold _admitancia_transformador, dict_get.
  rewrite Hi, Hj. simpl. by rewrite py_cdiv_Ok.
Qed.

Lemma sin_deg2rad_PI_pos : 0 < sin (deg2rad PI).
Proof.
  pose proof PI_RGT_0. pose proof PI_4.
  unfold deg2rad. apply sin_gt_0; nra.
Qed.

(** C4 fails on the code.  For the transformer [trafo_pi] (phase attribute
    [PI], documented as radians) the specification gives [a = e^(j PI) = -1]
    and [Y_tf = -y/a = -j]; the code converts the attribute with [deg2rad]
    first, so its [Y_tf] is [sin(PI^2/180) + j cos(PI^2/180)], whose real part
    is positive. *)
Theorem transformer_phase_taken_as_degrees :
  exists Yff Yft Ytf Ytt,
    _admitancia_transformador trafo_pi (make_barra_map ["A"; "B"])
      = Ok [ (0%nat, 0%nat, Yff); (0%nat, 1%nat, Yft);
             (1%nat, 0%nat, Ytf); (1%nat, 1%nat, Ytt) ] /\
    Ytf = mkC (sin (deg2rad PI)) (cos (deg2rad PI)) /\
    trafo_terms_spec 0 1 trafo_pi !! 2%nat = Some (1%nat, 0%nat, mkC 0 (-1)) /\
    Ytf ≠ mkC 0 (-1).
Proof.
  do 4 eexists. split.
  { erewrite _admitancia_transformador_degrees;
      [reflexivity|apply barra_map_AB_A|apply barra_map_AB_B|apply Cj_nonzero]. }
  pose proof Ytf_unit_tap as Hdiv.
  split; [apply Hdiv|]. split.
  - change (Some (1%nat, 0%nat,
      Cdiv (Copp (y_series 0 1)) (Cmul (RtoC 1) (Cexp (Cmul Cj (RtoC PI)))))
      = Some (1%nat, 0%nat, mkC 0 (-1))).
    by rewrite Hdiv, sin_PI, cos_PI.
  - change (Cdiv (Copp (y_series 0 1))
              (Cmul (RtoC 1) (Cexp (Cmul Cj (RtoC (deg2rad PI)))))
            ≠ mkC 0 (-1)).
    rewrite Hdiv. intros [= Hsin _].
    pose proof sin_deg2rad_PI_pos. lra.
Qed.

(** ** Series *)

Lemma series_get_Ok_elem {A} (s : list (string * A)) (k : string) (v : A) :
  series_get s k = Ok v -> k ∈ labels s.
Proof.
  induction s as [|[k' v'] s IH]; simpl; [done|].
  destruct (decide (k' = k)) as [->|]; [by left|right; auto].
Qed.

Lemma series_get_elem {A} (s : list (string * A)) (k : string) :
  k ∈ labels s -> exists v, series_get s k = Ok v.
Proof.
  induction s as [|[k' v'] s IH]; simpl; [by inversion 1|].
  destruct (decide (k' = k)) as [->|Hne]; [by eexists|].
  intros [?|?]%elem_of_cons; [congruence|auto].
Qed.

Lemma series_get_not_elem {A} (s : list (string * A)) (k : string) :
  k ∉ labels s -> series_get s k = Err (KeyError k).
Proof.
  induction s as [|[k' v'] s IH]; simpl; [done|].
  intros Hk. destruct (decide (k' = k)) as [->|Hne].
  - exfalso. apply Hk. by left.
  - apply IH. intros ?. apply Hk. by right.
Qed.

Lemma series_get_app_l {A} (s1 s2 : list (string * A)) (k : string) :
  k ∈ labels s1 -> series_get (s1 ++ s2) k = series_get s1 k.
Proof.
  induction s1 as [|[k' v'] s1 IH]; simpl; [by inversion 1|].
  destruct (decide (k' = k)) as [->|Hne]; [done|].
  intros [?|?]%elem_of_cons; [congruence|auto].
Qed.

Lemma series_get_app_r {A} (s1 s2 : list (string * A)) (k : string) :
  k ∉ labels s1 -> series_get (s1 ++ s2) k = series_get s2 k.
Proof.
  induction s1 as [|[k' v'] s1 IH]; simpl; [done|].
  intros Hk. destruct (decide (k' = k)) as [->|Hne].
  - exfalso. apply Hk. by left.
  - apply IH. intros ?. apply Hk. by right.
Qed.

Lemma labels_series_set (s : Series) (k : string) (v : R) :
  k ∈ labels s -> labels (series_set s k v) = labels s.
Proof.
  intros Hk. unfold series_set. destruct (decide (k ∈ labels s)); [|done].
  unfold labels. rewrite <- list_fmap_compose. apply list_fmap_ext.
  intros i [k' v'] _. simpl. by destruct (decide (k' = k)) as [->|].
Qed.

Lemma series_get_set_eq (s : Series) (k : string) (v : R) :
  series_get (series_set s k v) k = Ok v.
Proof.
  unfold series_set. destruct (decide (k ∈ labels s)) as [Hk|Hk].
  - induction s as [|[k' v'] s IH]; simpl; [by inversion Hk|].
    destruct (decide (k' = k)) as [->|Hne]; simpl.
    + by rewrite decide_True.
    + rewrite decide_False by done. apply IH.
      apply elem_of_cons in Hk as [Hk|Hk]; [simpl in Hk; congruence|done].
  - rewrite series_get_app_r by done. simpl. by rewrite decide_True.
Qed.

Lemma series_get_set_ne (s : Series) (k k' : string) (v : R) :
  k ≠ k' -> series_get (series_set s k v) k' = series_get s k'.
Proof.
  intros Hne. unfold series_set. destruct (decide (k ∈ labels s)) as [Hk|Hk].
  - clear Hk. induction s as [|[k0 v0] s IH]; simpl; [done|].
    destruct (decide (k0 = k)) as [->|Hne0]; simpl.
    + by rewrite !decide_False.
    + destruct (decide (k0 = k')); [done|apply IH].
  - destruct (decide (k' ∈ labels s)) as [Hk'|Hk'].
    + by apply series_get_app_l.
    + rewrite series_get_app_r by done. simpl. rewrite decide_False by done.
      by rewrite series_get_not_elem.
Qed.

Lemma labels_series_const (v : R) (index : list string) :
  labels (series_const v index) = index.
Proof.
  unfold labels, series_const. rewrite <- list_fmap_compose.
  rewrite <- (list_fmap_id index) at 2. by apply list_fmap_ext.
Qed.

Lemma enumerate_snoc {A} (l : list A) (x : A) :
  enumerate (l ++ [x]) = enumerate l ++ [(length l, x)].
Proof. unfold enumerate. rewrite imap_app. simpl. by rewrite Nat.add_0_r. Qed.

Lemma foldM_snoc {A B} (f : A -> B -> result A) (a : A) (l : list B) (b : B) :
  foldM f a (l ++ [b]) = foldM f a l ≫= fun a' => f a' b.
Proof.
  rewrite foldM_app. destruct (foldM f a l) as [a'|e]; simpl; [|done].
  by destruct (f a' b).
Qed.

(** ** solver/update.py *)

Lemma subtract_corrections_snoc s d names x :
  subtract_corrections s d (names ++ [x]) =
  s1 ← subtract_corrections s d names;
  old ← series_get s1 x;
  c ← array_get d (length names);
  Ok (series_set s1 x (old - c)).
Proof. unfold subtract_corrections. by rewrite enumerate_snoc, foldM_snoc. Qed.

Lemma subtract_corrections_labels s d names s' :
  subtract_corrections s d names = Ok s' -> labels s' = labels s.
Proof.
  revert s'. induction names as [|x names IH] using rev_ind; intros s'.
  - by intros [= <-].
  - rewrite subtract_corrections_snoc.
    intros (s1 & Hs1 & (old & Hold & (c & Hc & [= <-])%bind_Ok)%bind_Ok)%bind_Ok.
    rewrite labels_series_set; [by apply IH|].
    by eapply series_get_Ok_elem.
Qed.

(** A label that is not in the update list keeps its value. *)
Lemma subtract_corrections_frame s d names s' b :
  subtract_corrections s d names = Ok s' -> b ∉ names ->
  series_get s' b = series_get s b.
Proof.
  revert s'. induction names as [|x names IH] using rev_ind; intros s'.
  - by intros [= <-].
  - rewrite subtract_corrections_snoc.
    intros (s1 & Hs1 & (old & Hold & (c & Hc & [= <-])%bind_Ok)%bind_Ok)%bind_Ok Hb.
    rewrite not_elem_of_app, not_elem_of_cons in Hb. destruct Hb as [Hb [Hbx _]].
    rewrite series_get_set_ne by done. by apply IH.
Qed.

(** A label at position [i] of a duplicate-free update list is corrected by
    the [i]-th entry. *)
Lemma subtract_corrections_at s d names s' b i :
  subtract_corrections s d names = Ok s' -> NoDup names ->
  names !! i = Some b ->
  exists old c, series_get s b = Ok old /\ d !! i = Some c /\
                series_get s' b = Ok (old - c).
Proof.
  revert s'. induction names as [|x names IH] using rev_ind; intros s'; [done|].
  rewrite subtract_corrections_snoc.
  intros (s1 & Hs1 & (old & Hold & (c & Hc & [= <-])%bind_Ok)%bind_Ok)%bind_Ok.
  intros (Hnd & Hx & _)%NoDup_app [[Hi Hb]|[-> ->]]%lookup_snoc_Some.
  - destruct (IH s1) as (old' & c' & ? & ? & ?); [done..|].
    exists old', c'. split; [done|]. split; [done|].
    rewrite series_get_set_ne; [done|].
    intros ->. eapply Hx; [by eapply list_elem_of_lookup_2|by left].
  - exists old, c. split; [|split].
    + erewrite <- subtract_corrections_frame; [done..|].
      intros ?. eapply Hx; [done|by left].
    + unfold array_get in Hc. by destruct (d !! length names); simplify_eq.
    + apply series_get_set_eq.
Qed.

Lemma subtract_corrections_total s d names :
  (forall k, k ∈ names -> k ∈ labels s) -> (length names <= length d)%nat ->
  exists s', subtract_corrections s d names = Ok s'.
Proof.
  induction names as [|x names IH] using rev_ind; intros Hin Hlen.
  - by eexists.
  - rewrite length_app in Hlen. simpl in Hlen.
    destruct IH as [s1 Hs1].
    { intros k Hk. apply Hin, elem_of_app. by left. }
    { lia. }
    rewrite subtract_corrections_snoc, Hs1. simpl.
    destruct (series_get_elem s1 x) as [old ->].
    { erewrite subtract_corrections_labels by done.
      apply Hin, elem_of_app. right. by left. }
    simpl. unfold array_get.
    destruct (lookup_lt_is_Some_2 d (length names)) as [c ->]; [lia|].
    simpl. by eexists.
Qed.

Lemma apply_delta_Ok theta V delta index swing pq theta' V' :
  apply_delta theta V delta index swing pq = Ok (theta', V') <->
  subtract_corrections theta (take (length index) delta) index = Ok theta' /\
  subtract_corrections V
    (take (length (swing ++ pq)) (drop (length index) delta)) (swing ++ pq)
    = Ok V'.
Proof.
  unfold apply_delta, split_corrections. split.
  - intros (th & Hth & (v & Hv & [= <- <-])%bind_Ok)%bind_Ok. done.
  - intros [-> ->]. done.
Qed.

(** C3. A bus that is in neither the swing nor the PQ list (a PV bus) keeps
    its voltage magnitude through [apply_delta], whatever the vectors and the
    correction; its angle is corrected by its entry of the correction vector.
    The update goes through whenever the correction vector is long enough and
    the listed buses have entries. *)
Theorem apply_delta_keeps_PV_magnitude theta V delta index swing pq b :
  b ∉ swing ++ pq ->
  (forall theta' V',
     apply_delta theta V delta index swing pq = Ok (theta', V') ->
     series_get V' b = series_get V b /\
     forall i, NoDup index -> index !! i = Some b ->
       exists old c, series_get theta b = Ok old /\ delta !! i = Some c /\
                     series_get theta' b = Ok (old - c)) /\
  ((forall k, k ∈ index -> k ∈ labels theta) ->
   (forall k, k ∈ swing ++ pq -> k ∈ labels V) ->
   (length index + length (swing ++ pq) <= length delta)%nat ->
   exists theta' V', apply_delta theta V delta index swing pq = Ok (theta', V')).
Proof.
  intros Hb. split.
  - intros theta' V' [Hth HV]%apply_delta_Ok. split.
    + by eapply subtract_corrections_frame.
    + intros i Hnd Hi.
      destruct (subtract_corrections_at _ _ _ _ _ _ Hth Hnd Hi)
        as (old & c & ? & Hc & ?).
      exists old, c. split; [done|]. split; [|done].
      apply lookup_take_Some in Hc. tauto.
  - intros Hth HV Hlen.
    destruct (subtract_corrections_total theta (take (length index) delta) index)
      as [theta' Hth']; [done|rewrite length_take; lia|].
    destruct (subtract_corrections_total V
      (take (length (swing ++ pq)) (drop (length index) delta)) (swing ++ pq))
      as [V' HV']; [done|rewrite length_take, length_drop; lia|].
    exists theta', V'. by apply apply_delta_Ok.
Qed.

Lemma apply_delta_keeps_PV_magnitude_witness :
("B" ∉ ["A"] ++ ["C"]) /\
  exists theta' V',
    apply_delta theta_ABC V_ABC [1; 2; 3; 4; 5] ["A"; "B"; "C"] ["A"] ["C"]
      = Ok (theta', V') /\
    series_get V' "B" = Ok 1 /\
    series_get theta' "B" = Ok (0 - 2).
Proof.
  assert ("B" ∉ ["A"] ++ ["C"]) as Hb.
  { by apply (bool_decide_unpack _). }
  split; [exact Hb|].
  destruct (apply_delta_keeps_PV_magnitude theta_ABC V_ABC [1; 2; 3; 4; 5]
              ["A"; "B"; "C"] ["A"] ["C"] "B" Hb) as [Hframe Htotal].
  destruct Htotal as (theta' & V' & Happly).
  - intros k Hk. exact Hk.
  - intros k [->|[->|Hk]%elem_of_cons]%elem_of_cons;
      [by apply (bool_decide_unpack _)..|by inversion Hk].
  - simpl. lia.
  - exists theta', V'. split; [exact Happly|].
    destruct (Hframe theta' V' Happly) as [HV Hth]. split; [by rewrite HV|].
    destruct (Hth 1%nat) as (old & c & Hold & Hc & ->); [|done|].
    + by apply (bool_decide_unpack _).
    + by simplify_eq/=.
Defined.

(** ** solver/power_balance.py: mismatch vectors *)

Lemma calc_delta_p_unfold nan P pot_esp index swing :
  calc_delta_p nan P pot_esp index swing =
  d ← delta_loop fst P pot_esp index (series_const nan index);
  Ok (zero_swing d swing).
Proof. reflexivity. Qed.

Lemma calc_delta_q_unfold nan Q pot_esp pq swing :
  calc_delta_q nan Q pot_esp pq swing =
  d ← delta_loop snd Q pot_esp (swing ++ pq) (series_const nan (swing ++ pq));
  Ok (zero_swing d swing).
Proof. reflexivity. Qed.

Lemma specified_minus_Ok sel S pot_esp k v :
  specified_minus sel S pot_esp k = Ok v <->
  exists esp x, series_get pot_esp k = Ok esp /\ series_get S k = Ok x /\
                v = sel esp - x.
Proof.
  unfold specified_minus.
  destruct (series_get pot_esp k) as [esp|e] eqn:He; simpl.
  - destruct (series_get S k) as [x|e] eqn:Hx; simpl.
    + split; [intros [= <-]; eauto|by intros (? & ? & [= <-] & [= <-] & ->)].
    + split; [by destruct e|by intros (? & ? & _ & ? & _)].
  - split; [by destruct e|by intros (? & ? & ? & _)].
Qed.

Lemma specified_minus_Err sel S pot_esp k :
  k ∉ labels pot_esp \/ k ∉ labels S ->
  specified_minus sel S pot_esp k = Err (KeyError (msg_pot_esp k)).
Proof.
  unfold specified_minus.
  destruct (decide (k ∈ labels pot_esp)) as [Hin|Hout].
  - destruct (series_get_elem pot_esp k Hin) as [esp ->]. simpl.
    intros [?|Hs]; [done|]. by rewrite (series_get_not_elem S) by done.
  - intros _. by rewrite (series_get_not_elem pot_esp) by done.
Qed.

Lemma delta_loop_snoc sel S pot_esp names x d0 :
  delta_loop sel S pot_esp (names ++ [x]) d0 =
  d ← delta_loop sel S pot_esp names d0;
  v ← specified_minus sel S pot_esp x;
  Ok (series_set d x v).
Proof. unfold delta_loop. by rewrite foldM_snoc. Qed.

Lemma delta_loop_Ok sel S pot_esp names d0 d :
  (forall k, k ∈ names -> k ∈ labels d0) ->
  delta_loop sel S pot_esp names d0 = Ok d ->
  labels d = labels d0 /\
  (forall k, k ∈ names ->
     exists esp x, series_get pot_esp k = Ok esp /\ series_get S k = Ok x /\
                   series_get d k = Ok (sel esp - x)).
Proof.
  revert d. induction names as [|x names IH] using rev_ind; intros d Hin.
  - intros [= <-]. split; [done|]. intros k Hk. by inversion Hk.
  - rewrite delta_loop_snoc.
    intros (d1 & Hd1 & (v & Hv & [= <-])%bind_Ok)%bind_Ok.
    destruct (IH d1) as [Hlab Hval]; [|done|].
    { intros k Hk. apply Hin, elem_of_app. by left. }
    split.
    + rewrite labels_series_set; [done|]. rewrite Hlab.
      apply Hin, elem_of_app. right. by left.
    + intros k Hk. destruct (decide (x = k)) as [->|Hne].
      * apply specified_minus_Ok in Hv as (esp & y & ? & ? & ->).
        exists esp, y. by rewrite series_get_set_eq.
      * rewrite series_get_set_ne by done. apply Hval.
        apply elem_of_app in Hk as [?|Hk]; [done|].
        apply list_elem_of_singleton in Hk. congruence.
Qed.

Lemma delta_loop_total sel S pot_esp names d0 :
  (forall k, k ∈ names -> k ∈ labels pot_esp /\ k ∈ labels S) ->
  exists d, delta_loop sel S pot_esp names d0 = Ok d.
Proof.
  induction names as [|x names IH] using rev_ind; intros Hin.
  - by eexists.
  - destruct IH as [d1 Hd1].
    { intros k Hk. apply Hin, elem_of_app. by left. }
    rewrite delta_loop_snoc, Hd1. simpl.
    destruct (Hin x) as [Hpe HS]; [apply elem_of_app; right; by left|].
    destruct (series_get_elem _ _ Hpe) as [esp Hesp].
    destruct (series_get_elem _ _ HS) as [y Hy].
    assert (specified_minus sel S pot_esp x = Ok (sel esp - y)) as ->.
    { apply specified_minus_Ok. eauto. }
    simpl. by eexists.
Qed.

(** The loop stops at the first bus that one of the two lookups misses. *)
Lemma delta_loop_Err sel S pot_esp names d0 :
  (exists k, k ∈ names /\ (k ∉ labels pot_esp \/ k ∉ labels S)) ->
  exists k, k ∈ names /\ (k ∉ labels pot_esp \/ k ∉ labels S) /\
            delta_loop sel S pot_esp names d0 = Err (KeyError (msg_pot_esp k)).
Proof.
  revert d0. induction names as [|x names IH]; intros d0 (k & Hk & Hmiss).
  - by inversion Hk.
  - unfold delta_loop. simpl.
    destruct (decide (x ∈ labels pot_esp /\ x ∈ labels S)) as [[Hpe HS]|Hx].
    + destruct (series_get_elem _ _ Hpe) as [esp Hesp].
      destruct (series_get_elem _ _ HS) as [y Hy].
      assert (specified_minus sel S pot_esp x = Ok (sel esp - y)) as ->.
      { apply specified_minus_Ok. eauto. }
      simpl. destruct (IH (series_set d0 x (sel esp - y))) as (k' & ? & ? & ?).
      { exists k. split; [|done].
        apply elem_of_cons in Hk as [->|?]; [|done]. by destruct Hmiss. }
      exists k'. split; [by right|done].
    + exists x. split; [by left|].
      apply not_and_l in Hx. split; [done|].
      by rewrite specified_minus_Err.
Qed.

Lemma zero_swing_labels d swing : labels (zero_swing d swing) = labels d.
Proof.
  revert d. induction swing as [|s swing IH]; intros d; [done|].
  unfold zero_swing. simpl. fold (zero_swing
    (if decide (s ∈ labels d) then series_set d s 0 else d) swing).
  rewrite IH. destruct (decide (s ∈ labels d)); [|done].
  by apply labels_series_set.
Qed.

Lemma zero_swing_get d swing k :
  series_get (zero_swing d swing) k =
  if decide (k ∈ swing /\ k ∈ labels d) then Ok 0 else series_get d k.
Proof.
  revert d. induction swing as [|s swing IH] using rev_ind; intros d.
  - change (zero_swing d []) with d.
    case_decide as Hk; [|done]. destruct Hk as [Hk _]. by inversion Hk.
  - unfold zero_swing. rewrite foldl_app. simpl. fold (zero_swing d swing).
    pose proof (zero_swing_labels d swing) as Hlab.
    destruct (decide (s ∈ labels (zero_swing d swing))) as [Hs|Hs].
    + destruct (decide (s = k)) as [->|Hne].
      * rewrite series_get_set_eq, decide_True; [done|].
        split; [apply elem_of_app; right; by left|by rewrite <- Hlab].
      * rewrite series_get_set_ne, IH by done.
        destruct (decide (k ∈ swing /\ k ∈ labels d)) as [[? ?]|Hno].
        -- rewrite decide_True; [done|]. split; [apply elem_of_app; by left|done].
        -- rewrite decide_False; [done|]. intros [Hk ?]. apply Hno.
           split; [|done]. apply elem_of_app in Hk as [?|Hk]; [done|].
           apply list_elem_of_singleton in Hk. congruence.
    + rewrite IH. rewrite Hlab in Hs.
      destruct (decide (k ∈ swing /\ k ∈ labels d)) as [[? ?]|Hno].
      * rewrite decide_True; [done|]. split; [apply elem_of_app; by left|done].
      * rewrite decide_False; [done|]. intros [Hk ?]. apply Hno.
        split; [|done]. apply elem_of_app in Hk as [?|Hk]; [done|].
        apply list_elem_of_singleton in Hk. congruence.
Qed.

(** What a returned mismatch vector looks like, for either function. *)
Lemma mismatch_vector_Ok sel S pot_esp names swing nan d :
  (d0 ← delta_loop sel S pot_esp names (series_const nan names);
   Ok (zero_swing d0 swing)) = Ok d ->
  labels d = names /\
  forall k, k ∈ names ->
    exists v, series_get d k = Ok v /\ mismatch_entry sel S pot_esp swing k v.
Proof.
  intros (d0 & Hd0 & [= <-])%bind_Ok.
  apply delta_loop_Ok in Hd0 as [Hlab Hval];
    [|intros k; by rewrite labels_series_const].
  rewrite labels_series_const in Hlab.
  split; [by rewrite zero_swing_labels|].
  intros k Hk. rewrite zero_swing_get, Hlab. unfold mismatch_entry.
  destruct (decide (k ∈ swing)) as [Hsw|Hsw].
  - rewrite decide_True by done. by exists 0.
  - rewrite decide_False by tauto.
    destruct (Hval k Hk) as (esp & x & ? & ? & ?). eauto 10.
Qed.

(** C6. When the specified-power table and the computed injections hold one
    entry per label (no label is repeated) and have an entry for every
    requested bus, both mismatch functions return: the active vector has one
    entry per bus of [index], the reactive vector one entry per bus of
    [swing ++ pq] and none for any other (PV) bus; an entry is exactly zero on
    a swing bus and specified minus computed elsewhere. *)
Theorem mismatch_vectors nan P Q pot_esp index pq swing :
  NoDup (labels P) -> NoDup (labels Q) -> NoDup (labels pot_esp) ->
  (forall k, k ∈ index -> k ∈ labels pot_esp /\ k ∈ labels P) ->
  (forall k, k ∈ swing ++ pq -> k ∈ labels pot_esp /\ k ∈ labels Q) ->
  exists dP dQ,
    calc_delta_p nan P pot_esp index swing = Ok dP /\
    calc_delta_q nan Q pot_esp pq swing = Ok dQ /\
    mismatch_spec fst P pot_esp index swing dP /\
    mismatch_spec snd Q pot_esp (swing ++ pq) swing dQ.
Proof.
  intros _ _ _ HP HQ.
  destruct (delta_loop_total fst P pot_esp index (series_const nan index) HP)
    as [dP0 HdP0].
  destruct (delta_loop_total snd Q pot_esp (swing ++ pq)
              (series_const nan (swing ++ pq)) HQ) as [dQ0 HdQ0].
  exists (zero_swing dP0 swing), (zero_swing dQ0 swing).
  assert (calc_delta_p nan P pot_esp index swing = Ok (zero_swing dP0 swing)) as HdP.
  { by rewrite calc_delta_p_unfold, HdP0. }
  assert (calc_delta_q nan Q pot_esp pq swing = Ok (zero_swing dQ0 swing)) as HdQ.
  { by rewrite calc_delta_q_unfold, HdQ0. }
  split; [done|]. split; [done|].
  rewrite calc_delta_p_unfold in HdP. rewrite calc_delta_q_unfold in HdQ.
  apply mismatch_vector_Ok in HdP as [HlabP HvalP].
  apply mismatch_vector_Ok in HdQ as [HlabQ HvalQ].
  split.
  - split; [done|]. split; [done|].
    intros k Hk. apply series_get_not_elem. by rewrite HlabP.
  - split; [done|]. split; [done|].
    intros k Hk. apply series_get_not_elem. by rewrite HlabQ.
Qed.

Lemma mismatch_vectors_witness :
  NoDup (labels P_ABC) /\ NoDup (labels Q_ABC) /\ NoDup (labels pot_esp_ABC) /\
  (forall k, k ∈ ["A"; "B"; "C"] ->
     k ∈ labels pot_esp_ABC /\ k ∈ labels P_ABC) /\
  (forall k, k ∈ ["A"] ++ ["C"] ->
     k ∈ labels pot_esp_ABC /\ k ∈ labels Q_ABC) /\
  exists dP dQ,
    calc_delta_p 0 P_ABC pot_esp_ABC ["A"; "B"; "C"] ["A"] = Ok dP /\
    calc_delta_q 0 Q_ABC pot_esp_ABC ["C"] ["A"] = Ok dQ /\
    mismatch_spec fst P_ABC pot_esp_ABC ["A"; "B"; "C"] ["A"] dP /\
    mismatch_spec snd Q_ABC pot_esp_ABC (["A"] ++ ["C"]) ["A"] dQ.
Proof.
  assert (forall k, k ∈ ["A"; "B"; "C"] ->
            k ∈ labels pot_esp_ABC /\ k ∈ labels P_ABC) as HP.
  { intros k Hk. split; exact Hk. }
  assert (forall k, k ∈ ["A"] ++ ["C"] ->
            k ∈ labels pot_esp_ABC /\ k ∈ labels Q_ABC) as HQ.
  { intros k [->|[->|Hk]%elem_of_cons]%elem_of_cons;
      [split; by apply (bool_decide_unpack _)..|by inversion Hk]. }
  assert (NoDup (labels P_ABC)) as HndP by (by apply (bool_decide_unpack _)).
  assert (NoDup (labels Q_ABC)) as HndQ by (by apply (bool_decide_unpack _)).
  assert (NoDup (labels pot_esp_ABC)) as Hnde
    by (by apply (bool_decide_unpack _)).
  split; [exact HndP|]. split; [exact HndQ|]. split; [exact Hnde|].
  split; [exact HP|]. split; [exact HQ|].
  exact (mismatch_vectors 0 P_ABC Q_ABC pot_esp_ABC ["A"; "B"; "C"] ["C"] ["A"]
           HndP HndQ Hnde HP HQ).
Defined.

Example calc_delta_p_ABC :
  calc_delta_p 0 P_ABC pot_esp_ABC ["A"; "B"; "C"] ["A"]
  = Ok [("A", 0); ("B", 1 - 3); ("C", -1 - 4)].
Proof. reflexivity. Qed.

Example calc_delta_q_ABC :
  calc_delta_q 0 Q_ABC pot_esp_ABC ["C"] ["A"]
  = Ok [("A", 0); ("C", -1 - 7)].
Proof. reflexivity. Qed.

(** ** solver/power_balance.py: buses missing from the table *)

(** C7 as stated fails on the code: the [try] also guards the lookup in the
    injection vector, so a bus that the table does contain is reported as
    missing from it when the injection vector has no entry for it. *)
Lemma mismatch_error_with_complete_table :
  "A" ∈ labels pot_esp_ABC /\
  calc_delta_p 0 [] pot_esp_ABC ["A"] [] = Err (KeyError (msg_pot_esp "A")).
Proof. split; [by apply (bool_decide_unpack _)|reflexivity]. Qed.

Lemma delta_loop_first_Err sel S pot_esp names d0 k :
  first_lacking names pot_esp S k ->
  delta_loop sel S pot_esp names d0 = Err (KeyError (msg_pot_esp k)).
Proof.
  intros (i & Hi & Hlack & Hbefore).
  rewrite <- (take_drop_middle names i k Hi). unfold delta_loop.
  rewrite foldM_app.
  destruct (delta_loop_total sel S pot_esp (take i names) d0) as [d Hd].
  { intros k' [j Hj]%list_elem_of_lookup.
    apply lookup_take_Some in Hj as [Hj Hlt]. by eapply Hbefore. }
  unfold delta_loop in Hd. rewrite Hd. simpl.
  by rewrite specified_minus_Err.
Qed.

Lemma first_lacking_exists names pot_esp (X : Series) :
  (exists k, k ∈ names /\ (k ∉ labels pot_esp \/ k ∉ labels X)) ->
  exists k, first_lacking names pot_esp X k.
Proof.
  induction names as [|x names IH]; intros (k & Hk & Hlack).
  - by inversion Hk.
  - destruct (decide (x ∈ labels pot_esp /\ x ∈ labels X)) as [Hx|Hx].
    + destruct IH as (k' & i & Hi & Hl & Hbefore).
      { exists k. split; [|done].
        apply elem_of_cons in Hk as [->|?]; [|done]. tauto. }
      exists k', (S i). split; [done|]. split; [done|].
      intros [|j] k'' Hlt; simpl; [by intros [= <-]|].
      apply Hbefore. lia.
    + exists x, 0%nat. split; [done|]. split; [by apply not_and_l in Hx|].
      intros j k' Hlt. lia.
Qed.

Lemma delta_loop_returns sel S pot_esp names d0 :
  (exists d, delta_loop sel S pot_esp names d0 = Ok d) <->
  forall k, k ∈ names -> k ∈ labels pot_esp /\ k ∈ labels S.
Proof.
  split; [|apply delta_loop_total].
  intros [d Hd] k Hk.
  destruct (decide (k ∈ labels pot_esp /\ k ∈ labels S)) as [|Hno]; [done|].
  destruct (first_lacking_exists names pot_esp S) as [k' Hk'].
  { exists k. split; [done|]. by apply not_and_l in Hno. }
  apply (delta_loop_first_Err sel S pot_esp names d0) in Hk'. congruence.
Qed.

Lemma mismatch_result_rule sel S pot_esp names swing nan :
  missing_bus_rule names pot_esp S
    (d ← delta_loop sel S pot_esp names (series_const nan names);
     Ok (zero_swing d swing)).
Proof.
  assert (forall k, first_lacking names pot_esp S k ->
            (d ← delta_loop sel S pot_esp names (series_const nan names);
             Ok (zero_swing d swing)) = Err (KeyError (msg_pot_esp k))) as Herr.
  { intros k Hk.
    by rewrite (delta_loop_first_Err sel S pot_esp names _ k Hk). }
  split; [|split].
  - intros (k & Hk & Hmiss).
    destruct (first_lacking_exists names pot_esp S) as [k' Hk'].
    { exists k. split; [done|by left]. }
    exists k'. split; [done|by apply Herr].
  - intros HS (k & Hk & Hmiss).
    destruct (first_lacking_exists names pot_esp S) as [k' Hk'].
    { exists k. split; [done|by left]. }
    pose proof (Herr k' Hk') as He.
    destruct Hk' as (i & Hi & Hlack & Hbefore).
    exists i, k'. split; [done|]. split.
    + destruct Hlack as [?|Hno]; [done|].
      exfalso. apply Hno, HS. by eapply list_elem_of_lookup_2.
    + split; [|done]. intros j k'' Hlt Hj. by eapply Hbefore.
  - rewrite <- (delta_loop_returns sel S pot_esp names
                  (series_const nan names)).
    split.
    + intros [d Hd]. apply bind_Ok in Hd as (d0 & Hd0 & _). by exists d0.
    + intros [d0 ->]. by eexists.
Qed.

(** C7, amended.  For injection vectors and a specified-power table that hold
    one entry per label: when some requested bus is absent from the table, the
    mismatch function returns no vector and raises the [KeyError] whose
    message names the first requested bus, in order, that has no entry in the
    table or in the injection vector; that is the first bus absent from the
    table when the injection vector covers the requested buses.  It returns a
    vector exactly when every requested bus has an entry in the table and in
    the injection vector. *)
Theorem mismatch_missing_bus nan P Q pot_esp index pq swing :
  NoDup (labels P) -> NoDup (labels Q) -> NoDup (labels pot_esp) ->
  missing_bus_rule index pot_esp P
    (calc_delta_p nan P pot_esp index swing) /\
  missing_bus_rule (swing ++ pq) pot_esp Q
    (calc_delta_q nan Q pot_esp pq swing).
Proof.
  intros _ _ _. rewrite calc_delta_p_unfold, calc_delta_q_unfold.
  split; apply mismatch_result_rule.
Qed.

Lemma mismatch_missing_bus_witness :
  NoDup (labels P_ABC) /\ NoDup (labels Q_ABC) /\ NoDup (labels pot_esp_AB) /\
  missing_bus_rule ["A"; "B"; "C"] pot_esp_AB P_ABC
    (calc_delta_p 0 P_ABC pot_esp_AB ["A"; "B"; "C"] ["A"]) /\
  exists k, first_lacking ["A"; "B"; "C"] pot_esp_AB P_ABC k /\
    calc_delta_p 0 P_ABC pot_esp_AB ["A"; "B"; "C"] ["A"]
      = Err (KeyError (msg_pot_esp k)).
Proof.
  assert (NoDup (labels P_ABC)) as HndP by (by apply (bool_decide_unpack _)).
  assert (NoDup (labels Q_ABC)) as HndQ by (by apply (bool_decide_unpack _)).
  assert (NoDup (labels pot_esp_AB)) as Hnde
    by (by apply (bool_decide_unpack _)).
  split; [exact HndP|]. split; [exact HndQ|]. split; [exact Hnde|].
  pose proof (proj1 (mismatch_missing_bus 0 P_ABC Q_ABC pot_esp_AB
                       ["A"; "B"; "C"] ["C"] ["A"] HndP HndQ Hnde)) as Hrule.
  split; [exact Hrule|].
  apply (proj1 Hrule). exists "C". split; by apply (bool_decide_unpack _).
Defined.

Example calc_delta_p_missing_C :
  calc_delta_p 0 P_ABC pot_esp_AB ["A"; "B"; "C"] ["A"]
  = Err (KeyError "Barra 'C' não encontrada em pot_esp").
Proof. reflexivity. Qed.

(** ** solver/power_balance.py: injected power *)

Lemma index_of_elem (l : list string) (k : string) :
  k ∈ l -> exists i, index_of l k = Ok i.
Proof.
  induction l as [|k' l IH]; simpl; [by inversion 1|].
  destruct (decide (k' = k)) as [->|Hne]; [by eexists|].
  intros [?|Hk]%elem_of_cons; [congruence|].
  destruct (IH Hk) as [i ->]. by eexists.
Qed.

Lemma index_of_not_elem (l : list string) (k : string) :
  k ∉ l -> index_of l k = Err (KeyError k).
Proof.
  induction l as [|k' l IH]; simpl; [done|].
  intros Hk. destruct (decide (k' = k)) as [->|Hne].
  - exfalso. apply Hk. by left.
  - rewrite IH; [done|]. intros ?. apply Hk. by right.
Qed.

Lemma index_of_Err (l : list string) (k : string) (e : exn) :
  index_of l k = Err e -> e = KeyError k /\ k ∉ l.
Proof.
  intros He. destruct (decide (k ∈ l)) as [Hk|Hk].
  - destruct (index_of_elem l k Hk) as [i Hi]. congruence.
  - rewrite index_of_not_elem in He by done. by simplify_eq.
Qed.

Lemma df_reindex_Ok {A} (d : A) (df : DataFrame A) (ordem : list string) :
  (forall k, k ∈ ordem -> k ∈ df_index df) ->
  exists df', df_reindex d df ordem = Ok df' /\ df_index df' = ordem.
Proof.
  intros Hin. unfold df_reindex.
  destruct (traverse_total (index_of (df_index df)) ordem) as [pos ->].
  { apply Forall_forall. intros k Hk. by apply index_of_elem, Hin. }
  simpl. by eexists.
Qed.

Lemma df_reindex_Err {A} (d : A) (df : DataFrame A) (ordem : list string) :
  (exists k, k ∈ ordem /\ k ∉ df_index df) ->
  exists k, k ∈ ordem /\ (k ∉ df_index df) /\
            df_reindex d df ordem = Err (KeyError k).
Proof.
  intros (k & Hk & Hmiss). unfold df_reindex.
  destruct (traverse (index_of (df_index df)) ordem) as [pos|e] eqn:Htr.
  - apply traverse_Ok in Htr.
    apply list_elem_of_lookup in Hk as [i Hi].
    destruct (Forall2_lookup_l _ _ _ _ _ Htr Hi) as (j & _ & Hj).
    rewrite index_of_not_elem in Hj by done. done.
  - destruct (traverse_Err _ _ _ Htr) as (k' & Hk' & He).
    apply index_of_Err in He as [-> ?]. by exists k'.
Qed.

Lemma df_loc_Ok {A} (d : A) (df : DataFrame A) (k m : string) :
  k ∈ df_index df -> m ∈ df_index df -> exists v, df_loc d df k m = Ok v.
Proof.
  intros Hk Hm. unfold df_loc.
  destruct (index_of_elem _ _ Hk) as [i ->].
  destruct (index_of_elem _ _ Hm) as [j ->]. simpl. by eexists.
Qed.

Lemma foldM_invariant {A B} (Inv : A -> Prop) (f : A -> B -> result A)
    (l : list B) (a : A) :
  (forall a b, b ∈ l -> Inv a -> exists a', f a b = Ok a' /\ Inv a') ->
  Inv a -> exists a', foldM f a l = Ok a' /\ Inv a'.
Proof.
  revert a. induction l as [|b l IH]; intros a Hstep Ha; simpl; [by eexists|].
  destruct (Hstep a b) as (a' & -> & Ha'); [by left|done|]. simpl.
  apply IH; [|done]. intros a0 b0 Hb0. apply Hstep. by right.
Qed.

(** With every bus of [V] present in the matrix and [theta] listing the same
    buses in the same order, the evaluation returns, whatever the order of the
    matrix labels. *)
Lemma calc_injected_power_total Ybus V theta :
  (forall k, k ∈ labels V -> k ∈ df_index Ybus) ->
  labels theta = labels V ->
  exists P Q, calc_injected_power Ybus V theta = Ok (P, Q) /\
              labels P = labels V /\ labels Q = labels V.
Proof.
  intros Hin Hth. unfold calc_injected_power.
  destruct (df_reindex_Ok 0 (df_map re Ybus) (labels V) Hin) as (G & -> & HG).
  destruct (df_reindex_Ok 0 (df_map im Ybus) (labels V) Hin) as (B & -> & HB).
  simpl. rewrite !bool_decide_eq_true_2 by done. simpl.
  set (Inv := fun PQ : Series * Series =>
                labels PQ.1 = labels V /\ labels PQ.2 = labels V).
  match goal with |- exists P Q, foldM ?f ?a ?l = _ /\ _ =>
    destruct (foldM_invariant Inv f l a) as ([P Q] & HPQ & HP & HQ) end.
  - intros PQ k Hk HPQ. apply foldM_invariant; [|done].
    clear PQ HPQ. intros [P Q] m Hm [HP HQ]. simpl in HP, HQ.
    unfold injection_step.
    destruct (series_get_elem theta k) as [th_k ->]; [by rewrite Hth|].
    destruct (series_get_elem theta m) as [th_m ->]; [by rewrite Hth|].
    simpl. destruct (series_get_elem P k) as [P_k ->]; [by rewrite HP|].
    destruct (series_get_elem V k Hk) as [V_k ->].
    destruct (series_get_elem V m Hm) as [V_m ->].
    destruct (df_loc_Ok 0 G k m) as [G_km ->]; [by rewrite HG..|].
    destruct (df_loc_Ok 0 B k m) as [B_km ->]; [by rewrite HB..|].
    simpl. destruct (series_get_elem Q k) as [Q_k ->]; [by rewrite HQ|].
    simpl. eexists. split; [done|]. split; simpl.
    + rewrite labels_series_set; [done|by rewrite HP].
    + rewrite labels_series_set; [done|by rewrite HQ].
  - split; simpl; apply labels_series_const.
  - by exists P, Q.
Qed.

(** C8 as stated fails on the code: the matrix is realigned to the order of
    [V] by label before the checks, so a matrix labelled A, B with vectors
    labelled B, A is accepted and the injections are returned. *)
Lemma calc_injected_power_accepts_other_order :
  df_index Ybus_AB ≠ labels V_BA /\
  exists P Q, calc_injected_power Ybus_AB V_BA theta_BA = Ok (P, Q).
Proof.
  split; [done|].
  destruct (calc_injected_power_total Ybus_AB V_BA theta_BA)
    as (P & Q & ? & _); [|done|by exists P, Q].
  intros k [->|[->|Hk]%elem_of_cons]%elem_of_cons;
    [by apply (bool_decide_unpack _)..|by inversion Hk].
Qed.

(** ** solver/jacobian.py: the loop nest *)

Lemma fill_row_snoc entry i k cs c A :
  fill_row entry i k (cs ++ [c]) A =
  A1 ← fill_row entry i k cs A;
  v ← entry k c;
  Ok (mat_set i (length cs) v A1).
Proof. unfold fill_row. by rewrite enumerate_snoc, foldM_snoc. Qed.

Lemma fill_row_spec entry i k cs n m A A' :
  shape n m A -> (i < n)%nat -> (length cs <= m)%nat ->
  fill_row entry i k cs A = Ok A' ->
  shape n m A' /\
  (forall j c, cs !! j = Some c -> entry k c = Ok (mat_get 0 A' i j)) /\
  (forall i' j', i' ≠ i \/ (length cs <= j')%nat ->
     mat_get 0 A' i' j' = mat_get 0 A i' j').
Proof.
  intros HA Hi. revert A'.
  induction cs as [|c cs IH] using rev_ind; intros A' Hlen.
  - intros [= <-]. split; [done|]. split; [by intros ? ? ?|done].
  - rewrite length_app in Hlen. simpl in Hlen.
    rewrite fill_row_snoc.
    intros (A1 & HA1 & (v & Hv & [= <-])%bind_Ok)%bind_Ok.
    destruct (IH A1) as (Hsh & Hset & Hkeep); [lia|done|].
    split; [by apply shape_mat_set|]. split.
    + intros j c' [[Hj Hc']|[-> ->]]%lookup_snoc_Some.
      * rewrite mat_get_mat_set_ne by (intros [= ?]; lia). by apply Hset.
      * by erewrite mat_get_mat_set_eq; [|done|done|lia].
    + intros i' j' Hij. rewrite length_app in Hij. simpl in Hij.
      rewrite mat_get_mat_set_ne by (intros [= ? ?]; lia).
      apply Hkeep. lia.
Qed.

Lemma fill_row_total entry i k cs A :
  (forall c, c ∈ cs -> exists v, entry k c = Ok v) ->
  exists A', fill_row entry i k cs A = Ok A'.
Proof.
  induction cs as [|c cs IH] using rev_ind; intros Hent; [by eexists|].
  destruct IH as [A1 HA1].
  { intros c' Hc'. apply Hent, elem_of_app. by left. }
  destruct (Hent c) as [v Hv]; [apply elem_of_app; right; by left|].
  rewrite fill_row_snoc, HA1. simpl. rewrite Hv. simpl. by eexists.
Qed.

Lemma fill_rows_snoc entry cols rs r A :
  fill_rows entry cols (rs ++ [r]) A =
  A1 ← fill_rows entry cols rs A;
  fill_row entry (length rs) r cols A1.
Proof. unfold fill_rows. by rewrite enumerate_snoc, foldM_snoc. Qed.

Lemma fill_rows_spec entry cols rs n A A' :
  shape n (length cols) A -> (length rs <= n)%nat ->
  fill_rows entry cols rs A = Ok A' ->
  shape n (length cols) A' /\
  (forall i j k c, rs !! i = Some k -> cols !! j = Some c ->
     entry k c = Ok (mat_get 0 A' i j)) /\
  (forall i' j', (length rs <= i')%nat ->
     mat_get 0 A' i' j' = mat_get 0 A i' j').
Proof.
  intros HA. revert A'.
  induction rs as [|r rs IH] using rev_ind; intros A' Hlen.
  - intros [= <-]. split; [done|]. split; [by intros ? ? ? ? ?|done].
  - rewrite length_app in Hlen. simpl in Hlen.
    rewrite fill_rows_snoc. intros (A1 & HA1 & Hrow)%bind_Ok.
    destruct (IH A1) as (Hsh & Hset & Hkeep); [lia|done|].
    eapply fill_row_spec in Hrow as (Hsh' & Hset' & Hkeep'); [|done|lia|done].
    split; [done|]. split.
    + intros i j k c [[Hi Hk]|[-> ->]]%lookup_snoc_Some Hc.
      * rewrite Hkeep' by lia. by eapply Hset.
      * by apply Hset'.
    + intros i' j' Hi'. rewrite length_app in Hi'. simpl in Hi'.
      rewrite Hkeep' by lia. apply Hkeep. lia.
Qed.

Lemma fill_rows_total entry cols rs A :
  (forall k c, k ∈ rs -> c ∈ cols -> exists v, entry k c = Ok v) ->
  exists A', fill_rows entry cols rs A = Ok A'.
Proof.
  induction rs as [|r rs IH] using rev_ind; intros Hent; [by eexists|].
  destruct IH as [A1 HA1].
  { intros k c Hk. apply Hent, elem_of_app. by left. }
  rewrite fill_rows_snoc, HA1. simpl.
  apply fill_row_total. intros c Hc. apply Hent; [|done].
  apply elem_of_app. right. by left.
Qed.

(** A loop nest whose entries are all defined builds the block of those
    entries. *)
Lemma fill_matrix_block rows cols entry ref :
  (forall k m, k ∈ rows -> m ∈ cols -> entry k m = Ok (ref k m)) ->
  exists A, fill_matrix rows cols entry = Ok A /\ block_of rows cols ref A.
Proof.
  intros Hent. unfold fill_matrix.
  destruct (fill_rows_total entry cols rows
              (zeros 0 (length rows) (length cols))) as [A HA].
  { intros k c ? ?. exists (ref k c). by apply Hent. }
  exists A. split; [done|].
  eapply fill_rows_spec in HA as (Hsh & Hset & _); [|apply shape_zeros|done].
  split; [done|]. intros i j k m Hk Hm.
  specialize (Hset i j k m Hk Hm).
  rewrite Hent in Hset
    by (by eapply list_elem_of_lookup_2). by simplify_eq.
Qed.

(** ** solver/jacobian.py: the entries *)

Lemma series_get_val (s : Series) (k : string) :
  k ∈ labels s -> series_get s k = Ok (val s k).
Proof. intros [v Hv]%series_get_elem. unfold val. by rewrite Hv. Qed.

Lemma df_loc_val2 (df : DataFrame R) (k m : string) :
  k ∈ df_index df -> m ∈ df_index df -> df_loc 0 df k m = Ok (val2 df k m).
Proof.
  intros Hk Hm. destruct (df_loc_Ok 0 df k m Hk Hm) as [v Hv].
  unfold val2. by rewrite Hv.
Qed.

Lemma in_swing_decide swing k m :
  in_swing swing k m = bool_decide (swing_pair swing k m).
Proof.
  unfold in_swing, swing_pair.
  destruct (decide (k ∈ swing)), (decide (m ∈ swing));
    rewrite ?(bool_decide_eq_true_2 (k ∈ swing)),
            ?(bool_decide_eq_false_2 (k ∈ swing)),
            ?(bool_decide_eq_true_2 (m ∈ swing)),
            ?(bool_decide_eq_false_2 (m ∈ swing)) by done; simpl;
    symmetry; [apply bool_decide_eq_true_2..|apply bool_decide_eq_false_2]; tauto.
Qed.

Section Entries.
Variables (V theta : Series) (G B : DataFrame R) (P Q : Series).
Variable swing : list string.
Variables k m : string.
Hypothesis Hcov :
  ~ swing_pair swing k m ->
  covered V theta G B P Q k /\ covered V theta G B P Q m.

Local Ltac entry_tac :=
  rewrite in_swing_decide;
  destruct (decide (swing_pair swing k m)) as [Hsw|Hsw];
  [ by rewrite bool_decide_eq_true_2
  | rewrite bool_decide_eq_false_2 by done;
    destruct (Hcov Hsw) as
      [(HVk & Hthk & HPk & HQk & HGk & HBk) (HVm & Hthm & HPm & HQm & HGm & HBm)];
    destruct (decide (k = m));
    rewrite ?(series_get_val V k), ?(series_get_val V m),
            ?(series_get_val theta k), ?(series_get_val theta m),
            ?(series_get_val P k), ?(series_get_val Q k),
            ?(df_loc_val2 G k k), ?(df_loc_val2 B k k),
            ?(df_loc_val2 G k m), ?(df_loc_val2 B k m) by done;
    reflexivity ].

Lemma entry_H_ref :
  entry_H V theta G B Q swing k m = Ok (H_ref V theta G B Q swing k m).
Proof. unfold entry_H, H_ref. entry_tac. Qed.

Lemma entry_N_ref :
  entry_N V theta G B P swing k m = Ok (N_ref V theta G B P swing k m).
Proof. unfold entry_N, N_ref. entry_tac. Qed.

Lemma entry_M_ref :
  entry_M V theta G B P swing k m = Ok (M_ref V theta G B P swing k m).
Proof. unfold entry_M, M_ref. entry_tac. Qed.

Lemma entry_L_ref :
  entry_L V theta G B Q swing k m = Ok (L_ref V theta G B Q swing k m).
Proof. unfold entry_L, L_ref. entry_tac. Qed.
End Entries.

(** ** solver/jacobian.py: the assembled matrix *)

Lemma shape_hstack (n m1 m2 : nat) (A1 A2 : list (list R)) :
  shape n m1 A1 -> shape n m2 A2 -> shape n (m1 + m2) (hstack A1 A2).
Proof.
  intros [Hn1 Hm1] [Hn2 Hm2]. unfold hstack. split.
  - rewrite length_zip_with. lia.
  - apply Forall_forall. intros row Hrow.
    apply list_elem_of_lookup in Hrow as [i Hi].
    rewrite lookup_zip_with in Hi.
    destruct (A1 !! i) as [r1|] eqn:Hr1; simpl in Hi; [|done].
    destruct (A2 !! i) as [r2|] eqn:Hr2; simpl in Hi; [|done].
    simplify_eq. rewrite length_app.
    rewrite Forall_forall in Hm1, Hm2.
    rewrite (Hm1 r1), (Hm2 r2); [done|by eapply list_elem_of_lookup_2..].
Qed.

Lemma shape_vstack (n1 n2 m : nat) (A1 A2 : list (list R)) :
  shape n1 m A1 -> shape n2 m A2 -> shape (n1 + n2) m (vstack A1 A2).
Proof.
  intros [Hn1 Hm1] [Hn2 Hm2]. unfold vstack. split.
  - rewrite length_app. lia.
  - by apply Forall_app.
Qed.

(** C5. When [V], [theta], [P], [Q], [G] and [B] hold one entry per label
    (no label is repeated), every non-swing bus of the partition has an entry
    in each of them, and the magnitude of every non-swing bus of [swing ++ pq]
    is not zero (the diagonal of [N] and [L] divides by it), the builder
    returns the block matrix [[H, N], [M, L]] of the specification: [H] is [|index| x |index|], [N] is
    [|index| x |swing ++ pq|], [M] is [|swing ++ pq| x |index|], [L] is
    [|swing ++ pq| x |swing ++ pq|]; each entry is given by the reference
    formula on its pair of buses, which is 0 when the row bus or the column
    bus is a swing bus, except [BIG_NUMBER] in [H] and [L] when both are the
    same swing bus. *)
Theorem Jacobian_matches_reference V theta G B P Q pq swing index :
  NoDup (labels V) -> NoDup (labels theta) ->
  NoDup (labels P) -> NoDup (labels Q) ->
  NoDup (df_index G) -> NoDup (df_index B) ->
  (forall k, k ∈ index ++ swing ++ pq -> k ∉ swing ->
     covered V theta G B P Q k) ->
  (forall k, k ∈ swing ++ pq -> k ∉ swing -> val V k ≠ 0) ->
  Jacobian_blocks V theta G B P Q pq swing index.
Proof.
  intros _ _ _ _ _ _ Hcov _.
  assert (forall k m, k ∈ index ++ swing ++ pq -> m ∈ index ++ swing ++ pq ->
            ~ swing_pair swing k m ->
            covered V theta G B P Q k /\ covered V theta G B P Q m) as Hpair.
  { intros k m Hk Hm Hsw. unfold swing_pair in Hsw. split; apply Hcov; tauto. }
  assert (forall k, k ∈ index -> k ∈ index ++ swing ++ pq) as Hidx.
  { intros k ?. apply elem_of_app. by left. }
  assert (forall k, k ∈ swing ++ pq -> k ∈ index ++ swing ++ pq) as Hsq.
  { intros k ?. apply elem_of_app. by right. }
  destruct (fill_matrix_block index index
              (entry_H V theta G B Q swing) (H_ref V theta G B Q swing))
    as (H & HH & HbH).
  { intros k m ? ?. apply (entry_H_ref V theta G B P). auto. }
  destruct (fill_matrix_block index (swing ++ pq)
              (entry_N V theta G B P swing) (N_ref V theta G B P swing))
    as (N & HN & HbN).
  { intros k m ? ?. apply (entry_N_ref V theta G B P Q). auto. }
  destruct (fill_matrix_block (swing ++ pq) index
              (entry_M V theta G B P swing) (M_ref V theta G B P swing))
    as (M & HM & HbM).
  { intros k m ? ?. apply (entry_M_ref V theta G B P Q). auto. }
  destruct (fill_matrix_block (swing ++ pq) (swing ++ pq)
              (entry_L V theta G B Q swing) (L_ref V theta G B Q swing))
    as (L & HL & HbL).
  { intros k m ? ?. apply (entry_L_ref V theta G B P). auto. }
  exists H, N, M, L.
  unfold _build, _build_H, _build_N, _build_M, _build_L.
  rewrite HH, HN, HM, HL. simpl.
  repeat (split; [done|]).
  apply shape_vstack; apply shape_hstack; by (apply HbH || apply HbN || apply HbM || apply HbL).
Qed.

(** ** newtonraphson.py: the loop *)

Lemma solve_loop_exhausted nan linalg_solve self r i V theta V' theta' :
  run_updates nan linalg_solve self r V theta = Some (V', theta') ->
  solve_loop nan linalg_solve self r i V theta
    = Ok (V', theta', false, nr_max_iter self).
Proof.
  revert i V theta. induction r as [|r IH]; intros i V theta; simpl.
  - by intros [= <- <-].
  - destruct (iteration nan linalg_solve self V theta) as [[|V1 theta1]|e];
      simpl; [done| |done].
    apply IH.
Qed.

(** Every result of [solve] is the state after some number of corrections;
    the flag is true only if the pass after them met the tolerance. *)
Lemma solve_loop_inv nan linalg_solve self r i V theta V' theta' conv n :
  solve_loop nan linalg_solve self r i V theta = Ok (V', theta', conv, n) ->
  exists k, (k <= r)%nat /\
    run_updates nan linalg_solve self k V theta = Some (V', theta') /\
    if conv then
      n = S (i + k) /\ (k < r)%nat /\
      iteration nan linalg_solve self V' theta' = Ok Converged
    else n = nr_max_iter self /\ k = r.
Proof.
  revert i V theta. induction r as [|r IH]; intros i V theta; simpl.
  - intros [= <- <- <- <-]. exists 0%nat. by repeat split.
  - destruct (iteration nan linalg_solve self V theta) as [[|V1 theta1]|e] eqn:Hit;
      simpl; [| |done].
    + intros [= <- <- <- <-]. exists 0%nat. simpl.
      repeat split; [lia|f_equal; lia|lia|done].
    + intros (k & Hk & Hrun & Hconv)%IH. exists (S k). simpl. rewrite Hit.
      split; [lia|]. split; [done|].
      destruct conv; [|by destruct Hconv as [-> ->]].
      destruct Hconv as (-> & ? & ?). repeat split; [lia|lia|done].
Qed.

(** C9. When none of the [max_iter] passes converges or raises, [solve]
    performs exactly those [max_iter] corrections and returns the last
    corrected state with the flag false and the count [max_iter]; in
    particular it does not return the flag true. *)
Theorem solve_exhausts_iterations nan linalg_solve self V' theta' :
  run_updates nan linalg_solve self (nr_max_iter self) (nr_V self) (nr_theta self)
    = Some (V', theta') ->
  solve nan linalg_solve self = Ok (V', theta', false, nr_max_iter self) /\
  forall V1 theta1 n, solve nan linalg_solve self ≠ Ok (V1, theta1, true, n).
Proof.
  intros Hrun.
  assert (solve nan linalg_solve self = Ok (V', theta', false, nr_max_iter self))
    as Hsolve by (by apply solve_loop_exhausted).
  split; [done|]. intros V1 theta1 n. by rewrite Hsolve.
Qed.

(** ** Rows of the Jacobian and the linear system *)

Lemma dot_cons (a : R) (r : list R) (b : R) (x : list R) :
  dot (a :: r) (b :: x) = a * b + dot r x.
Proof. reflexivity. Qed.

Lemma dot_nil_r (r : list R) : dot r [] = 0.
Proof. by destruct r. Qed.

Lemma dot_zero (r x : list R) :
  (forall j v, r !! j = Some v -> v = 0) -> dot r x = 0.
Proof.
  revert x. induction r as [|a r IH]; intros x Hz; [done|].
  destruct x as [|b x]; [done|]. rewrite dot_cons.
  rewrite (Hz 0%nat a) by done. rewrite IH; [lra|].
  intros j v Hj. by apply (Hz (S j)).
Qed.

Lemma dot_unit (r x : list R) (i : nat) (b c : R) :
  r !! i = Some b -> x !! i = Some c ->
  (forall j v, j ≠ i -> r !! j = Some v -> v = 0) ->
  dot r x = b * c.
Proof.
  revert r x. induction i as [|i IH]; intros [|a r] [|d x] Hb Hc Hz;
    simplify_eq/=.
  - rewrite dot_cons, dot_zero; [lra|].
    intros j v Hj. by apply (Hz (S j)).
  - rewrite dot_cons. rewrite (Hz 0%nat a) by done.
    rewrite (IH r x); [lra|done|done|].
    intros j v ? ?. apply (Hz (S j)); [lia|done].
Qed.

Lemma dot_app (r1 r2 x : list R) :
  (length r1 <= length x)%nat ->
  dot (r1 ++ r2) x =
  dot r1 (take (length r1) x) + dot r2 (drop (length r1) x).
Proof.
  revert x. induction r1 as [|a r1 IH]; intros x Hlen; simpl.
  - rewrite drop_0. unfold dot at 2. simpl. lra.
  - destruct x as [|b x]; simpl in *; [lia|].
    rewrite !dot_cons, IH by lia. lra.
Qed.

Lemma mat_vec_lookup (J : list (list R)) (x : list R) (i : nat) (row : list R) :
  J !! i = Some row -> mat_vec J x !! i = Some (dot row x).
Proof. intros Hrow. unfold mat_vec. by rewrite list_lookup_fmap, Hrow. Qed.

(** A row of a filled block holds the entries of its row bus. *)
Lemma fill_matrix_row rows cols entry A i k :
  fill_matrix rows cols entry = Ok A -> rows !! i = Some k ->
  exists row, A !! i = Some row /\ length row = length cols /\
    forall j m, cols !! j = Some m ->
      exists v, row !! j = Some v /\ entry k m = Ok v.
Proof.
  intros HA Hk. unfold fill_matrix in HA.
  eapply fill_rows_spec in HA as ([Hn Hm] & Hset & _); [|apply shape_zeros|done].
  destruct (lookup_lt_is_Some_2 A i) as [row Hrow].
  { rewrite Hn. by eapply lookup_lt_Some. }
  exists row. split; [done|].
  assert (length row = length cols) as Hlen.
  { rewrite Forall_forall in Hm. apply Hm. by eapply list_elem_of_lookup_2. }
  split; [done|]. intros j m Hj.
  destruct (lookup_lt_is_Some_2 row j) as [v Hv].
  { rewrite Hlen. by eapply lookup_lt_Some. }
  exists v. split; [done|].
  rewrite (Hset i j k m Hk Hj). unfold mat_get. by rewrite Hrow; simpl; rewrite Hv.
Qed.

Lemma fill_matrix_length rows cols entry A :
  fill_matrix rows cols entry = Ok A -> length A = length rows.
Proof.
  intros HA. unfold fill_matrix in HA.
  by eapply fill_rows_spec in HA as ([Hn _] & _ & _); [|apply shape_zeros|done].
Qed.

(** The row of a swing bus is zero in [N] and [M]. *)
Lemma swing_row_zero rows cols entry A i s row :
  fill_matrix rows cols entry = Ok A -> rows !! i = Some s ->
  (forall m, entry s m = Ok 0) ->
  A !! i = Some row ->
  length row = length cols /\ forall j v, row !! j = Some v -> v = 0.
Proof.
  intros HA Hs Hent Hrow.
  destruct (fill_matrix_row _ _ _ _ _ _ HA Hs) as (row' & Hrow' & Hlen & Hval).
  simplify_eq. split; [done|]. intros j v Hv.
  destruct (lookup_lt_is_Some_2 cols j) as [m Hm].
  { rewrite <- Hlen. by eapply lookup_lt_Some. }
  destruct (Hval j m Hm) as (v' & Hv' & He). rewrite Hent in He. by simplify_eq.
Qed.

(** The row of a swing bus in [H] and [L] has [BIG_NUMBER] in the column of
    that bus and zero elsewhere. *)
Lemma swing_row_unit rows cols entry A i p s row :
  fill_matrix rows cols entry = Ok A -> rows !! i = Some s ->
  NoDup cols -> cols !! p = Some s ->
  (forall m, entry s m = Ok (if decide (s = m) then BIG_NUMBER else 0)) ->
  A !! i = Some row ->
  length row = length cols /\ row !! p = Some BIG_NUMBER /\
  forall j v, j ≠ p -> row !! j = Some v -> v = 0.
Proof.
  intros HA Hs Hnd Hp Hent Hrow.
  destruct (fill_matrix_row _ _ _ _ _ _ HA Hs) as (row' & Hrow' & Hlen & Hval).
  simplify_eq. split; [done|]. split.
  - destruct (Hval p s Hp) as (v & Hv & He). rewrite Hent in He.
    rewrite decide_True in He by done. by simplify_eq.
  - intros j v Hj Hv.
    destruct (lookup_lt_is_Some_2 cols j) as [m Hm].
    { rewrite <- Hlen. by eapply lookup_lt_Some. }
    destruct (Hval j m Hm) as (v' & Hv' & He). rewrite Hent in He.
    rewrite decide_False in He; [by simplify_eq|].
    intros <-. apply Hj. by eapply NoDup_lookup.
Qed.

Lemma entry_H_swing V theta G B Q swing s m :
  s ∈ swing ->
  entry_H V theta G B Q swing s m = Ok (if decide (s = m) then BIG_NUMBER else 0).
Proof.
  intros Hs. unfold entry_H, in_swing. by rewrite bool_decide_eq_true_2.
Qed.

Lemma entry_L_swing V theta G B Q swing s m :
  s ∈ swing ->
  entry_L V theta G B Q swing s m = Ok (if decide (s = m) then BIG_NUMBER else 0).
Proof.
  intros Hs. unfold entry_L, in_swing. by rewrite bool_decide_eq_true_2.
Qed.

Lemma entry_N_swing V theta G B P swing s m :
  s ∈ swing -> entry_N V theta G B P swing s m = Ok 0.
Proof.
  intros Hs. unfold entry_N, in_swing. by rewrite bool_decide_eq_true_2.
Qed.

Lemma entry_M_swing V theta G B P swing s m :
  s ∈ swing -> entry_M V theta G B P swing s m = Ok 0.
Proof.
  intros Hs. unfold entry_M, in_swing. by rewrite bool_decide_eq_true_2.
Qed.

Lemma series_get_lookup (s : Series) (i : nat) (k : string) (v : R) :
  NoDup (labels s) -> s !! i = Some (k, v) -> series_get s k = Ok v.
Proof.
  revert i. induction s as [|[k' v'] s IH]; intros i Hnd Hi; [done|].
  simpl in Hnd. apply NoDup_cons in Hnd as [Hk' Hnd].
  destruct i as [|i]; simplify_eq/=.
  - by rewrite decide_True.
  - rewrite decide_False; [by eapply IH|].
    intros ->. apply Hk'. apply list_elem_of_fmap.
    exists (k, v). split; [done|]. by eapply list_elem_of_lookup_2.
Qed.

(** The mismatch at the position of a swing bus is zero. *)
Lemma mismatch_swing_position sel S pot_esp names swing nan d i s :
  (d0 ← delta_loop sel S pot_esp names (series_const nan names);
   Ok (zero_swing d0 swing)) = Ok d ->
  NoDup names -> names !! i = Some s -> s ∈ swing ->
  length (values d) = length names /\ values d !! i = Some 0.
Proof.
  intros Hd Hnd Hi Hs. apply mismatch_vector_Ok in Hd as [Hlab Hval].
  split.
  { unfold values. rewrite length_fmap.
    rewrite <- Hlab. unfold labels. by rewrite length_fmap. }
  destruct (Hval s) as (v & Hv & Hentry); [by eapply list_elem_of_lookup_2|].
  unfold mismatch_entry in Hentry. rewrite decide_True in Hentry by done. subst v.
  assert (labels d !! i = Some s) as Hli by (by rewrite Hlab).
  unfold labels in Hli. rewrite list_lookup_fmap in Hli.
  destruct (d !! i) as [[k v]|] eqn:Hdi; simpl in Hli; [|done].
  injection Hli as ->.
  unfold values. rewrite list_lookup_fmap, Hdi. simpl.
  apply series_get_lookup in Hdi; [|by rewrite Hlab]. congruence.
Qed.

Section SwingCorrections.
Variables (V theta : Series) (G B : DataFrame R) (P Q : Series).
Variables (pq swing index : list string).
Variables (H N M L : list (list R)).
Variables (mP mQ delta : list R).
Variable s : string.

Hypothesis HH : _build_H V theta G B Q swing index = Ok H.
Hypothesis HN : _build_N V theta G B P pq swing index = Ok N.
Hypothesis HM : _build_M V theta G B P pq swing index = Ok M.
Hypothesis HL : _build_L V theta G B Q pq swing = Ok L.
Hypothesis Hlen : length delta = length (vstack (hstack H N) (hstack M L)).
Hypothesis Hsolve :
  mat_vec (vstack (hstack H N) (hstack M L)) delta = Ropp <$> (mP ++ mQ).
Hypothesis HmP : length mP = length index.
Hypothesis Hs : s ∈ swing.

Lemma length_upper : length (hstack H N) = length index.
Proof.
  unfold hstack. rewrite length_zip_with.
  rewrite (fill_matrix_length _ _ _ _ HH), (fill_matrix_length _ _ _ _ HN). lia.
Qed.

Lemma length_lower : length (hstack M L) = length (swing ++ pq).
Proof.
  unfold hstack. rewrite length_zip_with.
  rewrite (fill_matrix_length _ _ _ _ HM), (fill_matrix_length _ _ _ _ HL). lia.
Qed.

Lemma length_delta : length delta = (length index + length (swing ++ pq))%nat.
Proof.
  rewrite Hlen. unfold vstack. by rewrite length_app, length_upper, length_lower.
Qed.

(** The angle correction of a swing bus is zero. *)
Lemma swing_angle_correction i c :
  NoDup index -> index !! i = Some s -> mP !! i = Some 0 ->
  take (length index) delta !! i = Some c -> c = 0.
Proof.
  intros Hnd Hi Hmi Hc.
  destruct (fill_matrix_row _ _ _ _ _ _ HH Hi) as (rowH & HrowH & _).
  destruct (fill_matrix_row _ _ _ _ _ _ HN Hi) as (rowN & HrowN & _).
  destruct (swing_row_unit _ _ _ _ _ i _ _ HH Hi Hnd Hi
              (fun m => entry_H_swing V theta G B Q swing s m Hs) HrowH)
    as (HlenH & Hbig & Hzero).
  destruct (swing_row_zero _ _ _ _ _ _ _ HN Hi
              (fun m => entry_N_swing V theta G B P swing s m Hs) HrowN)
    as (_ & HzeroN).
  assert (vstack (hstack H N) (hstack M L) !! i = Some (rowH ++ rowN)) as Hrow.
  { unfold vstack. rewrite lookup_app_l.
    - unfold hstack. by rewrite lookup_zip_with, HrowH; simpl; rewrite HrowN.
    - rewrite length_upper. by eapply lookup_lt_Some. }
  apply (mat_vec_lookup _ delta) in Hrow. rewrite Hsolve in Hrow.
  rewrite list_lookup_fmap, lookup_app_l in Hrow
    by (rewrite HmP; by eapply lookup_lt_Some).
  rewrite Hmi in Hrow. simpl in Hrow. injection Hrow as Hrow.
  rewrite dot_app in Hrow by (rewrite HlenH, length_delta; lia).
  rewrite HlenH in Hrow.
  rewrite (dot_unit rowH _ i BIG_NUMBER c) in Hrow by done.
  rewrite (dot_zero rowN) in Hrow by done.
  unfold BIG_NUMBER in Hrow. lra.
Qed.

(** The magnitude correction of a swing bus is zero. *)
Lemma swing_magnitude_correction p c :
  NoDup (swing ++ pq) -> (swing ++ pq) !! p = Some s -> mQ !! p = Some 0 ->
  take (length (swing ++ pq)) (drop (length index) delta) !! p = Some c ->
  c = 0.
Proof.
  intros Hnd Hp Hmp Hc.
  destruct (fill_matrix_row _ _ _ _ _ _ HM Hp) as (rowM & HrowM & _).
  destruct (fill_matrix_row _ _ _ _ _ _ HL Hp) as (rowL & HrowL & _).
  destruct (swing_row_zero _ _ _ _ _ _ _ HM Hp
              (fun m => entry_M_swing V theta G B P swing s m Hs) HrowM)
    as (HlenM & HzeroM).
  destruct (swing_row_unit _ _ _ _ _ p _ _ HL Hp Hnd Hp
              (fun m => entry_L_swing V theta G B Q swing s m Hs) HrowL)
    as (_ & Hbig & Hzero).
  assert (vstack (hstack H N) (hstack M L) !! (length index + p)%nat
          = Some (rowM ++ rowL)) as Hrow.
  { unfold vstack. rewrite lookup_app_r by (rewrite length_upper; lia).
    rewrite length_upper. replace (length index + p - length index)%nat with p by lia.
    unfold hstack. by rewrite lookup_zip_with, HrowM; simpl; rewrite HrowL. }
  apply (mat_vec_lookup _ delta) in Hrow. rewrite Hsolve in Hrow.
  rewrite list_lookup_fmap, lookup_app_r in Hrow by (rewrite HmP; lia).
  rewrite HmP in Hrow.
  replace (length index + p - length index)%nat with p in Hrow by lia.
  rewrite Hmp in Hrow. simpl in Hrow. injection Hrow as Hrow.
  rewrite dot_app in Hrow by (rewrite HlenM, length_delta; lia).
  rewrite HlenM in Hrow.
  apply lookup_take_Some in Hc as [Hc _].
  rewrite (dot_zero rowM) in Hrow by done.
  rewrite (dot_unit rowL _ p BIG_NUMBER c) in Hrow by done.
  unfold BIG_NUMBER in Hrow. lra.
Qed.
End SwingCorrections.

(** ** newtonraphson.py: the swing bus *)

Lemma iteration_keeps_swing nan linalg_solve self V theta V' theta' s :
  solves linalg_solve ->
  NoDup (nr_index self) -> NoDup (nr_swing self ++ nr_pq self) ->
  s ∈ nr_swing self ->
  iteration nan linalg_solve self V theta = Ok (Updated V' theta') ->
  series_get theta' s = series_get theta s /\
  series_get V' s = series_get V s.
Proof.
  intros Hsol Hndi Hndq Hs Hit. unfold iteration in Hit.
  apply bind_Ok in Hit as ([P Q] & _ & Hit). cbn beta iota in Hit.
  apply bind_Ok in Hit as (dP & HdP & Hit).
  apply bind_Ok in Hit as (dQ & HdQ & Hit).
  apply bind_Ok in Hit as (conv & _ & Hit).
  destruct conv; [done|].
  apply bind_Ok in Hit as (J & HJ & Hit).
  apply bind_Ok in Hit as (delta & Hdelta & Hit).
  apply bind_Ok in Hit as ([theta1 V1] & Happly & Hit).
  cbn beta iota in Hit. injection Hit as <- <-.
  unfold _build in HJ.
  apply bind_Ok in HJ as (H & HH & HJ). apply bind_Ok in HJ as (N & HN & HJ).
  apply bind_Ok in HJ as (M & HM & HJ). apply bind_Ok in HJ as (L & HL & HJ).
  injection HJ as <-.
  apply Hsol in Hdelta as [Hlen Hmv].
  apply apply_delta_Ok in Happly as [Hth HV].
  rewrite calc_delta_p_unfold in HdP. rewrite calc_delta_q_unfold in HdQ.
  assert (length (values dP) = length (nr_index self)) as HlenP.
  { apply mismatch_vector_Ok in HdP as [Hlab _].
    unfold values. rewrite length_fmap, <- Hlab. unfold labels.
    by rewrite length_fmap. }
  split.
  - destruct (decide (s ∈ nr_index self)) as [Hin|Hout];
      [|by eapply subtract_corrections_frame].
    apply list_elem_of_lookup in Hin as [i Hi].
    destruct (subtract_corrections_at _ _ _ _ _ _ Hth Hndi Hi)
      as (old & c & Hold & Hc & ->).
    destruct (mismatch_swing_position _ _ _ _ _ _ _ _ _ HdP Hndi Hi Hs) as [_ Hzero].
    rewrite (swing_angle_correction _ _ _ _ _ _ _ _ _ _ _ _ _ _ _ _ _
               HH HN HM HL Hlen Hmv HlenP Hs i c Hndi Hi Hzero Hc).
    rewrite Hold. f_equal. lra.
  - assert (s ∈ nr_swing self ++ nr_pq self) as Hin
      by (apply elem_of_app; by left).
    apply list_elem_of_lookup in Hin as [p Hp].
    destruct (subtract_corrections_at _ _ _ _ _ _ HV Hndq Hp)
      as (old & c & Hold & Hc & ->).
    destruct (mismatch_swing_position _ _ _ _ _ _ _ _ _ HdQ Hndq Hp Hs) as [_ Hzero].
    rewrite (swing_magnitude_correction _ _ _ _ _ _ _ _ _ _ _ _ _ _ _ _ _
               HH HN HM HL Hlen Hmv HlenP Hs p c Hndq Hp Hzero Hc).
    rewrite Hold. f_equal. lra.
Qed.

Lemma run_updates_keep_swing nan linalg_solve self s :
  solves linalg_solve ->
  NoDup (nr_index self) -> NoDup (nr_swing self ++ nr_pq self) ->
  s ∈ nr_swing self ->
  forall k V theta V' theta',
    run_updates nan linalg_solve self k V theta = Some (V', theta') ->
    series_get theta' s = series_get theta s /\
    series_get V' s = series_get V s.
Proof.
  intros Hsol Hndi Hndq Hs.
  induction k as [|k IH]; intros V theta V' theta'; simpl.
  - by intros [= <- <-].
  - destruct (iteration nan linalg_solve self V theta) as [[|V1 theta1]|e] eqn:Hit;
      [done| |done].
    intros [Hth HV]%IH.
    destruct (iteration_keeps_swing _ _ _ _ _ _ _ s Hsol Hndi Hndq Hs Hit)
      as [Hth1 HV1].
    split; congruence.
Qed.

(** C2. In exact arithmetic, with a linear solver that returns a solution of
    the system it is given, and bus lists without repetition: after any
    number of corrections the angle and the voltage magnitude of a swing bus
    are the ones the solver started from; so are they in whatever [solve]
    returns. *)
Theorem swing_bus_invariant nan linalg_solve self s :
  solves linalg_solve ->
  NoDup (nr_index self) -> NoDup (nr_swing self ++ nr_pq self) ->
  s ∈ nr_swing self ->
  (forall k V' theta',
     run_updates nan linalg_solve self k (nr_V self) (nr_theta self)
       = Some (V', theta') ->
     series_get theta' s = series_get (nr_theta self) s /\
     series_get V' s = series_get (nr_V self) s) /\
  (forall V' theta' conv n,
     solve nan linalg_solve self = Ok (V', theta', conv, n) ->
     series_get theta' s = series_get (nr_theta self) s /\
     series_get V' s = series_get (nr_V self) s).
Proof.
  intros Hsol Hndi Hndq Hs. split.
  - intros k V' theta'. by apply run_updates_keep_swing.
  - intros V' theta' conv n (k & _ & Hrun & _)%solve_loop_inv.
    by eapply run_updates_keep_swing.
Qed.

(** ** The two-bus case, one pass *)

Local Ltac run :=
  cbv -[cos sin exp Rminus Rdiv Rplus Rmult Ropp Rinv IZR pow Rabs Rmax
        Rlt_dec Req_dec_T PI R_eq_dec Rlt_decision].

Lemma calc_injected_power_AB :
  calc_injected_power Ybus_AB V_AB theta_AB = Ok (zero_AB, zero_AB).
Proof.
  run. replace (0 - 0) with 0 by lra. rewrite sin_0, cos_0.
  repeat f_equal; lra.
Qed.

Lemma calc_delta_p_AB :
  calc_delta_p 0 zero_AB pot_esp_load ["A"; "B"] ["A"]
  = Ok [("A", 0); ("B", -1 - 0)].
Proof. reflexivity. Qed.

Lemma calc_delta_q_AB :
  calc_delta_q 0 zero_AB pot_esp_load ["B"] ["A"]
  = Ok [("A", 0); ("B", 0 - 0)].
Proof. reflexivity. Qed.

Lemma check_convergence_AB :
  check_convergence [0; -1 - 0; 0; 0 - 0] (1 / 1000000) = Ok false.
Proof.
  unfold check_convergence. simpl. f_equal. apply bool_decide_eq_false_2.
  intros Hlt.
  assert (1 <= Rmax (Rmax (Rmax (Rabs 0) (Rabs (-1 - 0))) (Rabs 0))
                    (Rabs (0 - 0))).
  { eapply Rle_trans; [|apply Rmax_l]. eapply Rle_trans; [|apply Rmax_l].
    eapply Rle_trans; [|apply Rmax_r].
    unfold Rabs. destruct (Rcase_abs (-1 - 0)); lra. }
  lra.
Qed.

Lemma _build_AB :
  _build V_AB theta_AB (df_map re Ybus_AB) (df_map im Ybus_AB) zero_AB zero_AB
    ["B"] ["A"] ["A"; "B"] = Ok eye4.
Proof. run. unfold eye4. repeat f_equal; lra. Qed.

Lemma solve_by_check_solves guess : solves (solve_by_check guess).
Proof.
  intros J b x. unfold solve_by_check.
  destruct (decide _) as [[? ?]|]; [|done]. by intros [= <-].
Qed.

Lemma solve_by_check_Ok guess J b :
  length guess = length J -> mat_vec J guess = b ->
  solve_by_check guess J b = Ok guess.
Proof. intros ? ?. unfold solve_by_check. by rewrite decide_True. Qed.

(** One pass on the two-bus case: the mismatch is 1 pu at B, the Jacobian is
    the identity, and the angle of B is corrected by 1 rad. *)
Lemma iteration_AB :
  iteration 0 (solve_by_check [0; 1; 0; 0]) nr_AB V_AB theta_AB
  = Ok (Updated [("A", 1 - 0); ("B", 1 - 0)] [("A", 0 - 0); ("B", 0 - 1)]).
Proof.
  unfold iteration, nr_AB.
  cbn [nr_Ybus nr_pot_esp nr_index nr_swing nr_pq nr_tol].
  rewrite calc_injected_power_AB. cbn [mbind result_bind].
  rewrite calc_delta_p_AB, calc_delta_q_AB. cbn [mbind result_bind].
  change (values [("A", 0); ("B", -1 - 0)] ++ values [("A", 0); ("B", 0 - 0)])
    with [0; -1 - 0; 0; 0 - 0].
  rewrite check_convergence_AB. cbn [mbind result_bind].
  rewrite _build_AB. cbn [mbind result_bind].
  rewrite solve_by_check_Ok.
  - reflexivity.
  - reflexivity.
  - unfold mat_vec, eye4, dot. simpl. repeat f_equal; lra.
Qed.

Lemma run_updates_AB :
  run_updates 0 (solve_by_check [0; 1; 0; 0]) nr_AB 1 V_AB theta_AB
  = Some ([("A", 1 - 0); ("B", 1 - 0)], [("A", 0 - 0); ("B", 0 - 1)]).
Proof. simpl. by rewrite iteration_AB. Qed.

Lemma solve_exhausts_iterations_witness :
  run_updates 0 (solve_by_check [0; 1; 0; 0]) nr_AB
    (nr_max_iter nr_AB) (nr_V nr_AB) (nr_theta nr_AB)
  = Some ([("A", 1 - 0); ("B", 1 - 0)], [("A", 0 - 0); ("B", 0 - 1)]) /\
  solve 0 (solve_by_check [0; 1; 0; 0]) nr_AB
  = Ok ([("A", 1 - 0); ("B", 1 - 0)], [("A", 0 - 0); ("B", 0 - 1)],
        false, 1%nat).
Proof.
  split; [exact run_updates_AB|].
  exact (proj1 (solve_exhausts_iterations 0 (solve_by_check [0; 1; 0; 0]) nr_AB
                  _ _ run_updates_AB)).
Defined.

Lemma swing_bus_invariant_witness :
  solves (solve_by_check [0; 1; 0; 0]) /\
  NoDup (nr_index nr_AB) /\
  NoDup (nr_swing nr_AB ++ nr_pq nr_AB) /\
  "A" ∈ nr_swing nr_AB /\
  run_updates 0 (solve_by_check [0; 1; 0; 0]) nr_AB 1 (nr_V nr_AB) (nr_theta nr_AB)
  = Some ([("A", 1 - 0); ("B", 1 - 0)], [("A", 0 - 0); ("B", 0 - 1)]) /\
  series_get [("A", 0 - 0); ("B", 0 - 1)] "A" = series_get (nr_theta nr_AB) "A" /\
  series_get [("A", 1 - 0); ("B", 1 - 0)] "A" = series_get (nr_V nr_AB) "A".
Proof.
  assert (NoDup (nr_index nr_AB)) as Hndi by (by apply (bool_decide_unpack _)).
  assert (NoDup (nr_swing nr_AB ++ nr_pq nr_AB)) as Hndq
    by (by apply (bool_decide_unpack _)).
  assert ("A" ∈ nr_swing nr_AB) as Hs by (by apply (bool_decide_unpack _)).
  split; [apply solve_by_check_solves|].
  split; [exact Hndi|]. split; [exact Hndq|]. split; [exact Hs|].
  split; [exact run_updates_AB|].
  exact (proj1 (swing_bus_invariant 0 (solve_by_check [0; 1; 0; 0]) nr_AB "A"
                  (solve_by_check_solves _) Hndi Hndq Hs)
               1%nat _ _ run_updates_AB).
Defined.

Lemma Jacobian_matches_reference_witness :
  NoDup (labels V_AB) /\ NoDup (labels theta_AB) /\ NoDup (labels zero_AB) /\
  NoDup (df_index (df_map re Ybus_AB)) /\ NoDup (df_index (df_map im Ybus_AB)) /\
  (forall k, k ∈ ["A"; "B"] ++ ["A"] ++ ["B"] -> k ∉ ["A"] ->
     covered V_AB theta_AB (df_map re Ybus_AB) (df_map im Ybus_AB)
             zero_AB zero_AB k) /\
  (forall k, k ∈ ["A"] ++ ["B"] -> k ∉ ["A"] -> val V_AB k ≠ 0) /\
  Jacobian_blocks V_AB theta_AB (df_map re Ybus_AB) (df_map im Ybus_AB)
    zero_AB zero_AB ["B"] ["A"] ["A"; "B"].
Proof.
  assert (forall k, k ∈ ["A"; "B"] ++ ["A"] ++ ["B"] -> k ∉ ["A"] ->
     covered V_AB theta_AB (df_map re Ybus_AB) (df_map im Ybus_AB)
             zero_AB zero_AB k) as Hcov.
  { intros k Hk Hns.
    assert (k = "B") as ->.
    { simpl in Hk. rewrite !elem_of_cons in Hk. rewrite elem_of_cons in Hns.
      destruct Hk as [->|[->|[->|[->|Hk]]]]; try done; try tauto. }
    repeat split; by apply (bool_decide_unpack _). }
  assert (NoDup (labels V_AB)) as HndV by (by apply (bool_decide_unpack _)).
  assert (NoDup (labels theta_AB)) as Hndt by (by apply (bool_decide_unpack _)).
  assert (NoDup (labels zero_AB)) as Hndz by (by apply (bool_decide_unpack _)).
  assert (NoDup (df_index (df_map re Ybus_AB))) as HndG
    by (by apply (bool_decide_unpack _)).
  assert (NoDup (df_index (df_map im Ybus_AB))) as HndB
    by (by apply (bool_decide_unpack _)).
  assert (forall k, k ∈ ["A"] ++ ["B"] -> k ∉ ["A"] -> val V_AB k ≠ 0) as HV.
  { intros k Hk Hns.
    assert (k = "B") as ->.
    { simpl in Hk. rewrite !elem_of_cons in Hk. rewrite elem_of_cons in Hns.
      destruct Hk as [->|[->|Hk]]; try done; try tauto. }
    change (val V_AB "B") with 1. lra. }
  split; [exact HndV|]. split; [exact Hndt|]. split; [exact Hndz|].
  split; [exact HndG|]. split; [exact HndB|].
  split; [exact Hcov|]. split; [exact HV|].
  exact (Jacobian_matches_reference V_AB theta_AB (df_map re Ybus_AB)
           (df_map im Ybus_AB) zero_AB zero_AB ["B"] ["A"] ["A"; "B"]
           HndV Hndt Hndz Hndz HndG HndB Hcov HV).
Defined.

(** ** newtonraphson.py: the partition built by the constructor *)

Lemma buses_of_type_sublist t dbus :
  buses_of_type t dbus `sublist_of` (row_barra <$> dbus).
Proof. unfold buses_of_type. apply fmap_sublist, sublist_filter. Qed.

Lemma buses_of_type_elem t dbus k :
  k ∈ buses_of_type t dbus ->
  exists r, r ∈ dbus /\ row_barra r = k /\ row_tipo r = t.
Proof.
  unfold buses_of_type. intros (r & -> & Hr)%list_elem_of_fmap.
  apply list_elem_of_filter in Hr as [? ?]. by exists r.
Qed.

Lemma NoDup_fmap_inj_on {A B} (f : A -> B) (l : list A) (x y : A) :
  NoDup (f <$> l) -> x ∈ l -> y ∈ l -> f x = f y -> x = y.
Proof.
  induction l as [|a l IH]; intros Hnd Hx Hy Hf; [by inversion Hx|].
  simpl in Hnd. apply NoDup_cons in Hnd as [Ha Hnd].
  apply elem_of_cons in Hx as [->|Hx]; apply elem_of_cons in Hy as [->|Hy];
    [done| | |by apply IH].
  - exfalso. apply Ha. rewrite Hf. by apply list_elem_of_fmap_2.
  - exfalso. apply Ha. rewrite <- Hf. by apply list_elem_of_fmap_2.
Qed.

(** A solver built from a system whose bus names are distinct has bus lists
    without repetition. *)
Lemma NewtonRaphson_init_partition sistema tol max_iter :
  NoDup (row_barra <$> sis_df_bus sistema) ->
  let self := NewtonRaphson_init sistema tol max_iter in
  NoDup (nr_index self) /\ NoDup (nr_swing self ++ nr_pq self).
Proof.
  intros Hnd self. split; [done|]. simpl.
  apply NoDup_app. split; [|split].
  - eapply sublist_NoDup; [done|apply buses_of_type_sublist].
  - intros k (r1 & Hr1 & <- & Ht1)%buses_of_type_elem
             (r2 & Hr2 & Heq & Ht2)%buses_of_type_elem.
    assert (r2 = r1) as -> by (by eapply NoDup_fmap_inj_on).
    congruence.
  - eapply sublist_NoDup; [done|apply buses_of_type_sublist].
Qed.

(** ** solver/power_balance.py: the values of the injections *)

Lemma index_of_lookup (l : list string) (k : string) (i : nat) :
  index_of l k = Ok i -> l !! i = Some k.
Proof.
  revert i. induction l as [|k' l IH]; intros i; simpl; [done|].
  destruct (decide (k' = k)) as [->|Hne]; [by intros [= <-]|].
  destruct (index_of l k) as [i'|e]; simpl; [|done].
  intros [= <-]. simpl. by apply IH.
Qed.

(** Reading the realigned frame by label gives what the original frame holds
    for that pair of labels. *)
Lemma df_reindex_loc {A} (d : A) (df df' : DataFrame A) (ordem : list string)
    (k m : string) :
  df_reindex d df ordem = Ok df' -> k ∈ ordem -> m ∈ ordem ->
  df_loc d df' k m = df_loc d df k m.
Proof.
  unfold df_reindex. intros (pos & Hpos & [= <-])%bind_Ok Hk Hm.
  apply traverse_Ok in Hpos. unfold df_loc. simpl.
  destruct (index_of_elem _ _ Hk) as [i Hi].
  destruct (index_of_elem _ _ Hm) as [j Hj]. rewrite Hi, Hj. simpl.
  apply index_of_lookup in Hi, Hj.
  destruct (Forall2_lookup_l _ _ _ _ _ Hpos Hi) as (p & Hp & ->).
  destruct (Forall2_lookup_l _ _ _ _ _ Hpos Hj) as (q & Hq & ->).
  simpl. f_equal. unfold mat_get at 1.
  rewrite list_lookup_fmap, Hp. simpl. by rewrite list_lookup_fmap, Hq.
Qed.

Lemma val_get (s : Series) (k : string) (v : R) :
  series_get s k = Ok v -> val s k = v.
Proof. intros Hv. unfold val. by rewrite Hv. Qed.

Lemma val2_loc (df : DataFrame R) (k m : string) (v : R) :
  df_loc 0 df k m = Ok v -> val2 df k m = v.
Proof. intros Hv. unfold val2. by rewrite Hv. Qed.

Lemma injection_step_Ok G B V theta k P Q m P' Q' :
  injection_step G B V theta k (P, Q) m = Ok (P', Q') ->
  k ∈ labels P /\ k ∈ labels Q /\
  P' = series_set P k (val P k + P_term G B V theta k m) /\
  Q' = series_set Q k (val Q k + Q_term G B V theta k m).
Proof.
  unfold injection_step. simpl.
  intros (th_k & Hthk & (th_m & Hthm & (P_k & HPk & (V_k & HVk & (V_m & HVm &
    (G_km & HG & (B_km & HB & (Q_k & HQk & [= <- <-])%bind_Ok)%bind_Ok)%bind_Ok)
    %bind_Ok)%bind_Ok)%bind_Ok)%bind_Ok)%bind_Ok.
  split; [by eapply series_get_Ok_elem|]. split; [by eapply series_get_Ok_elem|].
  unfold P_term, Q_term.
  by rewrite (val_get _ _ _ Hthk), (val_get _ _ _ Hthm), (val_get _ _ _ HPk),
    (val_get _ _ _ HVk), (val_get _ _ _ HVm), (val_get _ _ _ HQk),
    (val2_loc _ _ _ _ HG), (val2_loc _ _ _ _ HB).
Qed.

Lemma val_series_set_eq (s : Series) (k : string) (v : R) :
  val (series_set s k v) k = v.
Proof. apply val_get, series_get_set_eq. Qed.

(** The inner loop adds to the entries of [k] the terms of the visited [m]
    and touches no other entry. *)
Lemma injection_row_Ok G B V theta k ms P Q P' Q' :
  foldM (injection_step G B V theta k) (P, Q) ms = Ok (P', Q') ->
  labels P' = labels P /\ labels Q' = labels Q /\
  val P' k = foldl (fun acc m => acc + P_term G B V theta k m) (val P k) ms /\
  val Q' k = foldl (fun acc m => acc + Q_term G B V theta k m) (val Q k) ms /\
  (forall k', k' ≠ k -> series_get P' k' = series_get P k') /\
  (forall k', k' ≠ k -> series_get Q' k' = series_get Q k').
Proof.
  revert P' Q'. induction ms as [|m ms IH] using rev_ind; intros P' Q'.
  - by intros [= <- <-].
  - rewrite foldM_snoc.
    intros ([P1 Q1] & H1 & Hstep)%bind_Ok.
    apply IH in H1 as (HlP & HlQ & HvP & HvQ & HoP & HoQ).
    apply injection_step_Ok in Hstep as (HkP & HkQ & -> & ->).
    rewrite !foldl_app. simpl. rewrite <- HvP, <- HvQ.
    rewrite !labels_series_set, !val_series_set_eq by done.
    repeat split; try done.
    + intros k' Hk'. rewrite series_get_set_ne by done. by apply HoP.
    + intros k' Hk'. rewrite series_get_set_ne by done. by apply HoQ.
Qed.

Lemma val_ext (s s' : Series) (k : string) :
  series_get s' k = series_get s k -> val s' k = val s k.
Proof. intros Heq. unfold val. by rewrite Heq. Qed.

(** The outer loop gives every visited bus its full sum and leaves the
    others alone. *)
Lemma injection_rows_Ok G B V theta cols ks P Q P' Q' :
  NoDup ks ->
  foldM (fun PQ k => foldM (injection_step G B V theta k) PQ cols) (P, Q) ks
    = Ok (P', Q') ->
  labels P' = labels P /\ labels Q' = labels Q /\
  (forall k, k ∈ ks ->
     val P' k = foldl (fun acc m => acc + P_term G B V theta k m) (val P k) cols /\
     val Q' k = foldl (fun acc m => acc + Q_term G B V theta k m) (val Q k) cols) /\
  (forall k, k ∉ ks ->
     series_get P' k = series_get P k /\ series_get Q' k = series_get Q k).
Proof.
  revert P' Q'. induction ks as [|x ks IH] using rev_ind; intros P' Q' Hnd.
  - intros [= <- <-]. split; [done|]. split; [done|].
    split; [intros k Hk; by inversion Hk|done].
  - apply NoDup_app in Hnd as (Hnd & Hx & _).
    rewrite foldM_snoc. intros ([P1 Q1] & H1 & Hrow)%bind_Ok.
    apply IH in H1 as (HlP & HlQ & Hin & Hout); [|done].
    apply injection_row_Ok in Hrow as (HlP' & HlQ' & HvP & HvQ & HoP & HoQ).
    assert (x ∉ ks) as Hxks.
    { intros ?. eapply Hx; [done|by left]. }
    split; [congruence|]. split; [congruence|]. split.
    + intros k [Hk|Hk]%elem_of_app.
      * assert (k ≠ x) by (by intros ->).
        destruct (Hin k Hk) as [<- <-].
        split; apply val_ext; [by apply HoP|by apply HoQ].
      * apply list_elem_of_singleton in Hk as ->.
        destruct (Hout x Hxks) as [HP1 HQ1].
        rewrite HvP, HvQ. by rewrite (val_ext _ _ _ HP1), (val_ext _ _ _ HQ1).
    + intros k Hk. rewrite not_elem_of_app, not_elem_of_cons in Hk.
      destruct Hk as [Hk [Hkx _]]. destruct (Hout k Hk) as [<- <-].
      split; [by apply HoP|by apply HoQ].
Qed.

Lemma foldl_plus_ext (f g : string -> R) (l : list string) (a : R) :
  (forall m, m ∈ l -> f m = g m) ->
  foldl (fun acc m => acc + f m) a l = foldl (fun acc m => acc + g m) a l.
Proof.
  revert a. induction l as [|m l IH]; intros a Hfg; [done|].
  simpl. rewrite (Hfg m) by (by left). apply IH.
  intros m' ?. apply Hfg. by right.
Qed.

Lemma val_series_const (index : list string) (k : string) :
  val (series_const 0 index) k = 0.
Proof.
  unfold val. induction index as [|k' index IH]; simpl; [done|].
  by destruct (decide (k' = k)).
Qed.

(** Whenever the evaluation returns, and the buses of [V] are distinct, the
    injections are the sums of section 4.2, with the matrix read by label. *)
Lemma calc_injected_power_values Ybus V theta P Q :
  NoDup (labels V) ->
  calc_injected_power Ybus V theta = Ok (P, Q) ->
  labels P = labels V /\ labels Q = labels V /\
  forall k, k ∈ labels V ->
    series_get P k = Ok (P_inj Ybus V theta k) /\
    series_get Q k = Ok (Q_inj Ybus V theta k).
Proof.
  intros Hnd. unfold calc_injected_power.
  intros (G & HG & (B & HB & Hrest)%bind_Ok)%bind_Ok.
  repeat (case_match; [done|]).
  apply injection_rows_Ok in Hrest as (HlP & HlQ & Hin & _); [|done].
  rewrite labels_series_const in HlP, HlQ.
  split; [done|]. split; [done|]. intros k Hk.
  destruct (Hin k Hk) as [HvP HvQ].
  rewrite val_series_const in HvP, HvQ.
  rewrite (series_get_val P k), (series_get_val Q k) by congruence.
  rewrite HvP, HvQ. unfold P_inj, Q_inj.
  split; f_equal; apply foldl_plus_ext; intros m Hm.
  - unfold P_term, val2.
    by rewrite (df_reindex_loc _ _ _ _ _ _ HG Hk Hm),
               (df_reindex_loc _ _ _ _ _ _ HB Hk Hm).
  - unfold Q_term, val2.
    by rewrite (df_reindex_loc _ _ _ _ _ _ HG Hk Hm),
               (df_reindex_loc _ _ _ _ _ _ HB Hk Hm).
Qed.

(** C8, amended.  The evaluation aborts with a [KeyError] when a bus of [V]
    is not a label of the matrix, and, for a matrix without repeated labels
    that has all the buses of [V], with an [AssertionError] when [theta] does
    not list the buses of [V] in the same order.  When the matrix and [V] have
    no repeated label, the matrix has all the buses of [V] and [theta] is
    aligned with [V], it returns [P] and [Q] labelled as [V], whatever the
    order of the matrix labels: the matrix is read by label, and the values
    are the sums of section 4.2. *)
Theorem calc_injected_power_alignment Ybus V theta :
  ((exists k, k ∈ labels V /\ k ∉ df_index Ybus) ->
   exists msg, calc_injected_power Ybus V theta = Err (KeyError msg)) /\
  (NoDup (df_index Ybus) ->
   (forall k, k ∈ labels V -> k ∈ df_index Ybus) ->
   labels theta ≠ labels V ->
   calc_injected_power Ybus V theta
     = Err (AssertionError "Erro: índices de theta e V não coincidem")) /\
  (NoDup (df_index Ybus) -> NoDup (labels V) ->
   (forall k, k ∈ labels V -> k ∈ df_index Ybus) ->
   labels theta = labels V ->
   exists P Q, calc_injected_power Ybus V theta = Ok (P, Q) /\
     labels P = labels V /\ labels Q = labels V /\
     forall k, k ∈ labels V ->
       series_get P k = Ok (P_inj Ybus V theta k) /\
       series_get Q k = Ok (Q_inj Ybus V theta k)).
Proof.
  split; [|split].
  - intros Hmiss. unfold calc_injected_power.
    destruct (df_reindex_Err 0 (df_map re Ybus) (labels V) Hmiss)
      as (k & ? & ? & ->). by exists k.
  - intros _ Hin Hth. unfold calc_injected_power.
    destruct (df_reindex_Ok 0 (df_map re Ybus) (labels V) Hin) as (G & -> & HG).
    destruct (df_reindex_Ok 0 (df_map im Ybus) (labels V) Hin) as (B & -> & HB).
    simpl. rewrite !bool_decide_eq_true_2 by done. simpl.
    by rewrite bool_decide_eq_false_2.
  - intros _ Hnd Hin Hth.
    destruct (calc_injected_power_total Ybus V theta Hin Hth)
      as (P & Q & HPQ & HlP & HlQ).
    exists P, Q. repeat (split; [done|]).
    by apply (calc_injected_power_values Ybus V theta P Q Hnd HPQ).
Qed.

Lemma calc_injected_power_alignment_witness :
  NoDup (df_index Ybus_AB) /\ NoDup (labels V_BA) /\
  (forall k, k ∈ labels V_BA -> k ∈ df_index Ybus_AB) /\
  labels theta_BA = labels V_BA /\
  exists P Q, calc_injected_power Ybus_AB V_BA theta_BA = Ok (P, Q) /\
    labels P = labels V_BA /\ labels Q = labels V_BA /\
    forall k, k ∈ labels V_BA ->
      series_get P k = Ok (P_inj Ybus_AB V_BA theta_BA k) /\
      series_get Q k = Ok (Q_inj Ybus_AB V_BA theta_BA k).
Proof.
  assert (NoDup (df_index Ybus_AB)) as HndY by (by apply (bool_decide_unpack _)).
  assert (NoDup (labels V_BA)) as HndV by (by apply (bool_decide_unpack _)).
  assert (forall k, k ∈ labels V_BA -> k ∈ df_index Ybus_AB) as Hin.
  { intros k [->|[->|Hk]%elem_of_cons]%elem_of_cons;
      [by apply (bool_decide_unpack _)..|by inversion Hk]. }
  split; [exact HndY|]. split; [exact HndV|]. split; [exact Hin|].
  split; [reflexivity|].
  exact (proj2 (proj2 (calc_injected_power_alignment Ybus_AB V_BA theta_BA))
           HndY HndV Hin eq_refl).
Defined.

(** On the sample with matrix labels A, B and vectors labelled B, A the
    injection at B is read from the row of B. *)
Example calc_injected_power_BA :
  exists P Q, calc_injected_power Ybus_AB V_BA theta_BA = Ok (P, Q) /\
    series_get P "B" = Ok (P_inj Ybus_AB V_BA theta_BA "B").
Proof.
  destruct (calc_injected_power_total Ybus_AB V_BA theta_BA)
    as (P & Q & HPQ & _); [|done|].
  { intros k [->|[->|Hk]%elem_of_cons]%elem_of_cons;
      [by apply (bool_decide_unpack _)..|by inversion Hk]. }
  exists P, Q. split; [done|].
  eapply calc_injected_power_values; [|done|];
    by apply (bool_decide_unpack _).
Qed.

(** * Further properties of the code *)

(** ** Complex arithmetic *)

Lemma C_eq (a b : C) : re a = re b -> im a = im b -> a = b.
Proof. destruct a, b. simpl. by intros -> ->. Qed.

Lemma Cadd_comm (a b : C) : Cadd a b = Cadd b a.
Proof. apply C_eq; unfold Cadd; simpl; lra. Qed.

Lemma Cadd_assoc (a b c : C) : Cadd a (Cadd b c) = Cadd (Cadd a b) c.
Proof. apply C_eq; unfold Cadd; simpl; lra. Qed.

Lemma Cadd_0_l (a : C) : Cadd C0 a = a.
Proof. apply C_eq; unfold Cadd, C0; simpl; lra. Qed.

Lemma Cadd_0_r (a : C) : Cadd a C0 = a.
Proof. apply C_eq; unfold Cadd, C0; simpl; lra. Qed.

Lemma Cnorm2_pos (a : C) : a ≠ C0 -> 0 < Cnorm2 a.
Proof.
  intros Ha. unfold Cnorm2.
  destruct (Req_dec_T (re a) 0) as [Hr|Hr]; destruct (Req_dec_T (im a) 0) as [Hi|Hi];
    try nra.
  exfalso. apply Ha. by apply C_eq.
Qed.

Lemma Cexp_j (phi : R) : Cexp (Cmul Cj (RtoC phi)) = mkC (cos phi) (sin phi).
Proof.
  unfold Cexp, Cmul, Cj, RtoC. simpl.
  replace (0 * phi - 1 * 0) with 0 by ring. rewrite exp_0.
  replace (0 * 0 + 1 * phi) with phi by ring.
  apply C_eq; simpl; lra.
Qed.

(** ** ybus.py: accumulation, symmetry, inputs that do not matter *)

Lemma sum_at_app (i j : nat) (t1 t2 : list (nat * nat * C)) (base : C) :
  sum_at i j (t1 ++ t2) base = sum_at i j t2 (sum_at i j t1 base).
Proof. apply foldl_app. Qed.

Lemma sum_at_base (i j : nat) (terms : list (nat * nat * C)) (base : C) :
  sum_at i j terms base = Cadd base (sum_at i j terms C0).
Proof.
  revert base. induction terms as [|[[i' j'] y] terms IH]; intros base.
  - unfold sum_at. simpl. by rewrite Cadd_0_r.
  - assert (forall b, sum_at i j ((i', j', y) :: terms) b =
              sum_at i j terms
                (if decide ((i', j') = (i, j)) then Cadd b y else b)) as Hcons
      by done.
    rewrite !Hcons. destruct (decide ((i', j') = (i, j))); [|apply IH].
    rewrite (IH (Cadd base y)), (IH (Cadd C0 y)).
    by rewrite Cadd_0_l, Cadd_assoc.
Qed.

(** X1. Parallel elements add up: each entry of the returned matrix is the
    sum, taken from zero in the order lines, transformers, shunts, of the
    contributions that land on its position. *)
Theorem Ybus_entry_is_sum linhas transformadores barras shunts :
  match Ybus linhas transformadores barras shunts with
  | Ok Y =>
      exists terms,
        Ybus_terms linhas transformadores barras shunts = Ok terms /\
        forall i j, (i < length (df_index Y))%nat -> (j < length (df_index Y))%nat ->
          mat_get C0 (df_values Y) i j = sum_at i j terms C0
  | Err e => Ybus_terms linhas transformadores barras shunts = Err e
  end.
Proof.
  rewrite Ybus_unfold.
  destruct (Ybus_terms linhas transformadores barras shunts) as [terms|e]; simpl;
    [|done].
  exists terms. split; [done|]. intros i j Hi Hj.
  erewrite mat_get_add_terms by (try apply shape_zeros; done).
  by rewrite mat_get_zeros.
Qed.

Lemma Ybus_total linhas transformadores barras shunts :
  Forall (line_ok (sorted_names barras)) linhas ->
  Forall (trafo_ok (sorted_names barras)) transformadores ->
  exists Y, Ybus linhas transformadores barras shunts = Ok Y.
Proof.
  intros Hl Ht. rewrite Ybus_unfold.
  destruct (Ybus_terms_total linhas transformadores barras shunts Hl Ht)
    as [terms ->]. simpl. by eexists.
Qed.

Lemma line_off_ok : Forall (line_ok (sorted_names [busA; busB])) [line_off].
Proof.
  rewrite sorted_names_AB. apply Forall_singleton.
  split; [by apply (bool_decide_unpack _)|].
  split; [by apply (bool_decide_unpack _)|apply Cj_nonzero].
Qed.

Lemma sum_at_sym_app (t1 t2 : list (nat * nat * C)) :
  (forall a b, sum_at a b t1 C0 = sum_at b a t1 C0) ->
  (forall a b, sum_at a b t2 C0 = sum_at b a t2 C0) ->
  forall a b, sum_at a b (t1 ++ t2) C0 = sum_at b a (t1 ++ t2) C0.
Proof.
  intros H1 H2 a b. rewrite !sum_at_app.
  rewrite (sum_at_base a b t2), (sum_at_base b a t2). by rewrite H1, H2.
Qed.

Lemma sum_at_sym_concat (ts : list (list (nat * nat * C))) :
  Forall (fun t => forall a b, sum_at a b t C0 = sum_at b a t C0) ts ->
  forall a b, sum_at a b (concat ts) C0 = sum_at b a (concat ts) C0.
Proof.
  induction 1 as [|t ts Ht _ IH]; simpl; [done|]. by apply sum_at_sym_app.
Qed.

Lemma sum_at_sym_diag (i : nat) (v : C) (a b : nat) :
  sum_at a b [(i, i, v)] C0 = sum_at b a [(i, i, v)] C0.
Proof.
  unfold sum_at. simpl. repeat case_decide; simplify_eq; done.
Qed.

(** The four stamps of a line: the same value on both diagonal positions,
    the same value on both off-diagonal positions. *)
Lemma _admitancia_linha_stamps linha barra_map terms :
  _admitancia_linha linha barra_map = Ok terms ->
  exists i j d o, terms = [(i, i, d); (j, j, d); (i, j, o); (j, i, o)].
Proof.
  unfold _admitancia_linha.
  intros (i & _ & (j & _ & (y & _ & [= <-])%bind_Ok)%bind_Ok)%bind_Ok.
  by exists i, j, (Cadd y (mkC 0 (line_b linha / 2))), (Copp y).
Qed.

Lemma sum_at_sym_line (i j : nat) (d o : C) (a b : nat) :
  sum_at a b [(i, i, d); (j, j, d); (i, j, o); (j, i, o)] C0 =
  sum_at b a [(i, i, d); (j, j, d); (i, j, o); (j, i, o)] C0.
Proof.
  unfold sum_at. simpl.
  repeat case_decide; simplify_eq; try done; try apply Cadd_comm.
Qed.

Lemma sum_at_sym_shunts barra_map shunts (a b : nat) :
  sum_at a b (shunt_terms barra_map shunts) C0 =
  sum_at b a (shunt_terms barra_map shunts) C0.
Proof.
  revert a b. induction shunts as [|sh shunts IH]; [done|].
  unfold shunt_terms. simpl. fold (shunt_terms barra_map shunts).
  apply sum_at_sym_app; [|done]. intros a b.
  destruct (shunt_status sh); [|done].
  destruct (barra_map !! shunt_barra sh); [apply sum_at_sym_diag|done].
Qed.

(** X2. A network without transformers has a symmetric admittance matrix. *)
Theorem Ybus_symmetric_without_transformers linhas barras shunts Y :
  Ybus linhas [] barras shunts = Ok Y ->
  forall i j, (i < length (df_index Y))%nat -> (j < length (df_index Y))%nat ->
    mat_get C0 (df_values Y) i j = mat_get C0 (df_values Y) j i.
Proof.
  rewrite Ybus_unfold. unfold Ybus_terms.
  intros (terms & (lt & Hlt & [= <-])%bind_Ok & [= <-])%bind_Ok i j Hi Hj.
  simpl in *.
  erewrite !mat_get_add_terms by (try apply shape_zeros; done).
  rewrite !mat_get_zeros.
  apply sum_at_sym_app; [|apply sum_at_sym_shunts].
  apply sum_at_sym_concat. apply traverse_Ok in Hlt.
  apply Forall_forall. intros t Ht.
  apply list_elem_of_lookup in Ht as [n Hn].
  destruct (Forall2_lookup_r _ _ _ _ _ Hlt Hn) as (l & _ & Hl).
  apply _admitancia_linha_stamps in Hl as (i0 & j0 & d & o & ->).
  intros a b. apply sum_at_sym_line.
Qed.

Lemma Ybus_symmetric_without_transformers_witness :
  exists Y,
    Ybus [line_off] [] [busA; busB] [] = Ok Y /\
    mat_get C0 (df_values Y) 0 1 = mat_get C0 (df_values Y) 1 0.
Proof.
  destruct (Ybus_total [line_off] [] [busA; busB] [] line_off_ok) as [Y HY];
    [by constructor|].
  exists Y. split; [exact HY|].
  assert (df_index Y = ["A"; "B"]) as Hidx.
  { rewrite Ybus_unfold in HY. apply bind_Ok in HY as (terms & _ & [= <-]).
    apply sorted_names_AB. }
  apply (Ybus_symmetric_without_transformers [line_off] [busA; busB] [] Y HY);
    rewrite Hidx; simpl; lia.
Defined.

Lemma sorted_names_same_set (barras barras' : list Bus) :
  (forall k, k ∈ bus_nome <$> barras <-> k ∈ bus_nome <$> barras') ->
  sorted_names barras = sorted_names barras'.
Proof.
  intros Hset. unfold sorted_names. do 2 f_equal.
  apply set_eq. intros k. by rewrite !elem_of_list_to_set.
Qed.

(** X3. Only the set of bus names matters: the order of the bus list,
    repeated names and every other attribute of the buses leave the result
    (matrix, labels or exception) unchanged. *)
Theorem Ybus_bus_order_irrelevant linhas transformadores barras barras' shunts :
  (forall k, k ∈ bus_nome <$> barras <-> k ∈ bus_nome <$> barras') ->
  Ybus linhas transformadores barras shunts
  = Ybus linhas transformadores barras' shunts.
Proof.
  intros Hset. unfold Ybus. by rewrite (sorted_names_same_set barras barras').
Qed.

Lemma Ybus_bus_order_irrelevant_witness :
  (forall k, k ∈ bus_nome <$> [busA; busB] <->
             k ∈ bus_nome <$> [busB; busA; busB]) /\
  Ybus [line_off] [] [busA; busB] [] = Ybus [line_off] [] [busB; busA; busB] [].
Proof.
  assert (forall k, k ∈ bus_nome <$> [busA; busB] <->
                    k ∈ bus_nome <$> [busB; busA; busB]) as Hset.
  { intros k. simpl. rewrite !elem_of_cons. tauto. }
  split; [exact Hset|].
  exact (Ybus_bus_order_irrelevant [line_off] [] [busA; busB]
           [busB; busA; busB] [] Hset).
Defined.

Lemma barra_map_in_names (barras : list Bus) (k : string) :
  make_barra_map (sorted_names barras) !! k = None <-> k ∉ bus_nome <$> barras.
Proof.
  rewrite make_barra_map_None by apply sorted_names_NoDup.
  rewrite sorted_names_elem_of, list_elem_of_fmap.
  split; intros Hno (b & ? & ?); apply Hno; by exists b.
Qed.

Lemma shunt_terms_cons barra_map sh shunts :
  shunt_terms barra_map (sh :: shunts) =
  shunt_terms barra_map [sh] ++ shunt_terms barra_map shunts.
Proof. unfold shunt_terms. simpl. by rewrite app_nil_r. Qed.

Lemma shunt_terms_filter (barras : list Bus) (shunts : list Shunt) :
  shunt_terms (make_barra_map (sorted_names barras))
    (filter (fun s => shunt_status s = true /\
                      shunt_barra s ∈ bus_nome <$> barras) shunts)
  = shunt_terms (make_barra_map (sorted_names barras)) shunts.
Proof.
  induction shunts as [|sh shunts IH]; [done|].
  rewrite filter_cons, (shunt_terms_cons _ sh shunts).
  destruct (decide _) as [[Hst Hin]|Hno].
  - by rewrite shunt_terms_cons, IH.
  - rewrite IH. replace (shunt_terms _ [sh]) with (@nil (nat * nat * C)); [done|].
    unfold shunt_terms. simpl. apply not_and_l in Hno as [Hst|Hin].
    + by destruct (shunt_status sh).
    + apply barra_map_in_names in Hin. rewrite Hin.
      by destruct (shunt_status sh).
Qed.

(** X4. A shunt that is switched off, or whose bus is not in the bus list,
    adds nothing: the result is the one obtained from the in-service shunts
    of known buses. *)
Theorem Ybus_ignores_inactive_shunts linhas transformadores barras shunts :
  Ybus linhas transformadores barras shunts =
  Ybus linhas transformadores barras
    (filter (fun s => shunt_status s = true /\
                      shunt_barra s ∈ bus_nome <$> barras) shunts).
Proof.
  rewrite !Ybus_unfold. unfold Ybus_terms. by rewrite shunt_terms_filter.
Qed.

Lemma dict_get_Err (barras : list Bus) (k : string) (e : exn) :
  dict_get (make_barra_map (sorted_names barras)) k = Err e ->
  e = KeyError k /\ k ∉ bus_nome <$> barras.
Proof.
  unfold dict_get.
  destruct (make_barra_map (sorted_names barras) !! k) eqn:Hk; [done|].
  intros [= <-]. split; [done|]. by apply barra_map_in_names.
Qed.

Lemma py_cdiv_Err (a b : C) (e : exn) :
  py_cdiv a b = Err e -> e = ZeroDivisionError /\ b = C0.
Proof. unfold py_cdiv. destruct (decide (b = C0)); [by intros [= <-]|done]. Qed.


Lemma branch_Err (barras : list Bus) (de para : string) (r x : R) {A}
    (k : nat -> nat -> C -> result A) (e : exn) :
  (i ← dict_get (make_barra_map (sorted_names barras)) de;
   j ← dict_get (make_barra_map (sorted_names barras)) para;
   y ← py_cdiv (RtoC 1) (mkC r x);
   k i j y) = Err e ->
  (forall i j y, k i j y ≠ Err e) ->
  (exists n, e = KeyError n /\ (n ∉ bus_nome <$> barras) /\ (n = de \/ n = para)) \/
  (e = ZeroDivisionError /\ r = 0 /\ x = 0).
Proof.
  intros He Hk.
  destruct (dict_get _ de) as [i|e1] eqn:Hde; simpl in He.
  2:{ injection He as ->. apply dict_get_Err in Hde as [-> ?].
      left. exists de. auto. }
  destruct (dict_get _ para) as [j|e2] eqn:Hpara; simpl in He.
  2:{ injection He as ->. apply dict_get_Err in Hpara as [-> ?].
      left. exists para. auto. }
  destruct (py_cdiv (RtoC 1) (mkC r x)) as [y|e3] eqn:Hy; simpl in He.
  - by apply Hk in He.
  - injection He as ->. apply py_cdiv_Err in Hy as [-> [= -> ->]]. by right.
Qed.

(** X5. The construction raises only for a line or a transformer: a
    [KeyError] that names an endpoint which is not a bus name, or a
    [ZeroDivisionError] for an element with [r = x = 0]. *)
Theorem Ybus_error_cause linhas transformadores barras shunts e :
  Ybus linhas transformadores barras shunts = Err e ->
  (exists n, e = KeyError n /\ (n ∉ bus_nome <$> barras) /\
     ((exists l, l ∈ linhas /\ (n = line_de l \/ n = line_para l)) \/
      (exists t, t ∈ transformadores /\ (n = trafo_de t \/ n = trafo_para t)))) \/
  (e = ZeroDivisionError /\
     ((exists l, l ∈ linhas /\ line_r l = 0 /\ line_x l = 0) \/
      (exists t, t ∈ transformadores /\ trafo_r t = 0 /\ trafo_x t = 0))).
Proof.
  rewrite Ybus_unfold. unfold Ybus_terms.
  destruct (traverse _ linhas) as [lt|e1] eqn:Hlt; simpl.
  - destruct (traverse _ transformadores) as [tt|e2] eqn:Htt; simpl; [done|].
    intros [= ->]. apply traverse_Err in Htt as (t & Ht & He).
    unfold _admitancia_transformador in He.
    apply branch_Err in He as [(n & -> & ? & ?)|(-> & ? & ?)]; [| |done].
    + left. exists n. split; [done|]. split; [done|]. right. by exists t.
    + right. split; [done|]. right. by exists t.
  - intros [= ->]. apply traverse_Err in Hlt as (l & Hl & He).
    unfold _admitancia_linha in He.
    apply branch_Err in He as [(n & -> & ? & ?)|(-> & ? & ?)]; [| |done].
    + left. exists n. split; [done|]. split; [done|]. left. by exists l.
    + right. split; [done|]. left. by exists l.
Qed.

Lemma Ybus_error_cause_witness :
  Ybus [line_dangling] [] [busA; busB] [] = Err (KeyError "Z") /\
  "Z" ∉ bus_nome <$> [busA; busB].
Proof.
  assert (Ybus [line_dangling] [] [busA; busB] [] = Err (KeyError "Z")) as HY.
  { rewrite Ybus_unfold. unfold Ybus_terms. rewrite sorted_names_AB. simpl.
    unfold _admitancia_linha, dict_get. simpl line_de. simpl line_para.
    rewrite barra_map_AB_A.
    by replace (make_barra_map ["A"; "B"] !! "Z") with (@None nat)
      by (by vm_compute). }
  split; [exact HY|].
  destruct (Ybus_error_cause _ _ _ _ _ HY)
    as [(n & [= <-] & Hn & _)|[[=] _]].
  exact Hn.
Defined.

(** ** ybus.py: transformers without phase shift *)

Lemma tap_without_phase (tap : R) :
  Cmul (RtoC tap) (Cexp (Cmul Cj (RtoC (deg2rad 0)))) = RtoC tap.
Proof.
  rewrite Cexp_j. unfold deg2rad. replace (0 * (PI / 180)) with 0 by lra.
  rewrite cos_0, sin_0. unfold Cmul, RtoC. apply C_eq; simpl; ring.
Qed.

Lemma Cconj_RtoC (x : R) : Cconj (RtoC x) = RtoC x.
Proof. unfold Cconj, RtoC. apply C_eq; simpl; lra. Qed.

Lemma Cmul_RtoC (x y : R) : Cmul (RtoC x) (RtoC y) = RtoC (x * y).
Proof. unfold Cmul, RtoC. apply C_eq; simpl; ring. Qed.

(** The four stamps of a transformer whose phase attribute is zero: the
    complex tap is [tap + 0j], so both mutual terms are [-y / tap]. *)
Lemma _admitancia_transformador_no_phase t barra_map terms :
  trafo_fase t = 0 ->
  _admitancia_transformador t barra_map = Ok terms ->
  exists i j,
    barra_map !! trafo_de t = Some i /\ barra_map !! trafo_para t = Some j /\
    let y := y_series (trafo_r t) (trafo_x t) in
    let b := mkC 0 (trafo_b t / 2) in
    terms = [(i, i, Cadd (Cdiv y (RtoC (trafo_tap t * trafo_tap t))) b);
             (i, j, Cdiv (Copp y) (RtoC (trafo_tap t)));
             (j, i, Cdiv (Copp y) (RtoC (trafo_tap t)));
             (j, j, Cadd y b)].
Proof.
  intros Hfase. unfold _admitancia_transformador, dict_get, py_cdiv.
  destruct (barra_map !! trafo_de t) as [i|]; [|done].
  destruct (barra_map !! trafo_para t) as [j|]; [|done]. simpl.
  destruct (decide (mkC (trafo_r t) (trafo_x t) = C0)); [done|]. simpl.
  intros [= <-]. exists i, j. split; [done|]. split; [done|].
  rewrite Hfase, tap_without_phase, Cconj_RtoC, Cmul_RtoC. done.
Qed.

Lemma _admitancia_transformador_total_at t barra_map i j :
  barra_map !! trafo_de t = Some i ->
  barra_map !! trafo_para t = Some j ->
  mkC (trafo_r t) (trafo_x t) ≠ C0 ->
  exists terms, _admitancia_transformador t barra_map = Ok terms.
Proof.
  intros Hi Hj Hz.
  rewrite (_admitancia_transformador_degrees t barra_map i j Hi Hj Hz).
  by eexists.
Qed.

Lemma sum_at_sym_trafo (i j : nat) (d1 d2 o : C) (a b : nat) :
  sum_at a b [(i, i, d1); (i, j, o); (j, i, o); (j, j, d2)] C0 =
  sum_at b a [(i, i, d1); (i, j, o); (j, i, o); (j, j, d2)] C0.
Proof.
  unfold sum_at. simpl.
  repeat case_decide; simplify_eq; try done; try apply Cadd_comm.
Qed.

Lemma trafo_off_ok : Forall (trafo_ok (sorted_names [busA; busB])) [trafo_off].
Proof.
  rewrite sorted_names_AB. apply Forall_singleton.
  split; [by apply (bool_decide_unpack _)|].
  split; [by apply (bool_decide_unpack _)|apply Cj_nonzero].
Qed.

(** X6. A network whose transformers all have a phase attribute of zero and a
    nonzero tap has a symmetric admittance matrix: both mutual terms of such a
    transformer are [-y / tap], so the positions [(i, j)] and [(j, i)] receive
    the same contributions in the same order. *)
Theorem Ybus_symmetric_without_phase_shift linhas transformadores barras shunts Y :
  Forall (fun t => trafo_fase t = 0 /\ trafo_tap t ≠ 0) transformadores ->
  Ybus linhas transformadores barras shunts = Ok Y ->
  forall i j, (i < length (df_index Y))%nat -> (j < length (df_index Y))%nat ->
    mat_get C0 (df_values Y) i j = mat_get C0 (df_values Y) j i.
Proof.
  intros Hphase. rewrite Ybus_unfold. unfold Ybus_terms.
  intros (terms & (lt & Hlt & (tt & Htt & [= <-])%bind_Ok)%bind_Ok & [= <-])
    %bind_Ok i j Hi Hj.
  simpl in *.
  erewrite !mat_get_add_terms by (try apply shape_zeros; done).
  rewrite !mat_get_zeros.
  apply sum_at_sym_app; [|apply sum_at_sym_app; [|apply sum_at_sym_shunts]].
  - apply sum_at_sym_concat. apply traverse_Ok in Hlt.
    apply Forall_forall. intros t Ht.
    apply list_elem_of_lookup in Ht as [n Hn].
    destruct (Forall2_lookup_r _ _ _ _ _ Hlt Hn) as (l & _ & Hl).
    apply _admitancia_linha_stamps in Hl as (i0 & j0 & d & o & ->).
    intros a b. apply sum_at_sym_line.
  - apply sum_at_sym_concat. apply traverse_Ok in Htt.
    apply Forall_forall. intros ts Hts.
    apply list_elem_of_lookup in Hts as [n Hn].
    destruct (Forall2_lookup_r _ _ _ _ _ Htt Hn) as (t & Ht & Hst).
    rewrite Forall_forall in Hphase.
    destruct (Hphase t) as [Hfase _]; [by eapply list_elem_of_lookup_2|].
    apply _admitancia_transformador_no_phase in Hst
      as (i0 & j0 & _ & _ & ->); [|done].
    intros a b. apply sum_at_sym_trafo.
Qed.

Lemma Ybus_symmetric_without_phase_shift_witness :
  Forall (fun t => trafo_fase t = 0 /\ trafo_tap t ≠ 0) [trafo_off] /\
  exists Y,
    Ybus [line_off] [trafo_off] [busA; busB] [] = Ok Y /\
    mat_get C0 (df_values Y) 0 1 = mat_get C0 (df_values Y) 1 0.
Proof.
  assert (Forall (fun t => trafo_fase t = 0 /\ trafo_tap t ≠ 0) [trafo_off])
    as Hphase.
  { apply Forall_singleton. split; [reflexivity|simpl; lra]. }
  split; [exact Hphase|].
  destruct (Ybus_total [line_off] [trafo_off] [busA; busB] []
              line_off_ok trafo_off_ok) as [Y HY].
  exists Y. split; [exact HY|].
  assert (df_index Y = ["A"; "B"]) as Hidx.
  { pose proof HY as HY'. rewrite Ybus_unfold in HY'.
    apply bind_Ok in HY' as (terms & _ & [= <-]). apply sorted_names_AB. }
  apply (Ybus_symmetric_without_phase_shift [line_off] [trafo_off]
           [busA; busB] [] Y Hphase HY);
    rewrite Hidx; simpl; lia.
Defined.

(** ** ybus.py: a transformer with unit tap and no phase shift *)

Lemma Cdiv_unit (w a : C) : re a = 1 -> im a = 0 -> Cdiv w a = w.
Proof.
  destruct a as [ar ai]. simpl. intros -> ->.
  apply C_eq; unfold Cdiv, Cnorm2; simpl; field.
Qed.

Lemma unit_tap_re_im :
  re (Cmul (RtoC 1) (Cexp (Cmul Cj (RtoC (deg2rad 0))))) = 1 /\
  im (Cmul (RtoC 1) (Cexp (Cmul Cj (RtoC (deg2rad 0))))) = 0.
Proof.
  rewrite Cexp_j. unfold deg2rad.
  replace (0 * (PI / 180)) with 0 by lra. rewrite cos_0, sin_0.
  unfold Cmul, RtoC. simpl. lra.
Qed.

Lemma re_Cconj (a : C) : re (Cconj a) = re a.
Proof. done. Qed.

Lemma im_Cconj (a : C) : im (Cconj a) = - im a.
Proof. done. Qed.

Lemma unit_norm (a : C) :
  re a = 1 -> im a = 0 ->
  re (Cmul a (Cconj a)) = 1 /\ im (Cmul a (Cconj a)) = 0.
Proof.
  destruct a as [ar ai]. simpl. intros -> ->. unfold Cmul, Cconj. simpl. lra.
Qed.

(** The stamps of such a transformer are those of the line with the same
    endpoints and parameters, in another order. *)
Lemma unit_transformer_stamps (l : Line) (t : Transformer) barra_map :
  trafo_de t = line_de l -> trafo_para t = line_para l ->
  trafo_r t = line_r l -> trafo_x t = line_x l -> trafo_b t = line_b l ->
  trafo_tap t = 1 -> trafo_fase t = 0 ->
  match _admitancia_linha l barra_map, _admitancia_transformador t barra_map with
  | Ok tl, Ok tr => tr ≡ₚ tl
  | Err e, Err e' => e = e'
  | _, _ => False
  end.
Proof.
  intros Hde Hpara Hr Hx Hb Htap Hfase.
  unfold _admitancia_linha, _admitancia_transformador.
  rewrite Hde, Hpara, Hr, Hx, Hb, Htap, Hfase.
  destruct (dict_get barra_map (line_de l)) as [i|e]; simpl; [|done].
  destruct (dict_get barra_map (line_para l)) as [j|e]; simpl; [|done].
  destruct (py_cdiv (RtoC 1) (mkC (line_r l) (line_x l))) as [y|e]; simpl; [|done].
  destruct unit_tap_re_im as [Hre Him].
  rewrite (Cdiv_unit (Copp y) _ Hre Him).
  rewrite (Cdiv_unit (Copp y) (Cconj _))
    by (rewrite ?re_Cconj, ?im_Cconj; lra).
  rewrite (Cdiv_unit y (Cmul _ (Cconj _)))
    by (by apply unit_norm).
  set (d := Cadd y (mkC 0 (line_b l / 2))). set (o := Copp y).
  apply Permutation_skip.
  etrans; [apply Permutation_skip, Permutation_swap|apply Permutation_swap].
Qed.

Lemma sum_at_Permutation (i j : nat) (t1 t2 : list (nat * nat * C)) (base : C) :
  t1 ≡ₚ t2 -> sum_at i j t1 base = sum_at i j t2 base.
Proof.
  intros Hperm. revert base.
  induction Hperm as [|x t1 t2 _ IH|x y t|t1 t2 t3 _ IH1 _ IH2]; intros base.
  - done.
  - unfold sum_at. simpl. apply IH.
  - unfold sum_at. simpl. f_equal.
    repeat case_decide; try done.
    by rewrite <- !Cadd_assoc, (Cadd_comm y.2).
  - by rewrite IH1.
Qed.

Lemma matrix_ext {A} (d : A) (n m : nat) (M1 M2 : list (list A)) :
  shape n m M1 -> shape n m M2 ->
  (forall i j, (i < n)%nat -> (j < m)%nat -> mat_get d M1 i j = mat_get d M2 i j) ->
  M1 = M2.
Proof.
  intros H1 H2 Hget. apply list_eq_same_length with n; [apply H2|apply H1|].
  intros i r1 r2 Hi Hr1 Hr2.
  destruct H1 as [_ H1], H2 as [_ H2]. rewrite Forall_forall in H1, H2.
  apply list_eq_same_length with m;
    [apply H2; by eapply list_elem_of_lookup_2
    |apply H1; by eapply list_elem_of_lookup_2|].
  intros j x1 x2 Hj Hx1 Hx2. specialize (Hget i j Hi Hj).
  unfold mat_get in Hget. rewrite Hr1, Hr2 in Hget. simpl in Hget.
  by rewrite Hx1, Hx2 in Hget.
Qed.

Lemma traverse_snoc {A B} (f : A -> result B) (l : list A) (a : A) :
  traverse f (l ++ [a]) = bs ← traverse f l; b ← f a; Ok (bs ++ [b]).
Proof.
  induction l as [|x l IH]; simpl.
  - by destruct (f a).
  - destruct (f x) as [y|e]; simpl; [|done]. rewrite IH.
    destruct (traverse f l) as [bs|e]; simpl; [|done].
    by destruct (f a).
Qed.

(** X7. A branch between two different buses, with unit tap and no phase
    shift, gives the same result whether it is passed as the last line or as
    the first transformer (the reader of [.pwf] files builds a line in this
    case): every position receives the same contributions in the same
    order. *)
Theorem Ybus_unit_transformer_as_line linhas l t transformadores barras shunts :
  line_de l ≠ line_para l ->
  trafo_de t = line_de l -> trafo_para t = line_para l ->
  trafo_r t = line_r l -> trafo_x t = line_x l -> trafo_b t = line_b l ->
  trafo_tap t = 1 -> trafo_fase t = 0 ->
  Ybus (linhas ++ [l]) transformadores barras shunts
  = Ybus linhas (t :: transformadores) barras shunts.
Proof.
  intros _ Hde Hpara Hr Hx Hb Htap Hfase.
  rewrite !Ybus_unfold. unfold Ybus_terms. rewrite traverse_snoc. simpl.
  destruct (traverse _ linhas) as [lt|e]; simpl; [|done].
  pose proof (unit_transformer_stamps l t
    (make_barra_map (sorted_names barras)) Hde Hpara Hr Hx Hb Htap Hfase) as Hst.
  destruct (_admitancia_linha l _) as [tl|e1];
    destruct (_admitancia_transformador t _) as [tr|e2]; simpl; try done;
    [|by subst].
  destruct (traverse _ transformadores) as [tts|e]; simpl; [|done].
  do 2 f_equal.
  apply (matrix_ext C0 (length (sorted_names barras)) (length (sorted_names barras)));
    [apply shape_add_terms, shape_zeros..|].
  intros i j Hi Hj.
  erewrite !mat_get_add_terms by (try apply shape_zeros; done).
  apply sum_at_Permutation.
  rewrite concat_app. simpl. rewrite app_nil_r, <- !app_assoc.
  apply Permutation_app_head. by rewrite Hst.
Qed.

Lemma Ybus_unit_transformer_as_line_witness :
  line_de line_off ≠ line_para line_off /\
  trafo_de trafo_off = line_de line_off /\
  trafo_para trafo_off = line_para line_off /\
  trafo_r trafo_off = line_r line_off /\
  trafo_x trafo_off = line_x line_off /\
  trafo_b trafo_off = line_b line_off /\
  trafo_tap trafo_off = 1 /\ trafo_fase trafo_off = 0 /\
  Ybus ([] ++ [line_off]) [] [busA; busB] []
  = Ybus [] [trafo_off] [busA; busB] [].
Proof.
  assert (line_de line_off ≠ line_para line_off) as Hends by done.
  split; [exact Hends|].
  repeat (split; [reflexivity|]).
  apply (Ybus_unit_transformer_as_line [] line_off trafo_off [] [busA; busB] []);
    [exact Hends|reflexivity..].
Defined.

(** ** solver/residuals.py *)

Lemma traverse_series_get (s : Series) (idx : list string) :
  (forall k, k ∈ idx -> k ∈ labels s) ->
  traverse (series_get s) idx = Ok (val s <$> idx).
Proof.
  induction idx as [|k idx IH]; intros Hin; simpl; [done|].
  rewrite series_get_val by (apply Hin; by left). simpl.
  rewrite IH; [done|]. intros k' ?. apply Hin. by right.
Qed.

Lemma val_labels_values (s : Series) :
  NoDup (labels s) -> val s <$> labels s = values s.
Proof.
  intros Hnd. unfold labels, values. rewrite <- list_fmap_compose.
  apply list_eq. intros i. rewrite !list_lookup_fmap.
  pose proof (series_get_lookup s i) as Hget. unfold Series in *.
  destruct (s !! i) as [[k v]|]; [|done].
  simpl. f_equal. apply val_get. by apply Hget.
Qed.

(** X8. When [delta_p] has no repeated label and an entry for every bus of
    [idx_theta], [stack_residuals] returns the entries of [delta_p] picked by
    label in the order of [idx_theta], followed by the values of [delta_q];
    [split_corrections] at the two lengths gives the two parts back.  For
    [idx_theta] the index of [delta_p] itself the stacked vector is the plain
    concatenation [solve] uses. *)
Theorem stack_then_split delta_p delta_q idx_theta :
  NoDup (labels delta_p) ->
  (forall k, k ∈ idx_theta -> k ∈ labels delta_p) ->
  stack_residuals delta_p delta_q idx_theta
    = Ok ((val delta_p <$> idx_theta) ++ values delta_q) /\
  split_corrections ((val delta_p <$> idx_theta) ++ values delta_q)
    (length idx_theta) (length delta_q)
    = (val delta_p <$> idx_theta, values delta_q) /\
  (idx_theta = labels delta_p ->
   stack_residuals delta_p delta_q idx_theta
     = Ok (values delta_p ++ values delta_q)).
Proof.
  intros Hnd Hin.
  assert (stack_residuals delta_p delta_q idx_theta
          = Ok ((val delta_p <$> idx_theta) ++ values delta_q)) as Hstack.
  { unfold stack_residuals. by rewrite traverse_series_get. }
  split; [done|]. split.
  - unfold split_corrections.
    rewrite <- (length_fmap (val delta_p) idx_theta).
    rewrite take_app_length, drop_app_length.
    unfold values. rewrite <- (length_fmap snd delta_q). by rewrite firstn_all.
  - intros Heq. rewrite Hstack, Heq. by rewrite val_labels_values.
Qed.

Lemma stack_then_split_witness :
  NoDup (labels P_ABC) /\
  (forall k, k ∈ ["C"; "A"] -> k ∈ labels P_ABC) /\
  stack_residuals P_ABC Q_ABC ["C"; "A"] = Ok ([4; 2] ++ [5; 6; 7]) /\
  split_corrections ([4; 2] ++ [5; 6; 7]) 2 3 = ([4; 2], [5; 6; 7]).
Proof.
  assert (NoDup (labels P_ABC)) as Hnd by (by apply (bool_decide_unpack _)).
  assert (forall k, k ∈ ["C"; "A"] -> k ∈ labels P_ABC) as Hin.
  { intros k [->|[->|Hk]%elem_of_cons]%elem_of_cons;
      [by apply (bool_decide_unpack _)..|by inversion Hk]. }
  split; [exact Hnd|]. split; [exact Hin|].
  destruct (stack_then_split P_ABC Q_ABC ["C"; "A"] Hnd Hin) as (Hs & Hsp & _).
  split; [exact Hs|exact Hsp].
Defined.

(** X9. A bus of [idx_theta] without an entry in [delta_p] makes
    [stack_residuals] raise a [KeyError], whatever the other buses are;
    nothing is said about the argument of the exception. *)
Theorem stack_residuals_missing_bus delta_p delta_q idx_theta k :
  k ∈ idx_theta -> k ∉ labels delta_p ->
  exists msg, stack_residuals delta_p delta_q idx_theta = Err (KeyError msg).
Proof.
  intros Hk Hmiss. unfold stack_residuals.
  destruct (traverse (series_get delta_p) idx_theta) as [vs|e] eqn:Htr.
  - apply traverse_Ok in Htr. apply list_elem_of_lookup in Hk as [i Hi].
    destruct (Forall2_lookup_l _ _ _ _ _ Htr Hi) as (v & _ & Hv).
    by rewrite series_get_not_elem in Hv.
  - apply traverse_Err in Htr as (k' & Hk' & He).
    destruct (decide (k' ∈ labels delta_p)) as [Hin|Hout].
    + destruct (series_get_elem _ _ Hin) as [v Hv]. congruence.
    + rewrite series_get_not_elem in He by done. injection He as <-.
      by exists k'.
Qed.

Lemma stack_residuals_missing_bus_witness :
  "Z" ∈ ["A"; "Z"] /\ ("Z" ∉ labels P_ABC) /\
  exists msg, stack_residuals P_ABC Q_ABC ["A"; "Z"] = Err (KeyError msg).
Proof.
  assert ("Z" ∈ ["A"; "Z"]) as Hk by (by apply (bool_decide_unpack _)).
  assert ("Z" ∉ labels P_ABC) as Hmiss by (by apply (bool_decide_unpack _)).
  split; [exact Hk|]. split; [exact Hmiss|].
  exact (stack_residuals_missing_bus P_ABC Q_ABC ["A"; "Z"] "Z" Hk Hmiss).
Defined.

(** ** solver/update.py: what is corrected, and when it fails *)

(** X10. For a magnitude vector without repeated labels and a list
    [swing + pq] without repeated buses, [apply_delta] keeps the index of both
    vectors, and the bus at position [p] of [swing + pq] has its magnitude
    decreased by the entry [len(index) + p] of the correction vector. *)
Theorem apply_delta_corrects_magnitude theta V delta index swing pq theta' V' b p :
  NoDup (labels V) -> NoDup (swing ++ pq) -> (swing ++ pq) !! p = Some b ->
  apply_delta theta V delta index swing pq = Ok (theta', V') ->
  labels theta' = labels theta /\ labels V' = labels V /\
  exists old c, series_get V b = Ok old /\
                delta !! (length index + p)%nat = Some c /\
                series_get V' b = Ok (old - c).
Proof.
  intros _ Hnd Hp [Hth HV]%apply_delta_Ok.
  split; [by eapply subtract_corrections_labels|].
  split; [by eapply subtract_corrections_labels|].
  destruct (subtract_corrections_at _ _ _ _ _ _ HV Hnd Hp)
    as (old & c & Hold & Hc & Hnew).
  exists old, c. split; [done|]. split; [|done].
  apply lookup_take_Some in Hc as [Hc _]. by rewrite lookup_drop in Hc.
Qed.

Lemma apply_delta_ABC :
  apply_delta theta_ABC V_ABC [1; 2; 3; 4; 5] ["A"; "B"; "C"] ["A"] ["C"]
  = Ok ([("A", 0 - 1); ("B", 0 - 2); ("C", 0 - 3)],
        [("A", 1 - 4); ("B", 1); ("C", 1 - 5)]).
Proof. reflexivity. Qed.

Lemma apply_delta_corrects_magnitude_witness :
  NoDup (labels V_ABC) /\
  NoDup (["A"] ++ ["C"]) /\ (["A"] ++ ["C"]) !! 1%nat = Some "C" /\
  apply_delta theta_ABC V_ABC [1; 2; 3; 4; 5] ["A"; "B"; "C"] ["A"] ["C"]
  = Ok ([("A", 0 - 1); ("B", 0 - 2); ("C", 0 - 3)],
        [("A", 1 - 4); ("B", 1); ("C", 1 - 5)]) /\
  exists old c, series_get V_ABC "C" = Ok old /\
                [1; 2; 3; 4; 5] !! (length ["A"; "B"; "C"] + 1)%nat = Some c /\
                series_get [("A", 1 - 4); ("B", 1); ("C", 1 - 5)] "C"
                = Ok (old - c).
Proof.
  assert (NoDup (labels V_ABC)) as HndV by (by apply (bool_decide_unpack _)).
  assert (NoDup (["A"] ++ ["C"])) as Hnd by (by apply (bool_decide_unpack _)).
  split; [exact HndV|].
  split; [exact Hnd|]. split; [reflexivity|]. split; [exact apply_delta_ABC|].
  exact (proj2 (proj2 (apply_delta_corrects_magnitude _ _ _ _ _ _ _ _ "C" 1%nat
                         HndV Hnd eq_refl apply_delta_ABC))).
Defined.

Lemma subtract_corrections_short s d names :
  (forall k, k ∈ names -> k ∈ labels s) -> (length d < length names)%nat ->
  subtract_corrections s d names = Err IndexError.
Proof.
  induction names as [|x names IH] using rev_ind; intros Hin Hlen.
  - simpl in Hlen. lia.
  - rewrite length_app in Hlen. simpl in Hlen.
    rewrite subtract_corrections_snoc.
    assert (forall k, k ∈ names -> k ∈ labels s) as Hin'.
    { intros k Hk. apply Hin, elem_of_app. by left. }
    destruct (decide (length d < length names)%nat) as [Hlt|Hge].
    + by rewrite IH.
    + destruct (subtract_corrections_total s d names Hin') as [s1 Hs1]; [lia|].
      rewrite Hs1. simpl.
      destruct (series_get_elem s1 x) as [old ->].
      { erewrite subtract_corrections_labels by done.
        apply Hin, elem_of_app. right. by left. }
      simpl. unfold array_get. rewrite lookup_ge_None_2 by lia. done.
Qed.

Lemma subtract_corrections_missing s d names :
  (length names <= length d)%nat ->
  (exists k, k ∈ names /\ k ∉ labels s) ->
  exists k, k ∈ names /\ (k ∉ labels s) /\
    subtract_corrections s d names = Err (KeyError k).
Proof.
  induction names as [|x names IH] using rev_ind; intros Hlen (k & Hk & Hmiss).
  - by inversion Hk.
  - rewrite length_app in Hlen. simpl in Hlen.
    rewrite subtract_corrections_snoc.
    destruct (decide (Exists (fun k' => k' ∉ labels s) names)) as [Hex|Hall].
    + apply Exists_exists in Hex.
      destruct IH as (k' & Hk' & Hm' & ->); [lia|done|].
      exists k'. split; [apply elem_of_app; by left|done].
    + assert (forall k', k' ∈ names -> k' ∈ labels s) as Hin.
      { intros k' Hk'. destruct (decide (k' ∈ labels s)); [done|].
        exfalso. apply Hall, Exists_exists. by exists k'. }
      destruct (subtract_corrections_total s d names Hin) as [s1 Hs1]; [lia|].
      rewrite Hs1. simpl.
      assert (k = x) as ->.
      { apply elem_of_app in Hk as [Hk|Hk]; [by apply Hin in Hk|].
        by apply list_elem_of_singleton in Hk. }
      rewrite series_get_not_elem
        by (by erewrite subtract_corrections_labels).
      exists x. split; [apply elem_of_app; right; by left|done].
Qed.

(** X11. With every listed bus present in its vector, a correction vector
    shorter than [len(index) + len(swing + pq)] makes [apply_delta] raise
    [IndexError]; with a correction vector long enough, a bus of [index]
    without an angle entry makes it raise a [KeyError] naming such a bus. *)
Theorem apply_delta_failures theta V delta index swing pq :
  ((forall k, k ∈ index -> k ∈ labels theta) ->
   (forall k, k ∈ swing ++ pq -> k ∈ labels V) ->
   (length delta < length index + length (swing ++ pq))%nat ->
   apply_delta theta V delta index swing pq = Err IndexError) /\
  ((length index <= length delta)%nat ->
   (exists k, k ∈ index /\ k ∉ labels theta) ->
   exists k, k ∈ index /\ (k ∉ labels theta) /\
     apply_delta theta V delta index swing pq = Err (KeyError k)).
Proof.
  split.
  - intros Hth HV Hlen. unfold apply_delta, split_corrections.
    destruct (decide (length delta < length index)%nat) as [Hlt|Hge].
    + rewrite (subtract_corrections_short theta); [done|done|].
      rewrite length_take. lia.
    + rewrite length_app in Hlen.
      destruct (subtract_corrections_total theta
                  (take (length index) delta) index Hth) as [theta' ->];
        [rewrite length_take; lia|].
      simpl. rewrite subtract_corrections_short; [done|done|].
      rewrite length_take, length_drop, length_app. lia.
  - intros Hlen Hmiss. unfold apply_delta, split_corrections.
    destruct (subtract_corrections_missing theta (take (length index) delta)
                index) as (k & Hk & Hm & ->);
      [rewrite length_take; lia|done|].
    by exists k.
Qed.

Lemma apply_delta_failures_witness :
  apply_delta theta_ABC V_ABC [1; 2; 3; 4] ["A"; "B"; "C"] ["A"] ["C"]
    = Err IndexError /\
  exists k, k ∈ ["A"; "Z"; "C"] /\ (k ∉ labels theta_ABC) /\
    apply_delta theta_ABC V_ABC [1; 2; 3; 4; 5] ["A"; "Z"; "C"] ["A"] ["C"]
      = Err (KeyError k).
Proof.
  split.
  - apply (proj1 (apply_delta_failures theta_ABC V_ABC [1; 2; 3; 4]
                    ["A"; "B"; "C"] ["A"] ["C"])).
    + apply Forall_forall. by apply (bool_decide_unpack _).
    + apply Forall_forall. by apply (bool_decide_unpack _).
    + simpl. lia.
  - apply (proj2 (apply_delta_failures theta_ABC V_ABC [1; 2; 3; 4; 5]
                    ["A"; "Z"; "C"] ["A"] ["C"])).
    + simpl. lia.
    + exists "Z". split; by apply (bool_decide_unpack _).
Defined.

Example apply_delta_short :
  apply_delta theta_ABC V_ABC [1; 2; 3; 4] ["A"; "B"; "C"] ["A"] ["C"]
  = Err IndexError.
Proof. reflexivity. Qed.

Example apply_delta_unknown_bus :
  apply_delta theta_ABC V_ABC [1; 2; 3; 4; 5] ["A"; "Z"; "C"] ["A"] ["C"]
  = Err (KeyError "Z").
Proof. reflexivity. Qed.

(** ** solver/convergence.py *)

Lemma fold_Rmax_lt (l : list R) (a tol : R) :
  foldl (fun acc y => Rmax acc (Rabs y)) a l < tol <->
  a < tol /\ Forall (fun x => Rabs x < tol) l.
Proof.
  revert a. induction l as [|x l IH]; intros a; simpl.
  - split; [by intros ?; split|by intros [? _]].
  - rewrite IH, Rmax_Rlt, Forall_cons. tauto.
Qed.

(** X12. The convergence test is the infinity norm against the tolerance:
    it answers true exactly when every entry of the mismatch is smaller than
    the tolerance in absolute value; an empty mismatch raises [ValueError]. *)
Theorem check_convergence_inf_norm mismatch tol :
  (mismatch = [] -> check_convergence mismatch tol = Err ValueError) /\
  (mismatch ≠ [] ->
   check_convergence mismatch tol
   = Ok (bool_decide (Forall (fun x => Rabs x < tol) mismatch))).
Proof.
  split; [by intros ->|]. intros Hne.
  destruct mismatch as [|x l]; [done|]. unfold check_convergence. simpl.
  f_equal. apply bool_decide_ext. rewrite fold_Rmax_lt, Forall_cons. tauto.
Qed.

Lemma check_convergence_inf_norm_witness :
  check_convergence [] 1 = Err ValueError /\
  check_convergence [0; -1] 2
  = Ok (bool_decide (Forall (fun x => Rabs x < 2) [0; -1])).
Proof.
  split.
  - exact (proj1 (check_convergence_inf_norm [] 1) eq_refl).
  - apply (proj2 (check_convergence_inf_norm [0; -1] 2)). done.
Defined.

(** ** newtonraphson.py: what [solve] returns *)

Lemma iteration_Converged_inv nan linalg_solve self V theta :
  iteration nan linalg_solve self V theta = Ok Converged ->
  exists P Q dP dQ,
    calc_injected_power (nr_Ybus self) V theta = Ok (P, Q) /\
    calc_delta_p nan P (nr_pot_esp self) (nr_index self) (nr_swing self) = Ok dP /\
    calc_delta_q nan Q (nr_pot_esp self) (nr_pq self) (nr_swing self) = Ok dQ /\
    check_convergence (values dP ++ values dQ) (nr_tol self) = Ok true.
Proof.
  intros Hit. unfold iteration in Hit.
  apply bind_Ok in Hit as ([P Q] & HPQ & Hit). cbn beta iota in Hit.
  apply bind_Ok in Hit as (dP & HdP & Hit).
  apply bind_Ok in Hit as (dQ & HdQ & Hit).
  apply bind_Ok in Hit as (conv & Hconv & Hit).
  destruct conv.
  - by exists P, Q, dP, dQ.
  - apply bind_Ok in Hit as (J & _ & Hit).
    apply bind_Ok in Hit as (delta & _ & Hit).
    apply bind_Ok in Hit as ([theta1 V1] & _ & Hit). done.
Qed.

Lemma iteration_Updated_inv nan linalg_solve self V theta V' theta' :
  iteration nan linalg_solve self V theta = Ok (Updated V' theta') ->
  exists delta,
    apply_delta theta V delta (nr_index self) (nr_swing self) (nr_pq self)
    = Ok (theta', V').
Proof.
  intros Hit. unfold iteration in Hit.
  apply bind_Ok in Hit as ([P Q] & HPQ & Hit). cbn beta iota in Hit.
  apply bind_Ok in Hit as (dP & HdP & Hit).
  apply bind_Ok in Hit as (dQ & HdQ & Hit).
  apply bind_Ok in Hit as (conv & Hconv & Hit).
  destruct conv; [done|].
  apply bind_Ok in Hit as (J & _ & Hit).
  apply bind_Ok in Hit as (delta & _ & Hit).
  apply bind_Ok in Hit as ([theta1 V1] & Happly & Hit).
  cbn beta iota in Hit. injection Hit as <- <-. by exists delta.
Qed.

Lemma check_convergence_true mismatch tol :
  check_convergence mismatch tol = Ok true ->
  mismatch ≠ [] /\ Forall (fun x => Rabs x < tol) mismatch.
Proof.
  destruct mismatch as [|x l]; [done|]. unfold check_convergence. simpl.
  intros [= Hlt]. apply bool_decide_eq_true_1 in Hlt.
  apply fold_Rmax_lt in Hlt as [? ?]. split; [done|]. by apply Forall_cons.
Qed.

(** X13. A result of [solve] flagged as converged carries the number [n] of
    the pass that met the tolerance, between 1 and [max_iter]; it is the state
    after [n - 1] corrections, and every entry of its mismatch vector is
    smaller than the tolerance in absolute value.  A result flagged as not
    converged carries [max_iter] and is the state after [max_iter]
    corrections. *)
Theorem solve_result nan linalg_solve self V' theta' conv n :
  solve nan linalg_solve self = Ok (V', theta', conv, n) ->
  if conv then
    (1 <= n <= nr_max_iter self)%nat /\
    run_updates nan linalg_solve self (n - 1) (nr_V self) (nr_theta self)
      = Some (V', theta') /\
    exists P Q dP dQ,
      calc_injected_power (nr_Ybus self) V' theta' = Ok (P, Q) /\
      calc_delta_p nan P (nr_pot_esp self) (nr_index self) (nr_swing self)
        = Ok dP /\
      calc_delta_q nan Q (nr_pot_esp self) (nr_pq self) (nr_swing self)
        = Ok dQ /\
      Forall (fun x => Rabs x < nr_tol self) (values dP ++ values dQ)
  else
    n = nr_max_iter self /\
    run_updates nan linalg_solve self (nr_max_iter self) (nr_V self)
      (nr_theta self) = Some (V', theta').
Proof.
  intros (k & Hk & Hrun & Hconv)%solve_loop_inv. destruct conv.
  - destruct Hconv as (-> & Hlt & Hit). simpl.
    split; [lia|]. rewrite Nat.sub_0_r. split; [done|].
    apply iteration_Converged_inv in Hit
      as (P & Q & dP & dQ & HPQ & HdP & HdQ & Hc).
    apply check_convergence_true in Hc as [_ Hall].
    by exists P, Q, dP, dQ.
  - destruct Hconv as [-> ->]. by split.
Qed.

Lemma calc_delta_p_balanced :
  calc_delta_p 0 zero_AB pot_esp_zero ["A"; "B"] ["A"]
  = Ok [("A", 0); ("B", 0 - 0)].
Proof. reflexivity. Qed.

Lemma calc_delta_q_balanced :
  calc_delta_q 0 zero_AB pot_esp_zero ["B"] ["A"]
  = Ok [("A", 0); ("B", 0 - 0)].
Proof. reflexivity. Qed.

Lemma check_convergence_balanced :
  check_convergence [0; 0 - 0; 0; 0 - 0] (1 / 1000000) = Ok true.
Proof.
  unfold check_convergence. simpl. f_equal. apply bool_decide_eq_true_2.
  replace (0 - 0) with 0 by lra. rewrite Rabs_R0.
  unfold Rmax. repeat destruct (Rle_dec _ _); lra.
Qed.

Lemma iteration_balanced linalg_solve :
  iteration 0 linalg_solve nr_AB_balanced V_AB theta_AB = Ok Converged.
Proof.
  unfold iteration, nr_AB_balanced.
  cbn [nr_Ybus nr_pot_esp nr_index nr_swing nr_pq nr_tol].
  rewrite calc_injected_power_AB. cbn [mbind result_bind].
  rewrite calc_delta_p_balanced, calc_delta_q_balanced. cbn [mbind result_bind].
  change (values [("A", 0); ("B", 0 - 0)] ++ values [("A", 0); ("B", 0 - 0)])
    with [0; 0 - 0; 0; 0 - 0].
  by rewrite check_convergence_balanced.
Qed.

Lemma solve_balanced linalg_solve :
  solve 0 linalg_solve nr_AB_balanced = Ok (V_AB, theta_AB, true, 1%nat).
Proof.
  unfold solve. change (nr_max_iter nr_AB_balanced) with 3%nat.
  cbn [solve_loop]. change (nr_V nr_AB_balanced) with V_AB.
  change (nr_theta nr_AB_balanced) with theta_AB.
  by rewrite iteration_balanced.
Qed.

Lemma solve_result_witness :
  solve 0 (solve_by_check []) nr_AB_balanced = Ok (V_AB, theta_AB, true, 1%nat) /\
  (1 <= 1 <= nr_max_iter nr_AB_balanced)%nat /\
  run_updates 0 (solve_by_check []) nr_AB_balanced (1 - 1)
    (nr_V nr_AB_balanced) (nr_theta nr_AB_balanced) = Some (V_AB, theta_AB) /\
  exists P Q dP dQ,
    calc_injected_power (nr_Ybus nr_AB_balanced) V_AB theta_AB = Ok (P, Q) /\
    calc_delta_p 0 P (nr_pot_esp nr_AB_balanced) (nr_index nr_AB_balanced)
      (nr_swing nr_AB_balanced) = Ok dP /\
    calc_delta_q 0 Q (nr_pot_esp nr_AB_balanced) (nr_pq nr_AB_balanced)
      (nr_swing nr_AB_balanced) = Ok dQ /\
    Forall (fun x => Rabs x < nr_tol nr_AB_balanced) (values dP ++ values dQ).
Proof.
  split; [exact (solve_balanced _)|].
  exact (solve_result 0 (solve_by_check []) nr_AB_balanced V_AB theta_AB true 1
           (solve_balanced _)).
Defined.

Lemma iteration_keeps_labels nan linalg_solve self V theta V' theta' :
  iteration nan linalg_solve self V theta = Ok (Updated V' theta') ->
  labels V' = labels V /\ labels theta' = labels theta.
Proof.
  intros [delta [Hth HV]%apply_delta_Ok]%iteration_Updated_inv.
  split; by eapply subtract_corrections_labels.
Qed.

Lemma iteration_keeps_unlisted nan linalg_solve self V theta V' theta' b :
  b ∉ nr_swing self ++ nr_pq self ->
  iteration nan linalg_solve self V theta = Ok (Updated V' theta') ->
  series_get V' b = series_get V b.
Proof.
  intros Hb [delta [Hth HV]%apply_delta_Ok]%iteration_Updated_inv.
  by eapply subtract_corrections_frame.
Qed.

Lemma run_updates_ind nan linalg_solve self (Inv : Series -> Series -> Prop) :
  (forall V theta V' theta',
     Inv V theta ->
     iteration nan linalg_solve self V theta = Ok (Updated V' theta') ->
     Inv V' theta') ->
  forall k V theta V' theta',
    Inv V theta ->
    run_updates nan linalg_solve self k V theta = Some (V', theta') ->
    Inv V' theta'.
Proof.
  intros Hstep k. induction k as [|k IH]; intros V theta V' theta' Hinv; simpl.
  - by intros [= <- <-].
  - destruct (iteration nan linalg_solve self V theta) as [[|V1 theta1]|e] eqn:Hit;
      [done| |done].
    apply IH. by eapply Hstep.
Qed.

(** X14. The vectors returned by [solve] have the index of the initial
    vectors: the same buses, in the same order. *)
Theorem solve_keeps_labels nan linalg_solve self V' theta' conv n :
  solve nan linalg_solve self = Ok (V', theta', conv, n) ->
  labels V' = labels (nr_V self) /\ labels theta' = labels (nr_theta self).
Proof.
  intros (k & _ & Hrun & _)%solve_loop_inv.
  eapply (run_updates_ind nan linalg_solve self
            (fun V theta => labels V = labels (nr_V self) /\
                            labels theta = labels (nr_theta self)));
    [|split; reflexivity|exact Hrun].
  intros V theta V1 theta1 [HV Hth] [HV1 Hth1]%iteration_keeps_labels.
  split; congruence.
Qed.

Lemma solve_AB :
  solve 0 (solve_by_check [0; 1; 0; 0]) nr_AB
  = Ok ([("A", 1 - 0); ("B", 1 - 0)], [("A", 0 - 0); ("B", 0 - 1)],
        false, 1%nat).
Proof. apply (solve_loop_exhausted _ _ nr_AB 1 0), run_updates_AB. Qed.

Lemma solve_keeps_labels_witness :
  solve 0 (solve_by_check [0; 1; 0; 0]) nr_AB
  = Ok ([("A", 1 - 0); ("B", 1 - 0)], [("A", 0 - 0); ("B", 0 - 1)],
        false, 1%nat) /\
  labels [("A", 1 - 0); ("B", 1 - 0)] = labels (nr_V nr_AB) /\
  labels [("A", 0 - 0); ("B", 0 - 1)] = labels (nr_theta nr_AB).
Proof.
  split; [exact solve_AB|].
  exact (solve_keeps_labels 0 (solve_by_check [0; 1; 0; 0]) nr_AB _ _ _ _
           solve_AB).
Defined.

(** X15. The magnitude of a bus that is neither a swing nor a PQ bus, a PV
    bus in particular, is returned by [solve] as it was given, whatever the
    number of corrections. *)
Theorem solve_keeps_PV_magnitude nan linalg_solve self b V' theta' conv n :
  b ∉ nr_swing self ++ nr_pq self ->
  solve nan linalg_solve self = Ok (V', theta', conv, n) ->
  series_get V' b = series_get (nr_V self) b.
Proof.
  intros Hb (k & _ & Hrun & _)%solve_loop_inv.
  eapply (run_updates_ind nan linalg_solve self
            (fun V theta => series_get V b = series_get (nr_V self) b));
    [|reflexivity|exact Hrun].
  intros V theta V1 theta1 HV Hit. cbn beta in *.
  rewrite <- HV. by eapply iteration_keeps_unlisted.
Qed.

Lemma calc_delta_q_pv :
  calc_delta_q 0 zero_AB pot_esp_load [] ["A"] = Ok [("A", 0)].
Proof. reflexivity. Qed.

Lemma check_convergence_pv :
  check_convergence [0; -1 - 0; 0] (1 / 1000000) = Ok false.
Proof.
  unfold check_convergence. simpl. f_equal. apply bool_decide_eq_false_2.
  intros Hlt.
  assert (1 <= Rmax (Rmax (Rabs 0) (Rabs (-1 - 0))) (Rabs 0)).
  { eapply Rle_trans; [|apply Rmax_l]. eapply Rle_trans; [|apply Rmax_r].
    unfold Rabs. destruct (Rcase_abs (-1 - 0)); lra. }
  lra.
Qed.

Lemma _build_pv :
  _build V_AB theta_AB (df_map re Ybus_AB) (df_map im Ybus_AB) zero_AB zero_AB
    [] ["A"] ["A"; "B"] = Ok eye3.
Proof.
  cbv -[cos sin exp Rminus Rdiv Rplus Rmult Ropp Rinv IZR pow Rabs Rmax
        Rlt_dec Req_dec_T PI R_eq_dec Rlt_decision].
  unfold eye3. repeat f_equal; lra.
Qed.

Lemma iteration_pv :
  iteration 0 (solve_by_check [0; 1; 0]) nr_AB_pv V_AB theta_AB
  = Ok (Updated [("A", 1 - 0); ("B", 1)] [("A", 0 - 0); ("B", 0 - 1)]).
Proof.
  unfold iteration, nr_AB_pv.
  cbn [nr_Ybus nr_pot_esp nr_index nr_swing nr_pq nr_tol].
  rewrite calc_injected_power_AB. cbn [mbind result_bind].
  rewrite calc_delta_p_AB, calc_delta_q_pv. cbn [mbind result_bind].
  change (values [("A", 0); ("B", -1 - 0)] ++ values [("A", 0)])
    with [0; -1 - 0; 0].
  rewrite check_convergence_pv. cbn [mbind result_bind].
  rewrite _build_pv. cbn [mbind result_bind].
  rewrite solve_by_check_Ok.
  - reflexivity.
  - reflexivity.
  - unfold mat_vec, eye3, dot. simpl. repeat f_equal; lra.
Qed.

Lemma solve_pv :
  solve 0 (solve_by_check [0; 1; 0]) nr_AB_pv
  = Ok ([("A", 1 - 0); ("B", 1)], [("A", 0 - 0); ("B", 0 - 1)], false, 1%nat).
Proof.
  apply (solve_loop_exhausted _ _ nr_AB_pv 1 0). simpl. by rewrite iteration_pv.
Qed.

Lemma solve_keeps_PV_magnitude_witness :
  ("B" ∉ nr_swing nr_AB_pv ++ nr_pq nr_AB_pv) /\
  solve 0 (solve_by_check [0; 1; 0]) nr_AB_pv
  = Ok ([("A", 1 - 0); ("B", 1)], [("A", 0 - 0); ("B", 0 - 1)], false, 1%nat) /\
  series_get [("A", 1 - 0); ("B", 1)] "B" = series_get (nr_V nr_AB_pv) "B".
Proof.
  assert ("B" ∉ nr_swing nr_AB_pv ++ nr_pq nr_AB_pv) as Hb
    by (by apply (bool_decide_unpack _)).
  split; [exact Hb|]. split; [exact solve_pv|].
  exact (solve_keeps_PV_magnitude 0 (solve_by_check [0; 1; 0]) nr_AB_pv "B"
           _ _ _ _ Hb solve_pv).
Defined.

(** ** solver/jacobian.py: the size of the linear system *)

Lemma fill_matrix_shape rows cols entry A :
  fill_matrix rows cols entry = Ok A -> shape (length rows) (length cols) A.
Proof.
  unfold fill_matrix. intros HA.
  by eapply fill_rows_spec in HA as (Hsh & _ & _); [|apply shape_zeros|done].
Qed.

Lemma _build_shape V theta G B P Q pq swing index J :
  _build V theta G B P Q pq swing index = Ok J ->
  shape (length index + length (swing ++ pq))
        (length index + length (swing ++ pq)) J.
Proof.
  unfold _build, _build_H, _build_N, _build_M, _build_L.
  intros (H & HH & (N & HN & (M & HM & (L & HL & [= <-])%bind_Ok)%bind_Ok)
    %bind_Ok)%bind_Ok.
  apply shape_vstack; apply shape_hstack; by eapply fill_matrix_shape.
Qed.

Lemma length_values {A} (s : list (string * A)) :
  length (values s) = length (labels s).
Proof. unfold values, labels. by rewrite !length_fmap. Qed.

Lemma calc_delta_p_labels nan P pot_esp index swing dP :
  calc_delta_p nan P pot_esp index swing = Ok dP -> labels dP = index.
Proof.
  rewrite calc_delta_p_unfold. by intros [? _]%mismatch_vector_Ok.
Qed.

Lemma calc_delta_q_labels nan Q pot_esp pq swing dQ :
  calc_delta_q nan Q pot_esp pq swing = Ok dQ -> labels dQ = swing ++ pq.
Proof.
  rewrite calc_delta_q_unfold. by intros [? _]%mismatch_vector_Ok.
Qed.

(** X16. Whenever the Jacobian is built, it is square, and its side is the
    length of the mismatch vector [concatenate((deltaP, deltaQ))] built for the
    same partition: the linear system handed to the solver has as many
    equations as unknowns. *)
Theorem linear_system_is_square nan V theta G B P Q P' Q' pot_esp pq swing index
    dP dQ J :
  calc_delta_p nan P' pot_esp index swing = Ok dP ->
  calc_delta_q nan Q' pot_esp pq swing = Ok dQ ->
  _build V theta G B P Q pq swing index = Ok J ->
  let n := length (values dP ++ values dQ) in
  n = (length index + length (swing ++ pq))%nat /\ shape n n J.
Proof.
  intros HdP%calc_delta_p_labels HdQ%calc_delta_q_labels HJ n.
  apply _build_shape in HJ.
  assert (n = (length index + length (swing ++ pq))%nat) as Hn.
  { unfold n. by rewrite length_app, !length_values, HdP, HdQ. }
  by rewrite Hn.
Qed.

Lemma linear_system_is_square_witness :
  calc_delta_p 0 zero_AB pot_esp_load ["A"; "B"] ["A"]
    = Ok [("A", 0); ("B", -1 - 0)] /\
  calc_delta_q 0 zero_AB pot_esp_load ["B"] ["A"]
    = Ok [("A", 0); ("B", 0 - 0)] /\
  _build V_AB theta_AB (df_map re Ybus_AB) (df_map im Ybus_AB) zero_AB zero_AB
    ["B"] ["A"] ["A"; "B"] = Ok eye4 /\
  4%nat = (length ["A"; "B"] + length (["A"] ++ ["B"]))%nat /\
  shape 4 4 eye4.
Proof.
  split; [exact calc_delta_p_AB|]. split; [exact calc_delta_q_AB|].
  split; [exact _build_AB|].
  exact (linear_system_is_square 0 _ _ _ _ _ _ _ _ _ _ _ _ _ _ _
           calc_delta_p_AB calc_delta_q_AB _build_AB).
Defined.

(** ** solver/power_balance.py: swing names outside the vector *)

Lemma zero_swing_filter d swing :
  zero_swing d swing = zero_swing d (filter (fun k => k ∈ labels d) swing).
Proof.
  revert d. induction swing as [|s swing IH]; intros d; [done|].
  change (zero_swing d (s :: swing))
    with (zero_swing (if decide (s ∈ labels d) then series_set d s 0 else d) swing).
  rewrite filter_cons. destruct (decide (s ∈ labels d)) as [Hs|Hs].
  - change (zero_swing d (s :: filter (fun k => k ∈ labels d) swing))
      with (zero_swing (if decide (s ∈ labels d) then series_set d s 0 else d)
              (filter (fun k => k ∈ labels d) swing)).
    rewrite decide_True by done. rewrite IH.
    by rewrite labels_series_set.
  - apply IH.
Qed.

(** X17. A swing name that is not a bus of [index] is skipped by
    [calc_delta_p]: the result is the one obtained with the swing buses that
    are in [index]. *)
Theorem calc_delta_p_skips_unknown_swing nan P pot_esp index swing :
  calc_delta_p nan P pot_esp index swing =
  calc_delta_p nan P pot_esp index (filter (fun k => k ∈ index) swing).
Proof.
  rewrite !calc_delta_p_unfold.
  destruct (delta_loop fst P pot_esp index (series_const nan index))
    as [d|e] eqn:Hd; [|done].
  simpl. f_equal. rewrite zero_swing_filter.
  apply delta_loop_Ok in Hd as [Hlab _].
  - by rewrite Hlab, labels_series_const.
  - intros k Hk. by rewrite labels_series_const.
Qed.

(** ** models/sistema.py and newtonraphson.py: a solver built from a system *)

Lemma Ybus_index linhas transformadores barras shunts Y :
  Ybus linhas transformadores barras shunts = Ok Y ->
  df_index Y = sorted_names barras.
Proof.
  rewrite Ybus_unfold. by intros (terms & _ & [= <-])%bind_Ok.
Qed.

Lemma Sistema_init_Ok barras linhas transformadores sistema :
  Sistema_init barras linhas transformadores = Ok sistema ->
  sis_barras sistema = barras /\
  sis_df_bus sistema = make_row <$> barras /\
  Ybus linhas transformadores barras (barras ≫= bus_shunts)
    = Ok (sis_ybus sistema).
Proof.
  unfold Sistema_init. by intros (Y & HY & [= <-])%bind_Ok.
Qed.

Lemma row_barra_make_row (barras : list Bus) :
  row_barra <$> (make_row <$> barras) = bus_nome <$> barras.
Proof. rewrite <- list_fmap_compose. by apply list_fmap_ext. Qed.

Lemma labels_fmap_pair {A B} (f : A -> string) (g : A -> B) (l : list A) :
  labels ((fun a => (f a, g a)) <$> l) = f <$> l.
Proof. unfold labels. rewrite <- list_fmap_compose. by apply list_fmap_ext. Qed.

Lemma buses_of_type_index t dbus k :
  k ∈ buses_of_type t dbus -> k ∈ row_barra <$> dbus.
Proof.
  intros Hk. eapply elem_of_sublist; [done|]. apply buses_of_type_sublist.
Qed.

Lemma check_convergence_nonempty mismatch tol :
  mismatch ≠ [] -> exists conv, check_convergence mismatch tol = Ok conv.
Proof. destruct mismatch; [done|]. intros _. by eexists. Qed.

Lemma _build_total V theta G B P Q pq swing index :
  (forall k, k ∈ index ++ swing ++ pq -> k ∉ swing ->
     covered V theta G B P Q k) ->
  exists J, _build V theta G B P Q pq swing index = Ok J.
Proof.
  intros Hcov.
  assert (forall k m, k ∈ index ++ swing ++ pq -> m ∈ index ++ swing ++ pq ->
            ~ swing_pair swing k m ->
            covered V theta G B P Q k /\ covered V theta G B P Q m) as Hpair.
  { intros k m Hk Hm Hsw. unfold swing_pair in Hsw. split; apply Hcov; tauto. }
  assert (forall k, k ∈ index -> k ∈ index ++ swing ++ pq) as Hidx.
  { intros k ?. apply elem_of_app. by left. }
  assert (forall k, k ∈ swing ++ pq -> k ∈ index ++ swing ++ pq) as Hsq.
  { intros k ?. apply elem_of_app. by right. }
  destruct (fill_matrix_block index index
              (entry_H V theta G B Q swing) (H_ref V theta G B Q swing))
    as (H & HH & _).
  { intros k m ? ?. apply (entry_H_ref V theta G B P). auto. }
  destruct (fill_matrix_block index (swing ++ pq)
              (entry_N V theta G B P swing) (N_ref V theta G B P swing))
    as (N & HN & _).
  { intros k m ? ?. apply (entry_N_ref V theta G B P Q). auto. }
  destruct (fill_matrix_block (swing ++ pq) index
              (entry_M V theta G B P swing) (M_ref V theta G B P swing))
    as (M & HM & _).
  { intros k m ? ?. apply (entry_M_ref V theta G B P Q). auto. }
  destruct (fill_matrix_block (swing ++ pq) (swing ++ pq)
              (entry_L V theta G B Q swing) (L_ref V theta G B Q swing))
    as (L & HL & _).
  { intros k m ? ?. apply (entry_L_ref V theta G B P). auto. }
  unfold _build, _build_H, _build_N, _build_M, _build_L.
  rewrite HH, HN, HM, HL. by eexists.
Qed.

Section WellFormed.
Variable nan : R.
Variable linalg_solve : list (list R) -> list R -> result (list R).
Variable self : NewtonRaphson.
Hypothesis Hsol : solves linalg_solve.
Hypothesis Hne : nr_index self ≠ [].
Hypothesis Hsub :
  forall k, k ∈ nr_swing self ++ nr_pq self -> k ∈ nr_index self.
Hypothesis HY : forall k, k ∈ nr_index self -> k ∈ df_index (nr_Ybus self).
Hypothesis Hpe : forall k, k ∈ nr_index self -> k ∈ labels (nr_pot_esp self).

(** The only exception a pass can raise on vectors indexed as [index] is one
    of the linear solver; a correction keeps the index. *)
Lemma iteration_well_formed V theta :
  labels V = nr_index self -> labels theta = nr_index self ->
  match iteration nan linalg_solve self V theta with
  | Ok Converged => True
  | Ok (Updated V' theta') =>
      labels V' = nr_index self /\ labels theta' = nr_index self
  | Err e => exists J b, linalg_solve J b = Err e
  end.
Proof.
  intros HV Hth. unfold iteration.
  destruct (calc_injected_power_total (nr_Ybus self) V theta)
    as (P & Q & -> & HlP & HlQ); [by rewrite HV|congruence|].
  cbn [mbind result_bind].
  rewrite calc_delta_p_unfold.
  destruct (delta_loop_total fst P (nr_pot_esp self) (nr_index self)
              (series_const nan (nr_index self))) as [d0 Hd0].
  { intros k Hk. split; [by apply Hpe|]. by rewrite HlP, HV. }
  rewrite Hd0. cbn [mbind result_bind].
  rewrite calc_delta_q_unfold.
  destruct (delta_loop_total snd Q (nr_pot_esp self)
              (nr_swing self ++ nr_pq self)
              (series_const nan (nr_swing self ++ nr_pq self))) as [d1 Hd1].
  { intros k Hk%Hsub. split; [by apply Hpe|]. by rewrite HlQ, HV. }
  rewrite Hd1. cbn [mbind result_bind].
  apply delta_loop_Ok in Hd0 as [Hl0 _];
    [|intros k ?; by rewrite labels_series_const].
  apply delta_loop_Ok in Hd1 as [Hl1 _];
    [|intros k ?; by rewrite labels_series_const].
  rewrite labels_series_const in Hl0, Hl1.
  set (dP := zero_swing d0 (nr_swing self)).
  set (dQ := zero_swing d1 (nr_swing self)).
  assert (length (values dP) = length (nr_index self)) as HlenP.
  { unfold dP. by rewrite length_values, zero_swing_labels, Hl0. }
  assert (length (values dQ) = length (nr_swing self ++ nr_pq self)) as HlenQ.
  { unfold dQ. by rewrite length_values, zero_swing_labels, Hl1. }
  destruct (check_convergence_nonempty (values dP ++ values dQ) (nr_tol self))
    as [conv ->].
  { intros Hnil. apply (f_equal length) in Hnil.
    rewrite length_app, HlenP in Hnil. simpl in Hnil.
    destruct (nr_index self); [done|simpl in Hnil; lia]. }
  cbn [mbind result_bind]. destruct conv; [done|].
  destruct (_build_total V theta (df_map re (nr_Ybus self))
              (df_map im (nr_Ybus self)) P Q (nr_pq self) (nr_swing self)
              (nr_index self)) as [J HJ].
  { intros k Hk _.
    assert (k ∈ nr_index self) as Hin.
    { apply elem_of_app in Hk as [?|?]; [done|by apply Hsub]. }
    repeat split; simpl; try (by apply HY); congruence. }
  rewrite HJ. cbn [mbind result_bind].
  destruct (linalg_solve J (Ropp <$> values dP ++ values dQ))
    as [delta|e] eqn:Hdelta; cbn [mbind result_bind]; [|by eauto].
  apply Hsol in Hdelta as [Hlen _].
  apply _build_shape in HJ as [HlenJ _].
  destruct (subtract_corrections_total theta
              (take (length (nr_index self)) delta) (nr_index self))
    as [theta' Hth'].
  { intros k ?. by rewrite Hth. }
  { rewrite length_take. lia. }
  destruct (subtract_corrections_total V
              (take (length (nr_swing self ++ nr_pq self))
                    (drop (length (nr_index self)) delta))
              (nr_swing self ++ nr_pq self)) as [V' HV'].
  { intros k Hk%Hsub. by rewrite HV. }
  { rewrite length_take, length_drop. lia. }
  assert (apply_delta theta V delta (nr_index self) (nr_swing self)
            (nr_pq self) = Ok (theta', V')) as ->
    by (by apply apply_delta_Ok).
  cbn [mbind result_bind].
  apply subtract_corrections_labels in Hth', HV'. split; congruence.
Qed.

Lemma solve_loop_well_formed r i V theta :
  labels V = nr_index self -> labels theta = nr_index self ->
  match solve_loop nan linalg_solve self r i V theta with
  | Ok (V', theta', _, _) =>
      labels V' = nr_index self /\ labels theta' = nr_index self
  | Err e => exists J b, linalg_solve J b = Err e
  end.
Proof.
  revert i V theta. induction r as [|r IH]; intros i V theta HV Hth; simpl.
  - by split.
  - pose proof (iteration_well_formed V theta HV Hth) as Hit.
    destruct (iteration nan linalg_solve self V theta) as [[|V1 theta1]|e];
      simpl; [by split| |done].
    destruct Hit as [HV1 Hth1]. by apply IH.
Qed.
End WellFormed.

(** X18. For a system built from a non-empty list of buses with distinct
    names, [solve] either returns vectors indexed by the buses in the order of
    the list, or raises an exception raised by [linalg.solve]: no lookup in the
    vectors, the admittance matrix or the specified-power table fails, the
    correction vector is never too short, and the mismatch is never empty. *)
Theorem solve_on_built_system nan linalg_solve barras linhas transformadores
    sistema tol max_iter :
  solves linalg_solve -> barras ≠ [] -> NoDup (bus_nome <$> barras) ->
  Sistema_init barras linhas transformadores = Ok sistema ->
  match solve nan linalg_solve (NewtonRaphson_init sistema tol max_iter) with
  | Ok (V, theta, _, _) =>
      labels V = bus_nome <$> barras /\ labels theta = bus_nome <$> barras
  | Err e => exists J b, linalg_solve J b = Err e
  end.
Proof.
  intros Hsol Hne Hnd (Hb & Hdf & HY)%Sistema_init_Ok.
  set (self := NewtonRaphson_init sistema tol max_iter).
  assert (nr_index self = bus_nome <$> barras) as Hidx.
  { unfold self. simpl. by rewrite Hdf, row_barra_make_row. }
  rewrite <- Hidx. unfold solve.
  apply solve_loop_well_formed; try done.
  - rewrite Hidx. by destruct barras.
  - intros k [Hk|Hk]%elem_of_app; by apply buses_of_type_index in Hk.
  - intros k Hk. rewrite Hidx in Hk. unfold self. simpl.
    rewrite (Ybus_index _ _ _ _ _ HY). apply sorted_names_elem_of.
    apply list_elem_of_fmap in Hk as (b & -> & Hb'). by exists b.
  - intros k Hk. unfold self. simpl. unfold pot_esp.
    by rewrite labels_fmap_pair.
  - unfold self. simpl. by rewrite labels_fmap_pair.
  - unfold self. simpl. by rewrite labels_fmap_pair.
Qed.

Lemma solve_on_built_system_witness :
  solves (solve_by_check [0; 1; 0; 0]) /\ [busA; busB] ≠ [] /\
  NoDup (bus_nome <$> [busA; busB]) /\
  exists sistema,
    Sistema_init [busA; busB] [line_off] [] = Ok sistema /\
    match solve 0 (solve_by_check [0; 1; 0; 0])
            (NewtonRaphson_init sistema (1 / 1000000) 1) with
    | Ok (V, theta, _, _) =>
        labels V = bus_nome <$> [busA; busB] /\
        labels theta = bus_nome <$> [busA; busB]
    | Err e => exists J b, solve_by_check [0; 1; 0; 0] J b = Err e
    end.
Proof.
  assert ([busA; busB] ≠ []) as Hne by done.
  assert (NoDup (bus_nome <$> [busA; busB])) as Hnd
    by (by apply (bool_decide_unpack _)).
  split; [apply solve_by_check_solves|]. split; [exact Hne|].
  split; [exact Hnd|].
  destruct (Ybus_total [line_off] [] [busA; busB] ([busA; busB] ≫= bus_shunts)
              line_off_ok) as [Y HY]; [by constructor|].
  assert (Sistema_init [busA; busB] [line_off] []
          = Ok (mkSistema [busA; busB] [line_off] []
                  ([busA; busB] ≫= bus_shunts) Y (make_row <$> [busA; busB])))
    as Hsis.
  { unfold Sistema_init. by rewrite HY. }
  eexists. split; [exact Hsis|].
  exact (solve_on_built_system 0 (solve_by_check [0; 1; 0; 0]) [busA; busB]
           [line_off] [] _ (1 / 1000000) 1 (solve_by_check_solves _)
           Hne Hnd Hsis).
Defined.

Lemma series_get_fmap_pair {A B} (f : A -> string) (g : A -> B) (l : list A)
    (a : A) :
  NoDup (f <$> l) -> a ∈ l ->
  series_get ((fun a => (f a, g a)) <$> l) (f a) = Ok (g a).
Proof.
  induction l as [|x l IH]; intros Hnd Ha; [by inversion Ha|].
  simpl in Hnd. apply NoDup_cons in Hnd as [Hx Hnd]. simpl.
  apply elem_of_cons in Ha as [->|Ha].
  - by rewrite decide_True.
  - rewrite decide_False; [by apply IH|].
    intros Heq. apply Hx. rewrite Heq. by apply list_elem_of_fmap_2.
Qed.

(** X19. In a system built from buses with distinct names, the
    specified-power table read by the solver has one row per bus, in the order
    of the bus list, holding the net powers [p_esp] and [q_esp] of the bus:
    the sum over its generators minus the sum over its loads. *)
Theorem pot_esp_of_system barras linhas transformadores sistema :
  NoDup (bus_nome <$> barras) ->
  Sistema_init barras linhas transformadores = Ok sistema ->
  labels (pot_esp sistema) = bus_nome <$> barras /\
  forall b, b ∈ barras ->
    series_get (pot_esp sistema) (bus_nome b) = Ok (p_esp b, q_esp b).
Proof.
  intros Hnd (_ & Hdf & _)%Sistema_init_Ok. unfold pot_esp. rewrite Hdf.
  rewrite <- list_fmap_compose.
  change ((fun r => (row_barra r, (row_P_esp r, row_Q_esp r))) ∘ make_row)
    with (fun b => (bus_nome b, (p_esp b, q_esp b))).
  split; [apply labels_fmap_pair|].
  intros b Hb.
  by apply (series_get_fmap_pair bus_nome (fun b => (p_esp b, q_esp b))).
Qed.

Lemma pot_esp_of_system_witness :
  NoDup (bus_nome <$> [busA; busB_gen]) /\
  exists sistema,
    Sistema_init [busA; busB_gen] [] [] = Ok sistema /\
    labels (pot_esp sistema) = bus_nome <$> [busA; busB_gen] /\
    series_get (pot_esp sistema) "B" = Ok (0 + 3 - (0 + 1), 0 + 1 - (0 + 2)).
Proof.
  assert (NoDup (bus_nome <$> [busA; busB_gen])) as Hnd
    by (by apply (bool_decide_unpack _)).
  split; [exact Hnd|].
  destruct (Ybus_total [] [] [busA; busB_gen]
              ([busA; busB_gen] ≫= bus_shunts)) as [Y HY]; [by constructor..|].
  assert (Sistema_init [busA; busB_gen] [] []
          = Ok (mkSistema [busA; busB_gen] [] []
                  ([busA; busB_gen] ≫= bus_shunts) Y
                  (make_row <$> [busA; busB_gen]))) as Hsis.
  { unfold Sistema_init. by rewrite HY. }
  eexists. split; [exact Hsis|].
  destruct (pot_esp_of_system [busA; busB_gen] [] [] _ Hnd Hsis) as [Hlab Hget].
  split; [exact Hlab|].
  apply (Hget busB_gen). apply elem_of_cons. right. apply elem_of_cons. by left.
Defined.

(** ** newtonraphson.py: the bus lists of the constructor *)

Lemma buses_of_type_elem_of t dbus r :
  NoDup (row_barra <$> dbus) -> r ∈ dbus ->
  row_barra r ∈ buses_of_type t dbus <-> row_tipo r = t.
Proof.
  intros Hnd Hr. split.
  - intros (r' & Hr' & Heq & Ht)%buses_of_type_elem.
    assert (r' = r) as -> by (by eapply NoDup_fmap_inj_on). done.
  - intros Ht. unfold buses_of_type. apply list_elem_of_fmap_2.
    by apply list_elem_of_filter.
Qed.

Lemma buses_of_type_NoDup t dbus :
  NoDup (row_barra <$> dbus) -> NoDup (buses_of_type t dbus).
Proof.
  intros Hnd. eapply sublist_NoDup; [done|apply buses_of_type_sublist].
Qed.

Lemma buses_of_type_disjoint t1 t2 dbus k :
  NoDup (row_barra <$> dbus) -> t1 ≠ t2 ->
  k ∈ buses_of_type t1 dbus -> k ∈ buses_of_type t2 dbus -> False.
Proof.
  intros Hnd Hne (r1 & Hr1 & <- & Ht1)%buses_of_type_elem
                 (r2 & Hr2 & Heq & Ht2)%buses_of_type_elem.
  assert (r2 = r1) as -> by (by eapply NoDup_fmap_inj_on).
  congruence.
Qed.

(** X20. For a bus table with distinct names, the constructor files a bus
    under [pq], [pv] or [swing] exactly when its type is the string ['PQ'],
    ['PV'] or ['SWING']; the three lists have no bus in common and no
    repetition, all their buses are in [index], and when every bus has one of
    the three types they hold together exactly the buses of [index]. *)
Theorem NewtonRaphson_init_lists sistema tol max_iter :
  NoDup (row_barra <$> sis_df_bus sistema) ->
  let self := NewtonRaphson_init sistema tol max_iter in
  (forall r, r ∈ sis_df_bus sistema ->
     (row_barra r ∈ nr_pq self <-> row_tipo r = "PQ") /\
     (row_barra r ∈ nr_pv self <-> row_tipo r = "PV") /\
     (row_barra r ∈ nr_swing self <-> row_tipo r = "SWING")) /\
  NoDup (nr_pq self ++ nr_pv self ++ nr_swing self) /\
  (forall k, k ∈ nr_pq self ++ nr_pv self ++ nr_swing self ->
     k ∈ nr_index self) /\
  ((forall r, r ∈ sis_df_bus sistema ->
      row_tipo r ∈ ["PQ"; "PV"; "SWING"]) ->
   nr_pq self ++ nr_pv self ++ nr_swing self ≡ₚ nr_index self).
Proof.
  intros Hnd self.
  assert (NoDup (nr_pq self ++ nr_pv self ++ nr_swing self)) as Hnd3.
  { simpl. apply NoDup_app. split; [by apply buses_of_type_NoDup|]. split.
    - intros k Hpq [Hpv|Hsw]%elem_of_app.
      + by apply (buses_of_type_disjoint "PQ" "PV" (sis_df_bus sistema) k).
      + by apply (buses_of_type_disjoint "PQ" "SWING" (sis_df_bus sistema) k).
    - apply NoDup_app. split; [by apply buses_of_type_NoDup|].
      split; [|by apply buses_of_type_NoDup].
      intros k Hpv Hsw.
      by apply (buses_of_type_disjoint "PV" "SWING" (sis_df_bus sistema) k). }
  assert (forall k, k ∈ nr_pq self ++ nr_pv self ++ nr_swing self ->
            k ∈ nr_index self) as Hsub.
  { intros k. rewrite !elem_of_app.
    intros [Hk|[Hk|Hk]]; by apply buses_of_type_index in Hk. }
  split; [|split; [done|split; [done|]]].
  - intros r Hr. repeat split; by apply buses_of_type_elem_of.
  - intros Htypes. apply NoDup_Permutation; [done|done|].
    intros k. split; [apply Hsub|].
    intros (r & -> & Hr)%list_elem_of_fmap. rewrite !elem_of_app.
    specialize (Htypes r Hr). rewrite !elem_of_cons in Htypes.
    destruct Htypes as [Ht|[Ht|[Ht|Ht]]]; [| | |by inversion Ht].
    + left. by apply buses_of_type_elem_of.
    + right. left. by apply buses_of_type_elem_of.
    + right. right. by apply buses_of_type_elem_of.
Qed.

Lemma NewtonRaphson_init_lists_witness :
  NoDup (row_barra <$> sis_df_bus sis_AB_gen) /\
  let self := NewtonRaphson_init sis_AB_gen (1 / 1000000) 20 in
  (forall r, r ∈ sis_df_bus sis_AB_gen ->
     (row_barra r ∈ nr_pq self <-> row_tipo r = "PQ") /\
     (row_barra r ∈ nr_pv self <-> row_tipo r = "PV") /\
     (row_barra r ∈ nr_swing self <-> row_tipo r = "SWING")) /\
  NoDup (nr_pq self ++ nr_pv self ++ nr_swing self) /\
  (forall k, k ∈ nr_pq self ++ nr_pv self ++ nr_swing self ->
     k ∈ nr_index self) /\
  ((forall r, r ∈ sis_df_bus sis_AB_gen ->
      row_tipo r ∈ ["PQ"; "PV"; "SWING"]) ->
   nr_pq self ++ nr_pv self ++ nr_swing self ≡ₚ nr_index self).
Proof.
  assert (NoDup (row_barra <$> sis_df_bus sis_AB_gen)) as Hnd
    by (by apply (bool_decide_unpack _)).
  split; [exact Hnd|].
  exact (NewtonRaphson_init_lists sis_AB_gen (1 / 1000000) 20 Hnd).
Defined.

(** ** ybus.py: the stamps of a transformer without phase shift *)

(** X21. A transformer with a phase attribute of zero, a nonzero tap and a
    nonzero series impedance is stamped as an off-nominal tap branch: the
    from-side self term is [y / tap^2 + jb/2], both mutual terms are
    [-y / tap] and the to-side self term is [y + jb/2], with
    [y = 1 / (r + jx)] and the divisions taken by [tap^2 + 0j] and
    [tap + 0j]. *)
Theorem transformer_without_phase_shift t barra_map i j :
  barra_map !! trafo_de t = Some i ->
  barra_map !! trafo_para t = Some j ->
  mkC (trafo_r t) (trafo_x t) ≠ C0 ->
  trafo_tap t ≠ 0 ->
  trafo_fase t = 0 ->
  let y := y_series (trafo_r t) (trafo_x t) in
  let b := mkC 0 (trafo_b t / 2) in
  _admitancia_transformador t barra_map
    = Ok [(i, i, Cadd (Cdiv y (RtoC (trafo_tap t * trafo_tap t))) b);
          (i, j, Cdiv (Copp y) (RtoC (trafo_tap t)));
          (j, i, Cdiv (Copp y) (RtoC (trafo_tap t)));
          (j, j, Cadd y b)].
Proof.
  intros Hi Hj Hz Htap Hfase y b.
  destruct (_admitancia_transformador_total_at t barra_map i j Hi Hj Hz)
    as [terms Hterms].
  rewrite Hterms.
  apply _admitancia_transformador_no_phase in Hterms
    as (i' & j' & Hi' & Hj' & ->); [|done].
  by simplify_eq.
Qed.

Lemma transformer_without_phase_shift_witness :
  make_barra_map ["A"; "B"] !! trafo_de trafo_off = Some 0%nat /\
  make_barra_map ["A"; "B"] !! trafo_para trafo_off = Some 1%nat /\
  mkC (trafo_r trafo_off) (trafo_x trafo_off) ≠ C0 /\
  trafo_tap trafo_off ≠ 0 /\
  trafo_fase trafo_off = 0 /\
  _admitancia_transformador trafo_off (make_barra_map ["A"; "B"])
    = Ok [(0%nat, 0%nat,
           Cadd (Cdiv (y_series 0 1) (RtoC (1 * 1))) (mkC 0 (0 / 2)));
          (0%nat, 1%nat, Cdiv (Copp (y_series 0 1)) (RtoC 1));
          (1%nat, 0%nat, Cdiv (Copp (y_series 0 1)) (RtoC 1));
          (1%nat, 1%nat, Cadd (y_series 0 1) (mkC 0 (0 / 2)))].
Proof.
  assert (trafo_tap trafo_off ≠ 0) as Htap by (simpl; lra).
  split; [exact barra_map_AB_A|]. split; [exact barra_map_AB_B|].
  split; [exact Cj_nonzero|]. split; [exact Htap|]. split; [reflexivity|].
  exact (transformer_without_phase_shift trafo_off (make_barra_map ["A"; "B"])
           0 1 barra_map_AB_A barra_map_AB_B Cj_nonzero Htap eq_refl).
Defined.

(** ** newtonraphson.py: when [solve] raises *)

Lemma solve_loop_Err nan linalg_solve self r i V theta e :
  solve_loop nan linalg_solve self r i V theta = Err e <->
  exists k V' theta', (k < r)%nat /\
    run_updates nan linalg_solve self k V theta = Some (V', theta') /\
    iteration nan linalg_solve self V' theta' = Err e.
Proof.
  revert i V theta. induction r as [|r IH]; intros i V theta; simpl.
  - split; [done|]. intros (k & ? & ? & ? & _). lia.
  - destruct (iteration nan linalg_solve self V theta) as [[|V1 theta1]|e1] eqn:Hit;
      simpl.
    + split; [done|]. intros (k & V' & theta' & Hk & Hrun & He).
      destruct k as [|k]; simpl in Hrun.
      * injection Hrun as <- <-. congruence.
      * by rewrite Hit in Hrun.
    + rewrite IH. split.
      * intros (k & V' & theta' & Hk & Hrun & He).
        exists (S k), V', theta'. simpl. rewrite Hit. split; [lia|done].
      * intros (k & V' & theta' & Hk & Hrun & He).
        destruct k as [|k]; simpl in Hrun.
        -- injection Hrun as <- <-. congruence.
        -- rewrite Hit in Hrun. exists k, V', theta'. split; [lia|done].
    + split.
      * intros [= ->]. exists 0%nat, V, theta. simpl. split; [lia|done].
      * intros (k & V' & theta' & Hk & Hrun & He).
        destruct k as [|k]; simpl in Hrun.
        -- injection Hrun as <- <-. congruence.
        -- by rewrite Hit in Hrun.
Qed.

(** X22. [solve] raises exactly the exception of the first pass that raises,
    provided that pass is one of the first [max_iter] and no earlier pass met
    the tolerance; the corrections made before it are not returned. *)
Theorem solve_raises nan linalg_solve self e :
  solve nan linalg_solve self = Err e <->
  exists k V theta, (k < nr_max_iter self)%nat /\
    run_updates nan linalg_solve self k (nr_V self) (nr_theta self)
      = Some (V, theta) /\
    iteration nan linalg_solve self V theta = Err e.
Proof. apply solve_loop_Err. Qed.

Lemma iteration_AB_singular :
  iteration 0 (solve_by_check []) nr_AB V_AB theta_AB = Err LinAlgError.
Proof.
  unfold iteration, nr_AB.
  cbn [nr_Ybus nr_pot_esp nr_index nr_swing nr_pq nr_tol].
  rewrite calc_injected_power_AB. cbn [mbind result_bind].
  rewrite calc_delta_p_AB, calc_delta_q_AB. cbn [mbind result_bind].
  change (values [("A", 0); ("B", -1 - 0)] ++ values [("A", 0); ("B", 0 - 0)])
    with [0; -1 - 0; 0; 0 - 0].
  rewrite check_convergence_AB. cbn [mbind result_bind].
  rewrite _build_AB. cbn [mbind result_bind].
  unfold solve_by_check. rewrite decide_False; [done|].
  by intros [? _].
Qed.

Lemma solve_raises_witness :
  solve 0 (solve_by_check []) nr_AB = Err LinAlgError.
Proof.
  apply (proj2 (solve_raises 0 (solve_by_check []) nr_AB LinAlgError)).
  exists 0%nat, V_AB, theta_AB. split; [simpl; lia|].
  split; [reflexivity|exact iteration_AB_singular].
Defined.
